(** * PyMEMENTO.gmx_util: a shallow embedding and its verified properties

    The development follows [src/PyMEMENTO/gmx_util.py].  Python values are
    modelled as follows.

    - [str] is [string]; a text file holds the [string] of its bytes;
      reading goes through the universal newlines of the text layer (CR LF
      and a lone CR are read as LF) and [readlines] cuts after every line
      feed; writing leaves a line feed as it is, as on POSIX.  Encodings
      are not modelled.
    - [int] is [Z].
    - [float] is idealised as an exact rational [Qc]: arithmetic is exact,
      so statements that hold "up to rounding" on IEEE doubles hold exactly
      here.  The per-step ratio needs a real root: the controller takes
      [np.power] as a parameter, and the ratio is studied where that
      parameter returns the value of the real power ([Module Schedule]).
    - Exceptions are values of [exn]; a function that may raise returns a
      [result].
    - The file system is a finite map from paths to files; the external MD
      engine and the analysis library are modelled through the narrow
      interface the source uses (load, select, write, run). *)

From Stdlib Require Import Reals Lra.
From Stdlib Require Import ZArith QArith Qcanon Qreals String Ascii.
From stdpp Require Import base decidable option list numbers strings gmap.

Local Open Scope Z_scope.
#[local] Arguments String.append !_ _.

(** ** Exceptions and results *)

Inductive exn : Type :=
  | IndexError
  | ValueError (msg : string)
  | ZeroDivisionError
  | FileNotFoundError (path : string)
  | SameFileError
  | SelectionError (sel : string).

Inductive result (A : Type) : Type :=
  | Ok (a : A)
  | Raise (e : exn).
Arguments Ok {A} a.
Arguments Raise {A} e.

#[global] Instance exn_eq_dec : EqDecision exn.
Proof. solve_decision. Defined.
#[global] Instance result_eq_dec {A} `{EqDecision A} : EqDecision (result A).
Proof. solve_decision. Defined.

#[global] Instance result_ret : MRet result := λ A a, Ok a.
#[global] Instance result_bind : MBind result := λ A B k r,
  match r with
  | Ok a => k a
  | Raise e => Raise e
  end.

Definition of_option {A} (e : exn) (o : option A) : result A :=
  match o with
  | Some a => Ok a
  | None => Raise e
  end.

(** [[f(x) for x in l]] for an [f] that may raise: the first exception, in
    list order, wins. *)
Fixpoint mapR {A B} (f : A → result B) (l : list A) : result (list B) :=
  match l with
  | [] => Ok []
  | x :: l' =>
      match f x with
      | Raise e => Raise e
      | Ok y =>
          match mapR f l' with
          | Raise e => Raise e
          | Ok ys => Ok (y :: ys)
          end
      end
  end.

(** ** Strings *)

Module Str.

(** [str.isspace] on the ASCII range. *)
Definition is_space (c : ascii) : bool :=
  let n := nat_of_ascii c in
  ((9 <=? n) && (n <=? 13) || (28 <=? n) && (n <=? 32))%nat.

Definition is_digit (c : ascii) : bool :=
  let n := nat_of_ascii c in ((48 <=? n) && (n <=? 57))%nat.

Definition digit_val (c : ascii) : Z := Z.of_nat (nat_of_ascii c) - 48.

(** [sub in s] *)
Fixpoint contains (sub s : string) : bool :=
  String.prefix sub s ||
  match s with
  | EmptyString => false
  | String _ s' => contains sub s'
  end.

(** [s.split(sep)] for a non-empty [sep]: a left-to-right scan; a match
    closes the current piece and the scan resumes after the separator
    ([skip] counts the separator characters still to pass over).  The head
    of the result is the piece under construction. *)
Fixpoint split_go (sep : string) (skip : nat) (s : string) : list string :=
  match s with
  | EmptyString => [EmptyString]
  | String c s' =>
      match skip with
      | S k => split_go sep k s'
      | O =>
          if String.prefix sep s
          then EmptyString :: split_go sep (String.length sep - 1) s'
          else match split_go sep 0 s' with
               | p :: ps => String c p :: ps
               | [] => [String c EmptyString]
               end
      end
  end.

Definition split (sep s : string) : list string := split_go sep 0 s.

Fixpoint all_chars (p : ascii → bool) (s : string) : bool :=
  match s with
  | EmptyString => true
  | String c s' => p c && all_chars p s'
  end.

Fixpoint char_in (c : ascii) (s : string) : bool :=
  match s with
  | EmptyString => false
  | String x s' => Ascii.eqb x c || char_in c s'
  end.

(** [s.split()]: the maximal runs of non-space characters. *)
Fixpoint split_ws (s : string) : list string :=
  match s with
  | EmptyString => []
  | String c s' =>
      if is_space c then split_ws s'
      else match s' with
           | EmptyString => [String c EmptyString]
           | String c' _ =>
               if is_space c' then String c EmptyString :: split_ws s'
               else match split_ws s' with
                    | w :: ws => String c w :: ws
                    | [] => [String c EmptyString]
                    end
           end
  end.

(** [s.lstrip()], [s.rstrip()], [s.strip()] *)
Fixpoint lstrip (s : string) : string :=
  match s with
  | EmptyString => EmptyString
  | String c s' => if is_space c then lstrip s' else s
  end.

Fixpoint rstrip (s : string) : string :=
  match s with
  | EmptyString => EmptyString
  | String c s' =>
      match rstrip s' with
      | EmptyString => if is_space c then EmptyString else String c EmptyString
      | r => String c r
      end
  end.

Definition strip (s : string) : string := rstrip (lstrip s).

(** [sep.join(l)] *)
Fixpoint join (sep : string) (l : list string) : string :=
  match l with
  | [] => EmptyString
  | [x] => x
  | x :: l' => x +:+ sep +:+ join sep l'
  end.

Fixpoint spaces (n : nat) : string :=
  match n with
  | O => EmptyString
  | S n' => String " " (spaces n')
  end.

(** [s.rjust(width)] *)
Definition rjust (width : nat) (s : string) : string :=
  spaces (width - String.length s) +:+ s.

Definition digit_char (d : Z) : ascii := ascii_of_nat (48 + Z.to_nat d).

Fixpoint of_digits (ds : list Z) : string :=
  match ds with
  | [] => EmptyString
  | d :: ds' => String (digit_char d) (of_digits ds')
  end.

(** The decimal digits of a natural number, most significant first;
    [fuel] bounds the number of digits. *)
Fixpoint digits_of (fuel : nat) (n : Z) : list Z :=
  match fuel with
  | O => []
  | S f => if n <? 10 then [n] else digits_of f (n / 10) ++ [n mod 10]
  end.

Definition of_nonneg (n : Z) : string :=
  of_digits (digits_of (S (Z.to_nat (Z.log2 n))) n).

(** [str(n)] for an [int] *)
Definition of_Z (n : Z) : string :=
  if n <? 0 then String "-" (of_nonneg (- n)) else of_nonneg n.

(** The value of a run of decimal digits in which single underscores may
    separate digits, as [int] reads it; [seen] tells whether the previous
    character was a digit. *)
Fixpoint digits_go (acc : Z) (seen : bool) (s : string) : option Z :=
  match s with
  | EmptyString => if seen then Some acc else None
  | String c s' =>
      if is_digit c then digits_go (acc * 10 + digit_val c) true s'
      else if Ascii.eqb c "_" then
             if seen then digits_go acc false s' else None
           else None
  end.

(** [int(s)]: surrounding white space, an optional sign, decimal digits. *)
Definition to_Z (s : string) : option Z :=
  match strip s with
  | EmptyString => None
  | String c d =>
      if Ascii.eqb c "-" then Z.opp <$> digits_go 0 false d
      else if Ascii.eqb c "+" then digits_go 0 false d
      else digits_go 0 false (String c d)
  end.

(** The lines of a text: every line keeps its line feed; a last line
    without one is kept as it is. *)
Fixpoint lines (s : string) : list string :=
  match s with
  | EmptyString => []
  | String c s' =>
      if Ascii.eqb c "010" then String c EmptyString :: lines s'
      else match lines s' with
           | l :: ls => String c l :: ls
           | [] => [String c EmptyString]
           end
  end.

(** What [open(path, "r")] hands to the program for the bytes of a file:
    with the default [newline=None], CR LF and a lone CR are translated to
    LF. *)
Fixpoint universal_newlines (s : string) : string :=
  match s with
  | EmptyString => EmptyString
  | String c s' =>
      if Ascii.eqb c "013" then
        String "010"
          match s' with
          | EmptyString => EmptyString
          | String c' s'' =>
              if Ascii.eqb c' "010" then universal_newlines s''
              else universal_newlines s'
          end
      else String c (universal_newlines s')
  end.

(** A text without carriage return. *)
Definition no_cr (s : string) : bool :=
  all_chars (λ c, negb (Ascii.eqb c "013")) s.

(** [f.readlines()] on a file opened for reading, from the bytes of the
    file. *)
Definition readlines (s : string) : list string :=
  lines (universal_newlines s).

(** [f.writelines(l)] on a file opened for writing *)
Definition writelines (l : list string) : string := String.concat EmptyString l.

End Str.

(** ** Floating-point numbers, idealised

    A [float] is an exact rational.  [round(x, 5)] is represented by the
    integer number of 1e-05 units it denotes ([value5] maps it back), and
    [str5] prints such a number the way [str] prints the float: shortest
    digits, at least one fractional digit, exponent notation below 1e-04.
    Signed zeros, non-finite values, underscores in literals and the
    exponent notation Python switches to from 1e+16 on are outside the
    model. *)

Module Float.

Import Str.

Fixpoint cut (p : ascii → bool) (s : string) : string * option string :=
  match s with
  | EmptyString => (EmptyString, None)
  | String c s' =>
      if p c then (EmptyString, Some s')
      else let '(a, b) := cut p s' in (String c a, b)
  end.

(** The digits of a string made of decimal digits only. *)
Fixpoint plain_digits (s : string) : option (list Z) :=
  match s with
  | EmptyString => Some []
  | String c s' =>
      if is_digit c then (digit_val c ::.) <$> plain_digits s' else None
  end.

Definition digits_value (ds : list Z) : Z :=
  fold_left (λ acc d, acc * 10 + d) ds 0.

Definition is_e (c : ascii) : bool := Ascii.eqb c "e" || Ascii.eqb c "E".
Definition is_dot (c : ascii) : bool := Ascii.eqb c ".".

(** An optional sign in front of [s]: whether it is a minus, and the rest. *)
Definition cut_sign (s : string) : bool * string :=
  match s with
  | EmptyString => (false, s)
  | String c r =>
      if Ascii.eqb c "-" then (true, r)
      else if Ascii.eqb c "+" then (false, r)
      else (false, s)
  end.

Definition exponent (s : string) : option Z :=
  let '(neg, d) := cut_sign s in
  match d with
  | EmptyString => None
  | _ => (λ ds, if neg then - digits_value ds else digits_value ds)
           <$> plain_digits d
  end.

Definition pow10 (e : Z) : Q :=
  if 0 <=? e then inject_Z (10 ^ e) else 1 # Z.to_pos (10 ^ (- e)).

(** [float(s)] *)
Definition of_string (s : string) : option Qc :=
  let s := strip s in
  let '(neg, body) := cut_sign s in
  let '(mant, ex) := cut is_e body in
  let '(ip, fr) := cut is_dot mant in
  let fr := default EmptyString fr in
  i ← plain_digits ip;
  f ← plain_digits fr;
  e ← match ex with None => Some 0 | Some es => exponent es end;
  if (length i + length f =? 0)%nat then None
  else
    let m := digits_value (i ++ f) in
    let q := ((m # Z.to_pos (10 ^ Z.of_nat (length f))) * pow10 e)%Q in
    Some (Q2Qc (if neg then - q else q)%Q).

(** Rounding to the nearest integer, ties to even. *)
Definition round_half_even (q : Q) : Z :=
  let n := Qnum q in
  let d := Z.pos (Qden q) in
  let f := n / d in
  match 2 * (n mod d) ?= d with
  | Lt => f
  | Gt => f + 1
  | Eq => if Z.even f then f else f + 1
  end.

(** [round(x, 5)], in units of 1e-05 *)
Definition round5 (x : Qc) : Z :=
  round_half_even (this x * inject_Z 100000)%Q.

Definition value5 (k : Z) : Qc := Q2Qc (k # 100000).

(** Trailing zeros dropped. *)
Fixpoint drop_zeros (ds : list Z) : list Z :=
  match ds with
  | [] => []
  | d :: ds' =>
      match drop_zeros ds' with
      | [] => if d =? 0 then [] else [d]
      | r => d :: r
      end
  end.

Definition digits5 (fp : Z) : list Z :=
  [fp / 10000 mod 10; fp / 1000 mod 10; fp / 100 mod 10; fp / 10 mod 10;
   fp mod 10].

Definition frac_digits (fp : Z) : list Z :=
  match drop_zeros (digits5 fp) with
  | [] => [0]
  | ds => ds
  end.

(** [str(x)] for [x = round(_, 5)] *)
Definition str5 (k : Z) : string :=
  let a := Z.abs k in
  let sign := if k <? 0 then "-"%string else EmptyString in
  if a =? 0 then "0.0"%string
  else if a <? 10 then sign +:+ of_digits [a] +:+ "e-05"
  else sign +:+ of_nonneg (a / 100000) +:+ "." +:+
       of_digits (frac_digits (a mod 100000)).

End Float.

(** ** Paths: [os.path.join] and [os.path.dirname] (POSIX) *)

Module Path.

Definition is_sep (c : ascii) : bool := Ascii.eqb c "/".

Fixpoint has_sep (s : string) : bool :=
  match s with
  | EmptyString => false
  | String c s' => is_sep c || has_sep s'
  end.

Fixpoint ends_with_sep (s : string) : bool :=
  match s with
  | EmptyString => false
  | String c EmptyString => is_sep c
  | String _ s' => ends_with_sep s'
  end.

Definition starts_with_sep (s : string) : bool :=
  match s with
  | EmptyString => false
  | String c _ => is_sep c
  end.

(** [os.path.join(a, b)] *)
Definition join (a b : string) : string :=
  if starts_with_sep b then b
  else match a with
       | EmptyString => b
       | _ => if ends_with_sep a then a +:+ b else a +:+ "/" +:+ b
       end.

(** [p[:p.rfind('/') + 1]] *)
Fixpoint head (p : string) : string :=
  match p with
  | EmptyString => EmptyString
  | String c p' => if has_sep p then String c (head p') else EmptyString
  end.

Fixpoint all_sep (s : string) : bool :=
  match s with
  | EmptyString => true
  | String c s' => is_sep c && all_sep s'
  end.

Fixpoint rstrip_sep (s : string) : string :=
  match s with
  | EmptyString => EmptyString
  | String c s' =>
      match rstrip_sep s' with
      | EmptyString => if is_sep c then EmptyString else String c EmptyString
      | r => String c r
      end
  end.

(** [os.path.dirname(p)] *)
Definition dirname (p : string) : string :=
  let h := head p in
  if all_sep h then h else rstrip_sep h.

End Path.

(** ** Structure snapshots and the geometric scaler *)

Record vec3 : Type := Vec3 { vx : Qc; vy : Qc; vz : Qc }.

Record Atom : Type := mkAtom { resname : string; position : vec3 }.

(** A [Universe]: its atoms in order and its box ([dimensions], absent
    after [Merge]). *)
Record Universe : Type := mkUniverse {
  atoms : list Atom;
  dimensions : option (list Qc)
}.

#[global] Instance Qc_eq_decision : EqDecision Qc := Qc_eq_dec.
#[global] Instance vec3_eq_dec : EqDecision vec3.
Proof. solve_decision. Defined.
#[global] Instance Atom_eq_dec : EqDecision Atom.
Proof. solve_decision. Defined.
#[global] Instance Universe_eq_dec : EqDecision Universe.
Proof. solve_decision. Defined.

Definition set_position (p : vec3) (a : Atom) : Atom :=
  {| resname := resname a; position := p |}.

(** An [AtomGroup] is the list of the indices of its atoms in the
    universe it belongs to; the atoms themselves live in the universe, so
    that a write through a group is seen through every other group. *)
Definition group_positions (u : Universe) (ix : list nat) : list vec3 :=
  omap (λ i, position <$> atoms u !! i) ix.

Definition Qc_of_Z (z : Z) : Qc := Q2Qc (inject_Z z).
Definition Qc_of_nat (n : nat) : Qc := Qc_of_Z (Z.of_nat n).

Definition vsum (ps : list vec3) : vec3 :=
  foldr (λ p acc, Vec3 (vx p + vx acc) (vy p + vy acc) (vz p + vz acc))
        (Vec3 0 0 0) ps.

(** [group.atoms.center(None)]: the unweighted mean of the positions; for
    an empty group the (empty) coordinate array comes back, which has no
    row to index. *)
Definition center (u : Universe) (ix : list nat) : option vec3 :=
  match group_positions u ix with
  | [] => None
  | ps =>
      let n := Qc_of_nat (length ps) in
      let s := vsum ps in
      Some (Vec3 (vx s / n) (vy s / n) (vz s / n))
  end.

(** One pass of the loop body of [stretch_relative]. *)
Definition stretch_atom (c : option vec3) (scale_factor : Qc)
    (u : Universe) (i : nat) : result Universe :=
  c ← of_option IndexError c;
  a ← of_option IndexError (atoms u !! i);
  let p := position a in
  let p' := Vec3 (vx c + scale_factor * (vx p - vx c))
                 (vy c + scale_factor * (vy p - vy c))
                 (vz p) in
  Ok {| atoms := <[i := set_position p' a]> (atoms u);
        dimensions := dimensions u |}.

Fixpoint stretch_loop (c : option vec3) (scale_factor : Qc)
    (ix : list nat) (u : Universe) : result Universe :=
  match ix with
  | [] => Ok u
  | i :: ix' =>
      u' ← stretch_atom c scale_factor u i;
      stretch_loop c scale_factor ix' u'
  end.

(** [stretch_relative(to_strech, anchor, scale_factor)]: [u] is the
    universe of the group [to_strech], [anchor_u] the universe of the group
    [anchor] as it is when the call starts (the same [u] when both groups
    belong to one universe).  The result is the universe of [to_strech]
    after the call. *)
Definition stretch_relative (u : Universe) (to_strech : list nat)
    (anchor_u : Universe) (anchor : list nat) (scale_factor : Qc)
    : result Universe :=
  let center := center anchor_u anchor in
  stretch_loop center scale_factor to_strech u.

(** ** Atom selection (the fragment of the selection language in use)

    [bynum k] is the atom at 1-based position [k]; [resname n] the atoms
    of residue name [n]; [not ( s )] the complement of [s]. *)

Module Select.

Inductive selection : Type :=
  | ByNum (k : Z)
  | ResName (n : string)
  | Not (s : selection).

Fixpoint strip_prefix (p s : string) : option string :=
  match p, s with
  | EmptyString, _ => Some s
  | String a p', String b s' =>
      if Ascii.eqb a b then strip_prefix p' s' else None
  | String _ _, EmptyString => None
  end.

Fixpoint strip_suffix (q s : string) : option string :=
  if String.eqb s q then Some EmptyString
  else match s with
       | EmptyString => None
       | String c s' => String c <$> strip_suffix q s'
       end.

Fixpoint parse (fuel : nat) (s : string) : option selection :=
  match fuel with
  | O => None
  | S fuel' =>
      match strip_prefix "bynum " s with
      | Some k => ByNum <$> Str.to_Z k
      | None =>
          match strip_prefix "resname " s with
          | Some n => Some (ResName n)
          | None =>
              inner ← strip_prefix "not ( " s ≫= strip_suffix " )";
              Not <$> parse fuel' inner
          end
      end
  end.

Fixpoint matches (sel : selection) (i : nat) (a : Atom) : bool :=
  match sel with
  | ByNum k => Z.of_nat i + 1 =? k
  | ResName n => String.eqb (resname a) n
  | Not s => negb (matches s i a)
  end.

Fixpoint indices_from (sel : selection) (i : nat) (l : list Atom) : list nat :=
  match l with
  | [] => []
  | a :: l' =>
      if matches sel i a then i :: indices_from sel (S i) l'
      else indices_from sel (S i) l'
  end.

(** [u.select_atoms(s)]: the indices of the selected atoms, in order. *)
Definition select_atoms (u : Universe) (s : string) : result (list nat) :=
  match parse (S (String.length s)) s with
  | None => Raise (SelectionError s)
  | Some sel => Ok (indices_from sel 0 (atoms u))
  end.

End Select.

(** ** The world: files, the scripted engine and the trace *)

Inductive file : Type :=
  | Structure (u : Universe)
  | Index (groups : list string)
  | Restraints (group : string)
  | Text (s : string).

#[global] Instance file_eq_dec : EqDecision file.
Proof. solve_decision. Defined.

(** One run of the external engine (preprocessing, then minimization): from
    the path of the structure to minimize and the files it finds, the text
    of the log it writes and the structure it writes, if it writes one. *)
Definition engine_run : Type :=
  string → gmap string file → string * option Universe.

(** What the trace records: the calls to the engine's tools, the outcome
    of every [minimize], the in-memory perturbations and the writes. *)
Inductive event : Type :=
  | MakeNdx (f o : string) (input : list string)
  | Genrestr (f o : string) (n : option string) (input : list string)
  | Removed (path : string)
  | Minimized (c name : string) (outcome : result (option Z))
  | Perturbed (atom_id : Z)
  | Wrote (path : string)
  | Copied (src dst : string).

#[global] Instance event_eq_dec : EqDecision event.
Proof. solve_decision. Defined.

Record world : Type := mkWorld {
  files : gmap string file;
  engine : list engine_run;
  trace : list event
}.

(** The result of a computation on the world: it returns, it raises, or
    the scripted engine has no run left for a call that needs one. *)
Inductive run (A : Type) : Type :=
  | Returns (a : A)
  | Raises (e : exn)
  | Starved.
Arguments Returns {A} a.
Arguments Raises {A} e.
Arguments Starved {A}.

#[global] Instance run_eq_dec {A} `{EqDecision A} : EqDecision (run A).
Proof. solve_decision. Defined.

Definition M (A : Type) : Type := world → run A * world.

Definition ret {A} (a : A) : M A := λ w, (Returns a, w).
Definition raise {A} (e : exn) : M A := λ w, (Raises e, w).

Definition bindM {A B} (m : M A) (k : A → M B) : M B := λ w,
  match m w with
  | (Returns a, w') => k a w'
  | (Raises e, w') => (Raises e, w')
  | (Starved, w') => (Starved, w')
  end.

#[global] Instance M_ret : MRet M := @ret.
#[global] Instance M_bind : MBind M := λ A B k m, bindM m k.

Definition lift {A} (r : result A) : M A :=
  match r with
  | Ok a => ret a
  | Raise e => raise e
  end.

Definition log_event (e : event) : M unit := λ w,
  (Returns (), {| files := files w; engine := engine w;
                  trace := trace w ++ [e] |}).

Definition put_file (path : string) (f : file) : M unit := λ w,
  (Returns (), {| files := <[path := f]> (files w); engine := engine w;
                  trace := trace w |}).

Definition get_file (path : string) : M file := λ w,
  match files w !! path with
  | Some f => (Returns f, w)
  | None => (Raises (FileNotFoundError path), w)
  end.

(** [os.remove(path)] *)
Definition remove (path : string) : M unit := λ w,
  match files w !! path with
  | Some _ =>
      (Returns (), {| files := delete path (files w); engine := engine w;
                      trace := trace w ++ [Removed path] |})
  | None => (Raises (FileNotFoundError path), w)
  end.

(** [mda.Universe(path)] *)
Definition load_universe (path : string) : M Universe :=
  f ← get_file path;
  match f with
  | Structure u => ret u
  | _ => raise (ValueError "not a structure file")
  end.

(** [u.atoms.write(path)] *)
Definition write_universe (u : Universe) (path : string) : M unit :=
  put_file path (Structure u);; log_event (Wrote path).

(** [shutil.copyfile(src, dst)] *)
Definition copyfile (src dst : string) : M unit :=
  if decide (src = dst) then raise SameFileError
  else
    f ← get_file src;
    put_file dst f;; log_event (Copied src dst).

(** The next scripted run of the engine on the current files. *)
Definition next_run (c : string) : M (string * option Universe) := λ w,
  match engine w with
  | [] => (Starved, w)
  | r :: rs =>
      (Returns (r c (files w)),
       {| files := files w; engine := rs; trace := trace w |})
  end.

(** ** Box lines *)

(** [enumerate(l)] *)
Definition enumerate {A} (l : list A) : list (nat * A) :=
  zip (seq 0 (length l)) l.

(** [round(float(x) * scale[n], 5)]: the conversion is evaluated before
    the subscript. *)
Definition scaled_field (scale : list Qc) (nx : nat * string) : result Z :=
  v ← of_option (ValueError "could not convert string to float")
                (Float.of_string nx.2);
  sc ← of_option IndexError (scale !! nx.1);
  Ok (Float.round5 (v * sc)).

(** [stretch_boxsize(boxsize_line, scale_factor)] *)
Definition stretch_boxsize (boxsize_line : string) (scale_factor : Qc)
    : result string :=
  let scale := [scale_factor; scale_factor; 1%Qc] in
  dimenions ← mapR (scaled_field scale) (enumerate (Str.split_ws boxsize_line));
  Ok (String.concat EmptyString
        (map (λ x, Str.rjust 10 (Float.str5 x)) dimenions) +:+ "
").

(** [u.dimensions = box]: the box has six entries. *)
Definition set_dimensions (u : Universe) (box : list Qc) : result Universe :=
  if decide (length box = 6%nat)
  then Ok {| atoms := atoms u; dimensions := Some box |}
  else Raise (ValueError "could not broadcast input array into shape (6,)").

(** [change_boxsize(file_to_process, boxsize_line)] *)
Definition change_boxsize (file_to_process boxsize_line : string) : M unit :=
  dimenions ←
    lift (mapR (λ x,
                  v ← of_option
                        (ValueError "could not convert string to float")
                        (Float.of_string x);
                  Ok (v * Qc_of_Z 10)%Qc)
               (Str.split_ws boxsize_line));
  u ← load_universe file_to_process;
  u' ← lift (set_dimensions u
               (dimenions ++ [Qc_of_Z 90; Qc_of_Z 90; Qc_of_Z 90]));
  write_universe u' file_to_process.

(** [edit_last_line(file_to_process, new_last_line)], on files seen as
    text. *)
Definition edit_last_line (file_to_process new_last_line : string)
    (fs : gmap string string) : result (gmap string string) :=
  match fs !! file_to_process with
  | None => Raise (FileNotFoundError file_to_process)
  | Some content =>
      let data := Str.readlines content in
      match data with
      | [] => Raise IndexError
      | _ =>
          let data := removelast data ++ [new_last_line] in
          Ok (<[file_to_process := Str.writelines data]> fs)
      end
  end.

(** ** The minimization driver *)

Definition overlap_marker : string := "inf on atom ".
Definition error_marker : string := "ERROR".
Definition fatal_message : string :=
  "something went wrong with the minimizaion, but not atom overlap!".

(** The loop of [minimize] over the lines of the log: [Ok None] is
    [return None], [Ok (Some k)] is [return k]. *)
Fixpoint scan_log (logfile : list string) : result (option Z) :=
  match logfile with
  | [] => Ok None
  | line :: rest =>
      if Str.contains overlap_marker line then
        match Str.to_Z (List.last (Str.split overlap_marker line) EmptyString) with
        | Some k => Ok (Some k)
        | None => Raise (ValueError "invalid literal for int() with base 10")
        end
      else if Str.contains error_marker line then
        Raise (ValueError fatal_message)
      else scan_log rest
  end.

(** The spec's names for the three outcomes. *)
Definition Success : result (option Z) := Ok None.
Definition AtomOverlap (atom_id : Z) : result (option Z) := Ok (Some atom_id).
Definition FatalError : result (option Z) := Raise (ValueError fatal_message).

(** A line with neither marker. *)
Definition quiet (line : string) : Prop :=
  Str.contains overlap_marker line = false ∧
  Str.contains error_marker line = false.

(** [minimize(file_to_process, folder_path, name, ...)]: the engine
    preprocesses and runs, leaving the run input, the log and possibly the
    minimized structure under [folder_path]; the log is then read back and
    scanned. *)
Definition minimize (file_to_process folder_path name : string)
    : M (option Z) :=
  out ← next_run file_to_process;
  put_file (Path.join folder_path (name +:+ ".tpr")) (Text EmptyString);;
  put_file (Path.join folder_path name +:+ ".log") (Text out.1);;
  match out.2 with
  | Some u => put_file (Path.join folder_path name +:+ ".gro") (Structure u)
  | None => ret ()
  end;;
  f ← get_file (Path.join folder_path (name +:+ ".log"));
  logfile ← match f with
            | Text s => ret (Str.readlines s)
            | _ => raise (ValueError "not a text file")
            end;
  let r := scan_log logfile in
  log_event (Minimized file_to_process name r);;
  lift r.

(** ** The embedding controller *)

Definition all_atoms (u : Universe) : list nat := seq 0 (length (atoms u)).

(** [mda.Merge(a.atoms, b.atoms)]: refuses an empty group; the merged
    universe has no box. *)
Definition Merge (a b : Universe) : result Universe :=
  match atoms a, atoms b with
  | [], _ | _, [] => Raise (ValueError "cannot merge empty AtomGroup")
  | _, _ => Ok {| atoms := atoms a ++ atoms b; dimensions := None |}
  end.

(** [sel[0].position = sel[0].position + np.array([1, 0, 0])] *)
Definition nudge (u : Universe) (sel : list nat) : result Universe :=
  i ← of_option IndexError (sel !! 0%nat);
  a ← of_option IndexError (atoms u !! i);
  let p := position a in
  Ok {| atoms := <[i := set_position (Vec3 (vx p + 1) (vy p + 0) (vz p + 0)) a]>
                   (atoms u);
        dimensions := dimensions u |}.

Definition raw_name (n : Z) : string := "embed_raw" +:+ Str.of_Z n +:+ ".gro".
Definition step_name (n : Z) : string := "embed_" +:+ Str.of_Z n.

(** The retry loop of step [n].  Every iteration asks the engine for one
    run, so the number of scripted runs left bounds the iterations: [fuel]
    is taken one above it. *)
Fixpoint minimize_loop (fuel : nat) (folder_path : string) (n : Z)
    (boxsize : string) (combined_universe : Universe) : M unit :=
  match fuel with
  | O => λ w, (Starved, w)
  | S fuel' =>
      copyfile (Path.join folder_path "template.top")
               (Path.join folder_path "topol.top");;
      return_code ← minimize (Path.join folder_path (raw_name n))
                             folder_path (step_name n);
      match return_code with
      | None => ret ()
      | Some k =>
          sel ← lift (Select.select_atoms combined_universe
                        ("bynum " +:+ Str.of_Z k));
          combined_universe ← lift (nudge combined_universe sel);
          log_event (Perturbed k);;
          write_universe combined_universe (folder_path +:+ raw_name n);;
          change_boxsize (Path.join folder_path (raw_name n)) boxsize;;
          minimize_loop fuel' folder_path n boxsize combined_universe
      end
  end.

Definition minimize_until_success (folder_path : string) (n : Z)
    (boxsize : string) (combined_universe : Universe) : M unit := λ w,
  minimize_loop (S (length (engine w))) folder_path n boxsize
                combined_universe w.

(** The body of [for n in range(1, steps + 1)], over the list of the
    values of [n]; the running box line is threaded through. *)
Fixpoint compress (ns : list Z) (folder_path lipid_selection : string)
    (stepwise_compression : Qc) (boxsize : string) : M unit :=
  match ns with
  | [] => ret ()
  | n :: ns' =>
      combined_universe ←
        load_universe (Path.join folder_path (step_name (n - 1) +:+ ".gro"));
      protein ← lift (Select.select_atoms combined_universe
                        ("not ( " +:+ lipid_selection +:+ " )"));
      lipid ← lift (Select.select_atoms combined_universe lipid_selection);
      combined_universe ←
        lift (stretch_relative combined_universe lipid
                               combined_universe protein stepwise_compression);
      boxsize ← lift (stretch_boxsize boxsize stepwise_compression);
      write_universe combined_universe (Path.join folder_path (raw_name n));;
      change_boxsize (Path.join folder_path (raw_name n)) boxsize;;
      minimize_until_success folder_path n boxsize combined_universe;;
      compress ns' folder_path lipid_selection stepwise_compression boxsize
  end.

Section Controller.

(** [np.power], which the exact rationals cannot define in general. *)
Variable np_power : Qc → Qc → Qc.

(** [np.power(end_scale / starting_scale, 1 / steps)] *)
Definition stepwise_ratio (starting_scale end_scale : Qc) (steps : Z)
    : result Qc :=
  if decide (starting_scale = 0%Qc) then Raise ZeroDivisionError
  else if decide (steps = 0) then Raise ZeroDivisionError
  else Ok (np_power (end_scale / starting_scale) (1 / Qc_of_Z steps)).

(** The body of [embed_in_lipids] up to, and without, its last statement:
    the initial embed and the compression steps with their
    minimizations. *)
Definition embed_steps (protein_path lipid_path folder_path
    lipid_selection boxsize_line : string)
    (starting_scale end_scale : Qc) (steps : Z) : M unit :=
  let boxsize := boxsize_line in
  protein_universe ← load_universe protein_path;
  lipid_universe ← load_universe lipid_path;
  lipid_universe ←
    lift (stretch_relative lipid_universe (all_atoms lipid_universe)
            protein_universe (all_atoms protein_universe) starting_scale);
  boxsize ← lift (stretch_boxsize boxsize starting_scale);
  combined_universe ← lift (Merge protein_universe lipid_universe);
  write_universe combined_universe (Path.join folder_path "embed_0.gro");;
  change_boxsize (Path.join folder_path "embed_0.gro") boxsize;;
  stepwise_compression ← lift (stepwise_ratio starting_scale end_scale steps);
  compress (seqZ 1 steps) folder_path lipid_selection stepwise_compression
           boxsize.

(** [embed_in_lipids(protein_path, lipid_path, folder_path,
    lipid_selection, boxsize_line, starting_scale, end_scale, steps)]: the
    steps, then "Cleanup and move final file". *)
Definition embed_in_lipids (protein_path lipid_path folder_path
    lipid_selection boxsize_line : string)
    (starting_scale end_scale : Qc) (steps : Z) : M unit :=
  embed_steps protein_path lipid_path folder_path lipid_selection
              boxsize_line starting_scale end_scale steps;;
  copyfile (Path.join folder_path (step_name steps +:+ ".gro")) protein_path.

End Controller.

(** ** Index groups and position restraints *)

Section Index.

(** The groups the engine generates by itself for a structure. *)
Variable default_groups : Universe → list string.

(** The groups a selection script adds: one for each command given before
    [q], named after the command. *)
Fixpoint script_groups (input : list string) : list string :=
  match input with
  | [] => []
  | c :: input' =>
      if String.eqb c "q" then []
      else if String.eqb c EmptyString then script_groups input'
      else c :: script_groups input'
  end.

(** [gromacs.make_ndx(f=f, o=o, input=input)] *)
Definition make_ndx (f o : string) (input : list string) : M unit :=
  log_event (MakeNdx f o input);;
  u ← load_universe f;
  put_file o (Index (default_groups u ++ script_groups input)).

(** [gromacs.cbook.get_ndx_groups(path)], reduced to the names *)
Definition get_ndx_groups (path : string) : M (list string) :=
  f ← get_file path;
  match f with
  | Index groups => ret groups
  | _ => raise (ValueError "not an index file")
  end.

(** [gromacs.genrestr(f=f, o=o, n=n, input=input)]: restraints for the
    group whose handle is the first input line; nothing is written for a
    handle the index does not have. *)
Definition genrestr (f o : string) (n : option string) (input : list string)
    : M unit :=
  log_event (Genrestr f o n input);;
  groups ← match n with
           | Some ndx => get_ndx_groups ndx
           | None => u ← load_universe f; ret (default_groups u)
           end;
  match input !! 0%nat ≫= Str.to_Z with
  | Some h =>
      match (if 0 <=? h then groups !! Z.to_nat h else None) with
      | Some g => put_file o (Restraints g)
      | None => ret ()
      end
  | None => ret ()
  end.

(** [parse_indexkey_to_list(file_to_process)] *)
Definition parse_indexkey_to_list (file_to_process : string)
    : M (list string) :=
  make_ndx file_to_process
           (Path.join (Path.dirname file_to_process) "temp.ndx")
           [EmptyString; "q"%string];;
  raw_output ← get_ndx_groups
                 (Path.join (Path.dirname file_to_process) "temp.ndx");
  let output_list := raw_output in
  remove (Path.join (Path.dirname file_to_process) "temp.ndx");;
  ret output_list.

(** [l.index(x)] *)
Fixpoint list_index (x : string) (l : list string) : option nat :=
  match l with
  | [] => None
  | y :: l' => if String.eqb y x then Some 0%nat else S <$> list_index x l'
  end.

(** [generate_posre(file_to_process, folder_path, group, exclude_res)] *)
Definition generate_posre (file_to_process folder_path group : string)
    (exclude_res : list Z) : M unit :=
  current_index_list ← parse_indexkey_to_list file_to_process;
  group_index ← lift (of_option (ValueError "is not in list")
                        (list_index group current_index_list));
  if (0 <? length exclude_res)%nat then
    let exclude_string :=
      Str.join " | " (map (λ res, "r " +:+ Str.of_Z res) exclude_res) in
    make_ndx file_to_process (Path.join folder_path "temp.ndx")
      [exclude_string;
       "!" +:+ Str.of_Z (Z.of_nat (length current_index_list)) +:+ " & " +:+
         Str.of_Z (Z.of_nat group_index);
       "q"%string];;
    genrestr file_to_process (Path.join folder_path "posre.itp")
             (Some (Path.join folder_path "temp.ndx"))
             [Str.of_Z (Z.of_nat (length current_index_list) + 1)];;
    remove (Path.join folder_path "temp.ndx")
  else
    genrestr file_to_process (Path.join folder_path "posre.itp") None
             [Str.of_Z (Z.of_nat group_index)].

End Index.

(** ** The compression schedule over the reals *)

Module Schedule.

Local Open Scope R_scope.

(** [np.power(x, y)] for a positive base; for any other base numpy yields
    zero, an infinity or a NaN, none of which is a real number. *)
Definition np_power (x y : R) : option R :=
  if Rlt_dec 0 x then Some (Rpower x y) else None.

(** [stepwise_compression = np.power(end_scale / starting_scale,
    1 / steps)]; a division by zero raises. *)
Definition stepwise_compression (starting_scale end_scale : R) (steps : Z)
    : option R :=
  if Req_dec_T starting_scale 0 then None
  else if Z.eq_dec steps 0%Z then None
  else np_power (end_scale / starting_scale) (1 / IZR steps).


End Schedule.

(** * Properties *)

(** ** Lines of a text file *)

Module StrFacts.

Import Str.

Lemma append_nil_r (s : string) : s +:+ EmptyString = s.
Proof. induction s as [|c s IH]; simpl; congruence. Qed.

Lemma append_assoc (a b c : string) : (a +:+ b) +:+ c = a +:+ (b +:+ c).
Proof. induction a as [|x a IH]; simpl; congruence. Qed.

Lemma length_append (a b : string) :
  String.length (a +:+ b) = (String.length a + String.length b)%nat.
Proof. induction a as [|x a IH]; simpl; congruence. Qed.

Lemma writelines_cons (l : string) (ls : list string) :
  writelines (l :: ls) = l +:+ writelines ls.
Proof.
  unfold writelines. destruct ls as [|l' ls]; simpl.
  - by rewrite append_nil_r.
  - done.
Qed.

Lemma writelines_app (ls : list string) (l : string) :
  writelines (ls ++ [l]) = writelines ls +:+ l.
Proof.
  induction ls as [|x ls IH].
  - simpl. done.
  - rewrite <- app_comm_cons, !writelines_cons, IH. by rewrite append_assoc.
Qed.

(** The lines of a non-empty text are some complete lines followed by a
    last one; the text is their concatenation, and the complete lines stay
    lines whatever text replaces the last one. *)
Lemma lines_snoc (s : string) :
  s ≠ EmptyString →
  ∃ pre last,
    lines s = pre ++ [last] ∧
    s = writelines pre +:+ last ∧
    ∀ t, lines (writelines pre +:+ t) = pre ++ lines t.
Proof.
  induction s as [|c s IH]; [done | intros _].
  destruct s as [|c' s'].
  - exists [], (String c EmptyString). simpl.
    destruct (Ascii.eqb c "010"); done.
  - destruct IH as (pre & last & Hr & Hs & Ht); [done |].
    set (s := String c' s') in *.
    change (lines (String c s)) with
      (if Ascii.eqb c "010" then String c EmptyString :: lines s
       else match lines s with
            | l :: ls => String c l :: ls
            | [] => [String c EmptyString]
            end).
    destruct (Ascii.eqb c "010") eqn:Hc.
    + exists (String c EmptyString :: pre), last.
      rewrite Hr, writelines_cons. simpl. split_and!; [done | by rewrite <- Hs |].
      intros t. rewrite Hc. by rewrite Ht.
    + destruct pre as [|l ls].
      * exists [], (String c last). simpl in *. rewrite Hr.
        split_and!; [done | by rewrite Hs | done].
      * exists (String c l :: ls), last.
        rewrite Hr. rewrite !writelines_cons in *. simpl.
        split_and!; [done | by rewrite Hs |].
        intros t. rewrite Hc.
        specialize (Ht t). simpl in Ht. by rewrite Ht.
Qed.

(** *** Universal newlines *)

Lemma universal_newlines_no_cr (s : string) :
  no_cr (universal_newlines s) = true.
Proof.
  assert (∀ n s, (String.length s < n)%nat →
                 no_cr (universal_newlines s) = true) as H.
  { clear s. induction n as [|n IH]; intros s Hn; [lia |].
    destruct s as [|c s]; [done |]. cbn [universal_newlines].
    destruct (Ascii.eqb c "013") eqn:Ec.
    - unfold no_cr. cbn [all_chars]. change (negb (Ascii.eqb "010" "013")) with true.
      cbn [andb]. destruct s as [|c' s]; [done |].
      destruct (Ascii.eqb c' "010"); apply IH; simpl in *; lia.
    - unfold no_cr. cbn [all_chars]. rewrite Ec. cbn [negb andb].
      apply IH. simpl in Hn. lia. }
  apply (H (S (String.length s))). lia.
Qed.

Lemma universal_newlines_id (s : string) :
  no_cr s = true → universal_newlines s = s.
Proof.
  induction s as [|c s IH]; [done |]. unfold no_cr. cbn [all_chars].
  intros [Hc Hs]%andb_true_iff. apply negb_true_iff in Hc.
  cbn [universal_newlines]. rewrite Hc. by rewrite (IH Hs).
Qed.

Lemma universal_newlines_app (a t : string) :
  no_cr a = true →
  universal_newlines (a +:+ t) = a +:+ universal_newlines t.
Proof.
  induction a as [|c a IH]; [done |]. unfold no_cr. cbn [all_chars].
  intros [Hc Ha]%andb_true_iff. apply negb_true_iff in Hc.
  change (String c a +:+ t) with (String c (a +:+ t)).
  cbn [universal_newlines]. rewrite Hc. by rewrite (IH Ha).
Qed.

Lemma no_cr_app_l (a b : string) : no_cr (a +:+ b) = true → no_cr a = true.
Proof.
  unfold no_cr. induction a as [|c a IH]; [done |].
  change (String c a +:+ b) with (String c (a +:+ b)). cbn [all_chars].
  intros [Hc Ha]%andb_true_iff. rewrite Hc. by apply IH.
Qed.

Lemma universal_newlines_nil (s : string) :
  universal_newlines s = EmptyString ↔ s = EmptyString.
Proof.
  split; [| by intros ->]. destruct s as [|c s]; [done |].
  cbn [universal_newlines]. by destruct (Ascii.eqb c "013").
Qed.

(** What [readlines] gives for the bytes of a non-empty file: the text
    read is the bytes after newline translation; it is some complete lines
    followed by a last one, and the complete lines stay lines whatever
    text replaces the last one. *)
Lemma readlines_snoc (s : string) :
  s ≠ EmptyString →
  ∃ pre last,
    readlines s = pre ++ [last] ∧
    universal_newlines s = writelines pre +:+ last ∧
    ∀ t, readlines (writelines pre +:+ t) = pre ++ readlines t.
Proof.
  intros Hs.
  destruct (lines_snoc (universal_newlines s)) as (pre & last & Hr & Hw & Ht).
  { by rewrite universal_newlines_nil. }
  exists pre, last. split_and!; [done | done |].
  intros t. unfold readlines. rewrite universal_newlines_app; [apply Ht |].
  apply (no_cr_app_l _ last). rewrite <- Hw. apply universal_newlines_no_cr.
Qed.

(** *** [split] on a separator whose first character does not recur in it *)

Lemma prefix_app (p r : string) : String.prefix p (p +:+ r) = true.
Proof.
  induction p as [|c p IH]; simpl; [by destruct r |].
  destruct (ascii_dec c c); [done | congruence].
Qed.

Lemma split_go_skip (sep x y : string) :
  split_go sep (String.length x) (x +:+ y) = split_go sep 0 y.
Proof. induction x as [|c x IH]; simpl; done. Qed.

Lemma split_go_nonempty (sep : string) (k : nat) (s : string) :
  split_go sep k s ≠ [].
Proof.
  revert k. induction s as [|c s IH]; intros k; cbn [split_go]; [done |].
  destruct k; [| apply IH].
  destruct (String.prefix sep (String c s)); [done |].
  destruct (split_go sep 0 s); done.
Qed.

Lemma split_no_occurrence (sep s : string) :
  contains sep s = false → split sep s = [s].
Proof.
  unfold split. induction s as [|c s IH]; intros H; [done |].
  cbn [contains] in H. apply orb_false_elim in H as [Hp Hc].
  cbn [split_go]. rewrite Hp, (IH Hc). done.
Qed.

Lemma prefix_hits_char (x a r : string) (c : ascii) :
  String.prefix x (a +:+ String c r) = true →
  (String.length a < String.length x)%nat →
  char_in c x = true.
Proof.
  revert x. induction a as [|d a IH]; intros x Hp Hl.
  - destruct x as [|y x]; simpl in *; [lia |].
    destruct (ascii_dec y c) as [->|]; [| done].
    by rewrite Ascii.eqb_refl.
  - destruct x as [|y x]; simpl in *; [lia |].
    destruct (ascii_dec y d); [| done].
    rewrite (IH x); [apply orb_true_r | done | lia].
Qed.

Lemma string_take (k : nat) (a : string) :
  (k ≤ String.length a)%nat →
  ∃ a1 a2, a = a1 +:+ a2 ∧ String.length a1 = k.
Proof.
  revert a. induction k as [|k IH]; intros a Hk.
  - by exists EmptyString, a.
  - destruct a as [|c a]; simpl in Hk; [lia |].
    destruct (IH a) as (a1 & a2 & -> & Hl); [lia |].
    exists (String c a1), a2. simpl. by rewrite Hl.
Qed.

(** The text after the last occurrence of the separator is the last
    piece. *)
Lemma split_last (c0 : ascii) (sep' a rest : string) :
  char_in c0 sep' = false →
  contains (String c0 sep') rest = false →
  ∃ front, front ≠ [] ∧
    split (String c0 sep') (a +:+ String c0 sep' +:+ rest) = front ++ [rest].
Proof.
  intros Hc0 Hrest. unfold split.
  remember (String.length a) as n eqn:Hn.
  revert a Hn. induction (lt_wf n) as [n _ IH]. intros a Hn.
  set (sep := String c0 sep') in *.
  assert (Hskip : ∀ y, split_go sep (String.length sep - 1) (sep' +:+ y)
                       = split_go sep 0 y).
  { intros y. replace (String.length sep - 1)%nat with (String.length sep')
      by (simpl; lia).
    apply split_go_skip. }
  destruct a as [|x a].
  - exists [EmptyString]. split; [done |].
    change (EmptyString +:+ sep +:+ rest) with (String c0 (sep' +:+ rest)).
    cbn [split_go].
    change (String c0 (sep' +:+ rest)) with (sep +:+ rest).
    rewrite prefix_app, Hskip.
    by rewrite (split_no_occurrence sep rest Hrest : split_go sep 0 rest = _).
  - change (String x a +:+ sep +:+ rest) with (String x (a +:+ sep +:+ rest)).
    cbn [split_go].
    destruct (String.prefix sep (String x (a +:+ sep +:+ rest))) eqn:Hp.
    + assert (Hlen : (String.length sep' ≤ String.length a)%nat).
      { destruct (decide (String.length sep' ≤ String.length a)%nat);
          [done | exfalso].
        unfold sep in Hp. simpl in Hp.
        destruct (ascii_dec c0 x); [| done].
        apply prefix_hits_char in Hp; [congruence | lia]. }
      destruct (string_take _ _ Hlen) as (a1 & a2 & -> & Hl).
      rewrite append_assoc.
      replace (String.length sep - 1)%nat with (String.length a1)
        by (simpl; lia).
      rewrite split_go_skip.
      destruct (IH (String.length a2)) with (a := a2)
        as (front & Hf & ->); [| done |].
      { subst n. simpl. rewrite length_append. lia. }
      exists (EmptyString :: front). done.
    + destruct (IH (String.length a)) with (a := a)
        as (front & Hf & ->); [subst n; simpl; lia | done |].
      destruct front as [|p ps]; [done |].
      exists (String x p :: ps). done.
Qed.

Lemma last_snoc {A} (l : list A) (x d : A) : List.last (l ++ [x]) d = x.
Proof. apply List.last_last. Qed.

End StrFacts.

(** C9, as stated, fails for a file with CR LF line ends: the file is
    read through the universal newlines of the text layer and written back
    with line feeds, so every preceding line loses its carriage return. *)
Lemma edit_last_line_rewrites_line_endings :
  let crlf := String "013" (String "010" EmptyString) in
  let fs : gmap string string :=
    {[ "f.gro"%string := "a" +:+ crlf +:+ "b" +:+ crlf +:+ "c" ]} in
  edit_last_line "f.gro" "z
" fs = Ok {[ "f.gro"%string := "a
b
z
"%string ]} ∧
  String.prefix ("a" +:+ crlf) "a
b
z
" = false.
Proof. intros crlf fs. split; reflexivity. Qed.

(** C9, amended.  For a file with at least one line, [edit_last_line]
    succeeds and writes back the preceding lines as they were read, in
    their order, followed by the new last line: the text read (the bytes
    after newline translation) is those lines followed by the old last
    line, the new bytes are the same lines followed by the new one, and
    read again they are still the first lines of the file.  For a file
    without carriage return the text read is the bytes, so the preceding
    lines are kept byte for byte.  No other file changes. *)
Theorem edit_last_line_keeps_preceding_lines
    (file_to_process new_last_line content : string)
    (fs : gmap string string) :
  fs !! file_to_process = Some content →
  content ≠ EmptyString →
  ∃ pre last fs',
    Str.readlines content = pre ++ [last] ∧
    Str.universal_newlines content = Str.writelines pre +:+ last ∧
    (Str.no_cr content = true → content = Str.writelines pre +:+ last) ∧
    edit_last_line file_to_process new_last_line fs = Ok fs' ∧
    fs' !! file_to_process = Some (Str.writelines pre +:+ new_last_line) ∧
    Str.readlines (Str.writelines pre +:+ new_last_line)
      = pre ++ Str.readlines new_last_line ∧
    ∀ other, other ≠ file_to_process → fs' !! other = fs !! other.
Proof.
  intros Hfile Hne.
  destruct (StrFacts.readlines_snoc content Hne) as (pre & last & Hr & Hs & Ht).
  exists pre, last,
    (<[file_to_process := Str.writelines pre +:+ new_last_line]> fs).
  split_and!; try done.
  - intros Hcr. by rewrite <- Hs, StrFacts.universal_newlines_id.
  - unfold edit_last_line. rewrite Hfile, Hr.
    destruct (pre ++ [last]) eqn:E; [by destruct pre |].
    rewrite <- E, removelast_last, StrFacts.writelines_app. done.
  - by rewrite lookup_insert_eq.
  - intros other Ho. by rewrite lookup_insert_ne.
Qed.

Lemma edit_last_line_keeps_preceding_lines_witness :
  ∃ pre last fs',
    Str.readlines "a
b
c" = pre ++ [last] ∧
    "a
b
c"%string = Str.writelines pre +:+ last ∧
    edit_last_line "f.gro" "z
" {[ "f.gro"%string := "a
b
c"%string ]} = Ok fs' ∧
    fs' !! "f.gro"%string = Some (Str.writelines pre +:+ "z
") ∧
    Str.readlines (Str.writelines pre +:+ "z
") = pre ++ Str.readlines "z
" ∧
    ∀ other, other ≠ "f.gro"%string →
      fs' !! other = ({[ "f.gro"%string := "a
b
c"%string ]} : gmap string string) !! other.
Proof.
  destruct (edit_last_line_keeps_preceding_lines "f.gro" "z
" "a
b
c" {[ "f.gro"%string := "a
b
c"%string ]}) as (pre & last & fs' & H1 & _ & H3 & H4 & H5 & H6 & H7);
    [reflexivity | discriminate |].
  exists pre, last, fs'.
  split_and!; [exact H1 | apply H3; reflexivity | exact H4 | exact H5
              | exact H6 | exact H7].
Defined.

(** ** The minimization driver *)

Module PathFacts.

Import StrFacts.

Lemma join_suffix (a b c : string) :
  Path.starts_with_sep c = false →
  Path.join a (b +:+ c) = Path.join a b +:+ c.
Proof.
  intros Hc. unfold Path.join.
  destruct b as [|x b].
  - simpl. rewrite Hc. destruct a as [|y a]; [done |].
    destruct (Path.ends_with_sep (String y a));
      by rewrite ?append_assoc, ?append_nil_r.
  - change (String x b +:+ c) with (String x (b +:+ c)).
    cbn [Path.starts_with_sep].
    destruct (Path.is_sep x); [done |].
    destruct a as [|y a]; [done |].
    destruct (Path.ends_with_sep (String y a)); by rewrite !append_assoc.
Qed.

Lemma append_inj_l (a b c : string) : a +:+ b = a +:+ c → b = c.
Proof. induction a as [|x a IH]; simpl; [done |]. intros [=]. auto. Qed.

End PathFacts.

Definition to_run {A} (r : result A) : run A :=
  match r with
  | Ok a => Returns a
  | Raise e => Raises e
  end.

(** What one call of [minimize] does when the engine has a run left. *)
Lemma minimize_eq (c folder_path name : string) (w : world)
    (r : engine_run) (rs : list engine_run) :
  engine w = r :: rs →
  minimize c folder_path name w =
    let out := r c (files w) in
    let fs1 :=
      <[Path.join folder_path name +:+ ".log" := Text out.1]>
        (<[Path.join folder_path (name +:+ ".tpr") := Text EmptyString]>
           (files w)) in
    let fs2 :=
      match out.2 with
      | Some u => <[Path.join folder_path name +:+ ".gro" := Structure u]> fs1
      | None => fs1
      end in
    let res := scan_log (Str.readlines out.1) in
    (to_run res,
     {| files := fs2; engine := rs;
        trace := trace w ++ [Minimized c name res] |}).
Proof.
  intros He. unfold minimize, mbind, M_bind, bindM, next_run. rewrite He.
  cbn [put_file files engine trace].
  rewrite (PathFacts.join_suffix folder_path name ".log") by done.
  set (log := Path.join folder_path name +:+ ".log").
  set (fs1 := <[log := _]> _).
  destruct (r c (files w)).2 as [u|]; cbn [put_file ret files engine trace].
  - unfold get_file. cbn [files].
    rewrite lookup_insert_ne.
    2:{ intros H%PathFacts.append_inj_l. discriminate. }
    unfold fs1. rewrite lookup_insert_eq.
    cbn. unfold log_event, lift. cbn.
    by destruct (scan_log _).
  - unfold get_file. cbn [files]. unfold fs1. rewrite lookup_insert_eq.
    cbn. unfold log_event, lift. cbn.
    by destruct (scan_log _).
Qed.

Lemma scan_log_quiet (pre rest : list string) :
  Forall quiet pre → scan_log (pre ++ rest) = scan_log rest.
Proof.
  induction 1 as [|l pre [Ho He] _ IH]; [done |].
  rewrite <- app_comm_cons. cbn [scan_log]. by rewrite Ho, He.
Qed.

Lemma contains_app (sub a b : string) :
  Str.contains sub (a +:+ sub +:+ b) = true.
Proof.
  induction a as [|x a IH].
  - simpl. destruct (sub +:+ b) eqn:E.
    + destruct sub; [done | discriminate].
    + cbn [Str.contains]. rewrite <- E, StrFacts.prefix_app. done.
  - change (String x a +:+ sub +:+ b) with (String x (a +:+ sub +:+ b)).
    cbn [Str.contains]. rewrite IH. apply orb_true_r.
Qed.

(** C3.  [minimize] decides at the first line of the log, in file order,
    that carries a marker.  If that line continues, after the (last)
    overlap marker, with an integer, the result is the overlap with that
    integer, whether or not the line also says ERROR; if it carries ERROR
    and no overlap marker, the fatal error is raised; a log with neither
    marker gives success. *)
Theorem minimize_decides_at_first_match (c folder_path name : string)
    (w : world) (r : engine_run) (rs : list engine_run) :
  engine w = r :: rs →
  let logfile := Str.readlines (r c (files w)).1 in
  (∀ pre line post a rest k,
      logfile = pre ++ line :: post → Forall quiet pre →
      line = a +:+ overlap_marker +:+ rest →
      Str.contains overlap_marker rest = false →
      Str.to_Z rest = Some k →
      scan_log logfile = AtomOverlap k ∧
      (minimize c folder_path name w).1 = Returns (Some k)) ∧
  (∀ pre line post,
      logfile = pre ++ line :: post → Forall quiet pre →
      Str.contains overlap_marker line = false →
      Str.contains error_marker line = true →
      scan_log logfile = FatalError ∧
      (minimize c folder_path name w).1 = Raises (ValueError fatal_message)) ∧
  (Forall quiet logfile →
      scan_log logfile = Success ∧
      (minimize c folder_path name w).1 = Returns None).
Proof.
  intros He logfile. rewrite (minimize_eq _ _ _ _ _ _ He). cbn [fst].
  fold logfile. split_and!.
  - intros pre line post a rest k -> Hpre -> Hrest Hk.
    rewrite scan_log_quiet by done. cbn [scan_log].
    rewrite contains_app.
    destruct (StrFacts.split_last "i" "nf on atom " a rest eq_refl Hrest)
      as (front & _ & Hs).
    change (String "i" "nf on atom ") with overlap_marker in Hs.
    rewrite Hs, StrFacts.last_snoc, Hk. done.
  - intros pre line post -> Hpre Ho Herr.
    rewrite scan_log_quiet by done. cbn [scan_log]. by rewrite Ho, Herr.
  - intros Hq. rewrite <- (app_nil_r logfile), scan_log_quiet by done. done.
Qed.

Lemma minimize_decides_at_first_match_witness :
  let log := "Steepest Descents:
Fatal error: inf on atom 42
ERROR: blah
"%string in
  let w := {| files := ∅; engine := [λ _ _, (log, None)]; trace := [] |} in
  scan_log (Str.readlines log) = AtomOverlap 42 ∧
  (minimize "conf.gro" "work" "em" w).1 = Returns (Some 42).
Proof.
  intros log w.
  destruct (minimize_decides_at_first_match "conf.gro" "work" "em" w
              (λ _ _, (log, None)) [] eq_refl) as [H _].
  apply (H ["Steepest Descents:
"%string] "Fatal error: inf on atom 42
"%string ["ERROR: blah
"%string] "Fatal error: "%string "42
"%string 42); try reflexivity.
  repeat constructor.
Defined.

(** ** Printing and reading decimal numbers *)

Module FloatFacts.

Import Str Float StrFacts.

#[local] Arguments digit_char : simpl never.
#[local] Arguments is_digit : simpl never.
#[local] Arguments digit_val : simpl never.

Definition is_dec_digit (d : Z) : Prop := 0 ≤ d ≤ 9.

Lemma dec_digit_cases (d : Z) :
  is_dec_digit d →
  d = 0 ∨ d = 1 ∨ d = 2 ∨ d = 3 ∨ d = 4 ∨ d = 5 ∨ d = 6 ∨ d = 7 ∨ d = 8 ∨ d = 9.
Proof. unfold is_dec_digit. lia. Qed.

Lemma digit_char_is_digit (d : Z) :
  is_dec_digit d → is_digit (digit_char d) = true.
Proof. intros H%dec_digit_cases. destruct_or!; subst; reflexivity. Qed.

Lemma digit_val_char (d : Z) :
  is_dec_digit d → digit_val (digit_char d) = d.
Proof. intros H%dec_digit_cases. destruct_or!; subst; reflexivity. Qed.

(** A character that is a digit is neither white space nor a sign, a dot
    or an exponent mark. *)
Definition plain (c : ascii) : bool :=
  negb (is_space c) && negb (is_e c) && negb (is_dot c) &&
  negb (Ascii.eqb c "-") && negb (Ascii.eqb c "+").

Lemma digit_plain (c : ascii) : is_digit c = true → plain c = true.
Proof.
  destruct c as [[] [] [] [] [] [] [] []]; intros H;
    first [discriminate H | reflexivity].
Qed.

Lemma all_chars_app (p : ascii → bool) (a b : string) :
  all_chars p (a +:+ b) = all_chars p a && all_chars p b.
Proof.
  induction a as [|c a IH]; simpl; [done |].
  by rewrite IH, andb_assoc.
Qed.

Lemma all_chars_impl (p q : ascii → bool) (s : string) :
  (∀ c, p c = true → q c = true) →
  all_chars p s = true → all_chars q s = true.
Proof.
  intros Hpq. induction s as [|c s IH]; simpl; [done |].
  intros [Hc Hs]%andb_true_iff. by rewrite (Hpq c Hc), IH.
Qed.

Definition no_space (s : string) : bool :=
  all_chars (λ c, negb (is_space c)) s.

Lemma lstrip_no_space (s : string) : no_space s = true → lstrip s = s.
Proof.
  destruct s as [|c s]; simpl; [done |].
  intros [Hc _]%andb_true_iff. by destruct (is_space c).
Qed.

Lemma rstrip_no_space (s : string) : no_space s = true → rstrip s = s.
Proof.
  induction s as [|c s IH]; simpl; [done |].
  intros [Hc Hs]%andb_true_iff. rewrite (IH Hs).
  destruct s; [| done]. by destruct (is_space c).
Qed.

Lemma strip_no_space (s : string) : no_space s = true → strip s = s.
Proof.
  intros H. unfold strip. by rewrite lstrip_no_space, rstrip_no_space.
Qed.

Lemma cut_none (p : ascii → bool) (s : string) :
  all_chars (λ c, negb (p c)) s = true → cut p s = (s, None).
Proof.
  induction s as [|c s IH]; simpl; [done |].
  intros [Hc Hs]%andb_true_iff. rewrite (IH Hs).
  by destruct (p c).
Qed.

Lemma cut_app (p : ascii → bool) (a b : string) (c : ascii) :
  all_chars (λ c, negb (p c)) a = true → p c = true →
  cut p (a +:+ String c b) = (a, Some b).
Proof.
  intros Ha Hc. induction a as [|x a IH]; simpl in *.
  - by rewrite Hc.
  - apply andb_true_iff in Ha as [Hx Ha]. rewrite (IH Ha).
    by destruct (p x).
Qed.

Lemma of_digits_app (a b : list Z) :
  of_digits (a ++ b) = of_digits a +:+ of_digits b.
Proof. induction a as [|d a IH]; simpl; [done | by rewrite IH]. Qed.

Lemma of_digits_length (ds : list Z) :
  String.length (of_digits ds) = length ds.
Proof. induction ds as [|d ds IH]; simpl; [done | by rewrite IH]. Qed.

Lemma of_digits_all_digits (ds : list Z) :
  Forall is_dec_digit ds → all_chars is_digit (of_digits ds) = true.
Proof.
  induction 1 as [|d ds Hd _ IH]; cbn [of_digits all_chars]; [done |].
  by rewrite digit_char_is_digit, IH.
Qed.

Lemma plain_digits_of_digits (ds : list Z) :
  Forall is_dec_digit ds → plain_digits (of_digits ds) = Some ds.
Proof.
  induction 1 as [|d ds Hd _ IH]; cbn [of_digits plain_digits]; [done |].
  by rewrite digit_char_is_digit, IH, digit_val_char.
Qed.

Lemma fold_digits_acc (ds : list Z) (acc : Z) :
  fold_left (λ a d, a * 10 + d) ds acc
  = acc * 10 ^ Z.of_nat (length ds) + digits_value ds.
Proof.
  unfold digits_value. revert acc.
  induction ds as [|d ds IH]; intros acc.
  - simpl. lia.
  - cbn [fold_left length]. rewrite IH, (IH (0 * 10 + d)).
    rewrite Nat2Z.inj_succ, Z.pow_succ_r by lia. lia.
Qed.

Lemma digits_value_app (a b : list Z) :
  digits_value (a ++ b)
  = digits_value a * 10 ^ Z.of_nat (length b) + digits_value b.
Proof.
  unfold digits_value at 1. rewrite fold_left_app.
  by rewrite fold_digits_acc.
Qed.

Lemma digits_of_value (fuel : nat) (n : Z) :
  0 ≤ n < 2 ^ Z.of_nat fuel → digits_value (digits_of fuel n) = n.
Proof.
  revert n. induction fuel as [|fuel IH]; intros n Hn.
  - change (2 ^ Z.of_nat 0) with 1 in Hn. by replace n with 0 by lia.
  - cbn [digits_of]. destruct (n <? 10) eqn:E.
    + unfold digits_value. simpl. lia.
    + apply Z.ltb_ge in E.
      rewrite digits_value_app, IH.
      * change (Z.of_nat (length [n mod 10])) with 1.
        change (digits_value [n mod 10]) with (0 * 10 + n mod 10).
        pose proof (Z.div_mod n 10). lia.
      * rewrite Nat2Z.inj_succ, Z.pow_succ_r in Hn by lia.
        split; [apply Z.div_pos; lia |].
        apply Z.div_lt_upper_bound; lia.
Qed.

Lemma digits_of_range (fuel : nat) (n : Z) :
  0 ≤ n → Forall is_dec_digit (digits_of fuel n).
Proof.
  revert n. induction fuel as [|fuel IH]; intros n Hn; [constructor |].
  cbn [digits_of]. destruct (n <? 10) eqn:E.
  - apply Z.ltb_lt in E. constructor; [| constructor].
    unfold is_dec_digit. lia.
  - apply Forall_app. split.
    + apply IH, Z.div_pos; lia.
    + constructor; [| constructor].
      pose proof (Z.mod_pos_bound n 10). unfold is_dec_digit. lia.
Qed.

Lemma digits_of_nonempty (fuel : nat) (n : Z) : digits_of (S fuel) n ≠ [].
Proof.
  cbn [digits_of]. destruct (n <? 10); [done |].
  by destruct (digits_of fuel (n / 10)).
Qed.

Definition nonneg_digits (n : Z) : list Z :=
  digits_of (S (Z.to_nat (Z.log2 n))) n.

Lemma nonneg_digits_value (n : Z) : 0 ≤ n → digits_value (nonneg_digits n) = n.
Proof.
  intros Hn. apply digits_of_value. split; [done |].
  rewrite Nat2Z.inj_succ, Z2Nat.id by apply Z.log2_nonneg.
  destruct (decide (n = 0)) as [->|]; [done |].
  apply Z.log2_spec. lia.
Qed.

Lemma nonneg_digits_range (n : Z) :
  0 ≤ n → Forall is_dec_digit (nonneg_digits n).
Proof. apply digits_of_range. Qed.

Lemma nonneg_digits_nonempty (n : Z) : nonneg_digits n ≠ [].
Proof. apply digits_of_nonempty. Qed.

(** *** The fractional digits *)

Lemma digits_value_cons (d : Z) (l : list Z) :
  digits_value (d :: l) = d * 10 ^ Z.of_nat (length l) + digits_value l.
Proof.
  change (d :: l) with ([d] ++ l). rewrite digits_value_app.
  unfold digits_value at 1. simpl. lia.
Qed.

Lemma drop_zeros_length (l : list Z) : (length (drop_zeros l) ≤ length l)%nat.
Proof.
  induction l as [|d l IH]; cbn [drop_zeros length]; [done |].
  destruct (drop_zeros l) as [|r rs].
  - destruct (d =? 0); simpl; lia.
  - cbn [length] in *. lia.
Qed.

Lemma drop_zeros_value (l : list Z) :
  digits_value (drop_zeros l)
    * 10 ^ Z.of_nat (length l - length (drop_zeros l))
  = digits_value l.
Proof.
  induction l as [|d l IH]; [done |].
  pose proof (drop_zeros_length l) as Hlen.
  cbn [drop_zeros]. rewrite (digits_value_cons d l).
  destruct (drop_zeros l) as [|r rs] eqn:E.
  - change (digits_value []) with 0 in IH.
    destruct (d =? 0) eqn:Hd.
    + apply Z.eqb_eq in Hd. change (digits_value []) with 0. lia.
    + change (length (d :: l) - length [d])%nat with (length l - 0)%nat.
      rewrite Nat.sub_0_r. unfold digits_value at 1. simpl. lia.
  - rewrite (digits_value_cons d (r :: rs)).
    change (length (d :: l) - length (d :: r :: rs))%nat
      with (length l - length (r :: rs))%nat.
    rewrite <- IH, Z.mul_add_distr_r, <- Z.mul_assoc, <- Z.pow_add_r by lia.
    do 3 f_equal. lia.
Qed.

Lemma drop_zeros_range (l : list Z) :
  Forall is_dec_digit l → Forall is_dec_digit (drop_zeros l).
Proof.
  induction 1 as [|d l Hd _ IH]; cbn [drop_zeros]; [constructor |].
  destruct (drop_zeros l).
  - destruct (d =? 0); repeat constructor; apply Hd.
  - by constructor.
Qed.

Lemma digits5_range (fp : Z) : Forall is_dec_digit (digits5 fp).
Proof.
  assert (H : ∀ x, is_dec_digit (x mod 10)).
  { intros x. pose proof (Z.mod_pos_bound x 10). unfold is_dec_digit. lia. }
  unfold digits5. repeat (constructor; [apply H |]). constructor.
Qed.

Lemma digits5_value (fp : Z) :
  0 ≤ fp < 100000 → digits_value (digits5 fp) = fp.
Proof.
  intros H. unfold digits5, digits_value. cbn [fold_left].
  Z.div_mod_to_equations. lia.
Qed.

Lemma frac_digits_spec (fp : Z) :
  0 ≤ fp < 100000 →
  Forall is_dec_digit (frac_digits fp) ∧
  (1 ≤ length (frac_digits fp) ≤ 5)%nat ∧
  digits_value (frac_digits fp)
    * 10 ^ Z.of_nat (5 - length (frac_digits fp)) = fp.
Proof.
  intros H. unfold frac_digits.
  pose proof (drop_zeros_range _ (digits5_range fp)) as Hr.
  pose proof (drop_zeros_length (digits5 fp)) as Hl.
  pose proof (drop_zeros_value (digits5 fp)) as Hv.
  rewrite digits5_value in Hv by done.
  change (length (digits5 fp)) with 5%nat in *.
  destruct (drop_zeros (digits5 fp)) as [|d ds].
  - change (digits_value []) with 0 in Hv.
    split_and!; [repeat constructor; unfold is_dec_digit; lia
                | simpl; lia | simpl; lia |].
    unfold digits_value. simpl. lia.
  - split_and!; [done | simpl; lia | done | done].
Qed.

(** *** Reading back what [str5] prints *)

Lemma digits_no_mark (p : ascii → bool) (ds : list Z) :
  (∀ c, plain c = true → p c = false) →
  Forall is_dec_digit ds →
  all_chars (λ c, negb (p c)) (of_digits ds) = true.
Proof.
  intros Hp Hds.
  apply (all_chars_impl is_digit); [| by apply of_digits_all_digits].
  intros c Hc. by rewrite (Hp c (digit_plain c Hc)).
Qed.

Lemma plain_not_space c : plain c = true → is_space c = false.
Proof. unfold plain. destruct (is_space c); [by rewrite ?andb_false_l | done]. Qed.
Lemma plain_not_e c : plain c = true → is_e c = false.
Proof.
  unfold plain. destruct (is_e c); [| done].
  by rewrite andb_false_r, ?andb_false_l.
Qed.
Lemma plain_not_dot c : plain c = true → is_dot c = false.
Proof.
  unfold plain. destruct (is_dot c); [| done].
  by rewrite andb_false_r, ?andb_false_l.
Qed.

Lemma cut_sign_digits (d : Z) (r : string) :
  is_dec_digit d →
  cut_sign (String (digit_char d) r) = (false, String (digit_char d) r).
Proof.
  intros Hd. unfold cut_sign.
  pose proof (digit_plain _ (digit_char_is_digit d Hd)) as Hp.
  unfold plain in Hp.
  destruct (Ascii.eqb (digit_char d) "-");
    [by rewrite andb_false_r, ?andb_false_l in Hp |].
  destruct (Ascii.eqb (digit_char d) "+"); [by rewrite andb_false_r in Hp |].
  done.
Qed.

(** A sign, integer digits, a dot, fractional digits. *)
Definition positional (neg : bool) (I F : list Z) : string :=
  (if neg then "-" else EmptyString) +:+ of_digits I +:+ "." +:+ of_digits F.

Lemma positional_no_space (neg : bool) (I F : list Z) :
  Forall is_dec_digit I → Forall is_dec_digit F →
  no_space (positional neg I F) = true.
Proof.
  intros HI HF. unfold positional, no_space.
  rewrite !all_chars_app.
  rewrite (digits_no_mark is_space) by (done || apply plain_not_space).
  rewrite (digits_no_mark is_space) by (done || apply plain_not_space).
  by destruct neg.
Qed.

Lemma of_string_positional (neg : bool) (I F : list Z) :
  Forall is_dec_digit I → Forall is_dec_digit F → I ≠ [] →
  of_string (positional neg I F) =
    Some (Q2Qc (let q := ((digits_value (I ++ F)
                            # Z.to_pos (10 ^ Z.of_nat (length F)))
                          * pow10 0)%Q in
                if neg then (- q)%Q else q)).
Proof.
  intros HI HF HI0. unfold of_string.
  rewrite strip_no_space by by apply positional_no_space.
  assert (cut_sign (positional neg I F)
          = (neg, of_digits I +:+ "." +:+ of_digits F)) as ->.
  { unfold positional. destruct neg; [done |].
    destruct I as [|d I]; [done |]. cbn [of_digits String.append].
    apply cut_sign_digits. by inversion HI. }
  cbv beta iota.
  rewrite cut_none.
  2:{ rewrite !all_chars_app.
      rewrite !(digits_no_mark is_e) by (done || apply plain_not_e). done. }
  cbv beta iota.
  change ("." +:+ of_digits F) with (String "." (of_digits F)).
  rewrite (cut_app is_dot (of_digits I) (of_digits F) ".");
    [| by apply digits_no_mark; [apply plain_not_dot |] | done].
  cbv beta iota. cbn [default from_option]. unfold Datatypes.id.
  rewrite !plain_digits_of_digits by done. cbn [mbind option_bind].
  destruct I as [|d I]; [done |]. cbn [length Nat.add Nat.eqb]. done.
Qed.

Lemma pow10_0 : pow10 0 = 1%Q.
Proof. reflexivity. Qed.

Lemma str5_large (k : Z) :
  10 ≤ Z.abs k →
  str5 k = positional (k <? 0) (nonneg_digits (Z.abs k / 100000))
                      (frac_digits (Z.abs k mod 100000)).
Proof.
  intros Hk. unfold str5, positional, of_nonneg.
  destruct (Z.abs k =? 0) eqn:E0; [apply Z.eqb_eq in E0; lia |].
  destruct (Z.abs k <? 10) eqn:E1; [apply Z.ltb_lt in E1; lia |].
  by destruct (k <? 0).
Qed.

Lemma small_cases (k : Z) :
  Z.abs k < 10 →
  k ∈ [0; 1; 2; 3; 4; 5; 6; 7; 8; 9; -1; -2; -3; -4; -5; -6; -7; -8; -9].
Proof.
  intros H. assert (k = 0 ∨ k = 1 ∨ k = 2 ∨ k = 3 ∨ k = 4 ∨ k = 5 ∨ k = 6 ∨
    k = 7 ∨ k = 8 ∨ k = 9 ∨ k = -1 ∨ k = -2 ∨ k = -3 ∨ k = -4 ∨ k = -5 ∨
    k = -6 ∨ k = -7 ∨ k = -8 ∨ k = -9) as Hc by lia.
  destruct_or!; subst; set_solver.
Qed.

(** [float(str(x)) == x] for every [x = round(_, 5)]. *)
Lemma of_string_str5 (k : Z) : of_string (str5 k) = Some (value5 k).
Proof.
  destruct (decide (Z.abs k < 10)) as [Hs|Hl].
  - apply small_cases in Hs.
    assert (Forall (λ k, of_string (str5 k) = Some (value5 k))
              [0; 1; 2; 3; 4; 5; 6; 7; 8; 9;
               -1; -2; -3; -4; -5; -6; -7; -8; -9]) as Hall.
    { repeat (constructor; [compute_done |]). constructor. }
    by apply (proj1 (Forall_forall _ _) Hall).
  - rewrite str5_large by lia.
    set (a := Z.abs k). assert (10 ≤ a) as Ha by lia.
    pose proof (Z.div_mod a 100000 ltac:(lia)) as Hdm.
    pose proof (Z.mod_pos_bound a 100000 ltac:(lia)) as Hfp.
    assert (0 ≤ a / 100000) as Hip by (apply Z.div_pos; lia).
    destruct (frac_digits_spec (a mod 100000) Hfp) as (HF & HlF & HvF).
    rewrite of_string_positional;
      [| by apply nonneg_digits_range | done | apply nonneg_digits_nonempty].
    f_equal. unfold value5. apply Q2Qc_eq_iff.
    rewrite digits_value_app, nonneg_digits_value, pow10_0 by done.
    set (F := frac_digits (a mod 100000)) in *.
    set (j := length F) in *.
    set (X := 10 ^ Z.of_nat j).
    assert (0 < X) as HX by (apply Z.pow_pos_nonneg; lia).
    assert (X * 10 ^ Z.of_nat (5 - j) = 100000) as HXY.
    { unfold X. rewrite <- Z.pow_add_r by lia.
      replace (Z.of_nat j + Z.of_nat (5 - j)) with 5 by lia. done. }
    set (Y := 10 ^ Z.of_nat (5 - j)) in *.
    set (fv := digits_value F) in *.
    set (ip := a / 100000) in *.
    assert ((ip * X + fv) * 100000 = a * X) as Hmain.
    { assert (a * X = (100000 * ip + fv * Y) * X) as ->
        by (f_equal; lia).
      rewrite <- HXY. ring. }
    destruct (k <? 0) eqn:Hneg.
    + apply Z.ltb_lt in Hneg.
      replace (k # 100000) with (- a # 100000) by (f_equal; lia).
      unfold Qeq. cbn [Qnum Qden Qopp Qmult].
      rewrite Pos.mul_1_r, Z.mul_1_r, Z2Pos.id by done. lia.
    + apply Z.ltb_ge in Hneg.
      replace (k # 100000) with (a # 100000) by (f_equal; lia).
      unfold Qeq. cbn [Qnum Qden Qmult].
      rewrite Pos.mul_1_r, Z.mul_1_r, Z2Pos.id by done. lia.
Qed.

Lemma str5_no_space (k : Z) : no_space (str5 k) = true.
Proof.
  destruct (decide (Z.abs k < 10)) as [Hs|Hl].
  - apply small_cases in Hs.
    assert (Forall (λ k, no_space (str5 k) = true)
              [0; 1; 2; 3; 4; 5; 6; 7; 8; 9;
               -1; -2; -3; -4; -5; -6; -7; -8; -9]) as Hall
      by (repeat (constructor; [reflexivity |]); constructor).
    by apply (proj1 (Forall_forall _ _) Hall).
  - rewrite str5_large by lia.
    apply positional_no_space.
    + apply nonneg_digits_range, Z.div_pos; lia.
    + apply frac_digits_spec, Z.mod_pos_bound. lia.
Qed.

Lemma str5_nonempty (k : Z) : str5 k ≠ EmptyString.
Proof.
  intros H. pose proof (of_string_str5 k) as Hr. rewrite H in Hr.
  discriminate Hr.
Qed.

(** *** Rounding *)

(** [round_half_even] picks a nearest integer. *)
Lemma round_half_even_nearest (q : Q) :
  Z.abs (2 * (Qnum q - round_half_even q * Z.pos (Qden q))) ≤ Z.pos (Qden q).
Proof.
  unfold round_half_even. destruct q as [n d]. cbn [Qnum Qden].
  pose proof (Z.div_mod n (Z.pos d) ltac:(lia)) as Hdm.
  pose proof (Z.mod_pos_bound n (Z.pos d) ltac:(lia)) as Hr.
  destruct (2 * (n mod Z.pos d) ?= Z.pos d) eqn:E.
  - apply Z.compare_eq in E. destruct (Z.even (n / Z.pos d)); nia.
  - apply -> Z.compare_lt_iff in E. nia.
  - apply -> Z.compare_gt_iff in E. nia.
Qed.

(** A value with at most five decimals is its own rounding. *)
Lemma round5_value5 (k : Z) : round5 (value5 k) = k.
Proof.
  unfold round5, value5, round_half_even.
  pose proof (Qred_correct (k # 100000)) as Hq.
  cbn [this Q2Qc]. destruct (Qred (k # 100000)) as [a b].
  unfold Qeq in Hq. cbn [Qnum Qden] in Hq.
  cbn [Qmult Qnum Qden inject_Z]. rewrite Pos.mul_1_r.
  replace (a * 100000) with (k * Z.pos b) by lia.
  rewrite Z.div_mul, Z.mod_mul by lia. done.
Qed.

(** *** Reading back the fields of a rendered line *)

Definition starts_blank (s : string) : bool :=
  match s with
  | EmptyString => true
  | String c _ => is_space c
  end.

Lemma split_ws_word (w rest : string) :
  w ≠ EmptyString → no_space w = true → starts_blank rest = true →
  split_ws (w +:+ rest) = w :: split_ws rest.
Proof.
  intros Hw Hns Hrest. induction w as [|c w IH]; [done |].
  unfold no_space in Hns. cbn [all_chars] in Hns.
  apply andb_true_iff in Hns as [Hc Hns]. apply negb_true_iff in Hc.
  destruct w as [|c2 w].
  - change (String c "" +:+ rest) with (String c rest).
    cbn [split_ws]. rewrite Hc.
    destruct rest as [|c' rest]; [done |].
    cbn [starts_blank] in Hrest. by rewrite Hrest.
  - specialize (IH ltac:(done) Hns).
    change (String c (String c2 w) +:+ rest)
      with (String c (String c2 w +:+ rest)).
    change (String c2 w +:+ rest) with (String c2 (w +:+ rest)) in *.
    cbn [split_ws] in *. rewrite Hc.
    cbn [all_chars] in Hns. apply andb_true_iff in Hns as [Hc2 _].
    apply negb_true_iff in Hc2. rewrite Hc2 in *. by rewrite IH.
Qed.

Lemma split_ws_spaces (n : nat) (s : string) :
  split_ws (spaces n +:+ s) = split_ws s.
Proof. induction n as [|n IH]; [done |]. exact IH. Qed.

(** The fields of a line, each right-justified, and the final line feed. *)
Definition render (fields : list string) : string :=
  String.concat EmptyString (map (rjust 10) fields) +:+ "
".

Definition word (s : string) : Prop := s ≠ EmptyString ∧ no_space s = true.

Lemma render_cons (x : string) (l : list string) :
  render (x :: l) = spaces (10 - String.length x) +:+ x +:+ render l.
Proof.
  unfold render. cbn [map].
  rewrite (writelines_cons (rjust 10 x) (map (rjust 10) l)
             : String.concat EmptyString (_ :: _) = _).
  unfold rjust. by rewrite !append_assoc.
Qed.

Lemma split_ws_render_narrow (l : list string) :
  Forall word l →
  Forall (λ f, (String.length f < 10)%nat) l →
  starts_blank (render l) = true ∧ split_ws (render l) = l.
Proof.
  induction 1 as [|x l [Hx Hns] _ IH]; intros Hlen; [done |].
  apply Forall_cons in Hlen as [Hlx Hlen]. destruct (IH Hlen) as [Hb Hs].
  rewrite render_cons.
  destruct (10 - String.length x)%nat as [|n] eqn:E; [lia |].
  split; [done |].
  rewrite split_ws_spaces, split_ws_word by done. by rewrite Hs.
Qed.

Lemma split_ws_render (l : list string) :
  Forall word l →
  Forall (λ f, (String.length f < 10)%nat) (tail l) →
  split_ws (render l) = l.
Proof.
  destruct l as [|x l]; [done |]. intros Hw Hlen.
  apply Forall_cons in Hw as [[Hx Hns] Hw]. cbn [tail] in Hlen.
  destruct (split_ws_render_narrow l Hw Hlen) as [Hb Hs].
  by rewrite render_cons, split_ws_spaces, split_ws_word, Hs.
Qed.

End FloatFacts.

(** ** Box lines *)

Lemma mapR_Ok_inv {A B} (f : A → result B) (l : list A) (ys : list B) :
  mapR f l = Ok ys → Forall (λ x, ∃ y, f x = Ok y) l.
Proof.
  revert ys. induction l as [|x l IH]; intros ys H; [constructor |].
  cbn [mapR] in H. destruct (f x) as [y|] eqn:Hx; [| done].
  destruct (mapR f l) as [ys'|] eqn:Hl; [| done].
  constructor; eauto.
Qed.

(** C10.  A line of more than three fields is never scaled: the call
    raises.  It is the subscript into the three-entry scale list that
    fails, with [IndexError], as soon as the first four fields are numbers
    (a field that is not a number fails first, in [float]). *)
Theorem stretch_boxsize_more_than_three_fields_raises
    (boxsize_line : string) (scale_factor : Qc) :
  (3 < length (Str.split_ws boxsize_line))%nat →
  (∀ out, stretch_boxsize boxsize_line scale_factor ≠ Ok out) ∧
  (Forall (λ x, is_Some (Float.of_string x))
          (take 4 (Str.split_ws boxsize_line)) →
   stretch_boxsize boxsize_line scale_factor = Raise IndexError).
Proof.
  intros Hlen. unfold stretch_boxsize.
  destruct (Str.split_ws boxsize_line) as [|x0 [|x1 [|x2 [|x3 xs]]]];
    cbn [length] in Hlen; try lia.
  split.
  - intros out H. cbn [mbind result_bind] in H.
    destruct (mapR _ _) as [ys|] eqn:E; [| done].
    apply mapR_Ok_inv in E.
    unfold enumerate in E. cbn [length seq zip zip_with] in E.
    do 3 apply Forall_cons in E as [_ E]. apply Forall_cons in E as [[y Hy] _].
    unfold scaled_field in Hy. cbn in Hy.
    destruct (Float.of_string x3); done.
  - intros Hnum. cbn [take] in Hnum.
    apply Forall_cons in Hnum as [[v0 H0] Hnum].
    apply Forall_cons in Hnum as [[v1 H1] Hnum].
    apply Forall_cons in Hnum as [[v2 H2] Hnum].
    apply Forall_cons in Hnum as [[v3 H3] _].
    unfold enumerate. cbn [length seq zip zip_with mapR].
    unfold scaled_field. cbn [fst snd]. rewrite H0, H1, H2, H3. done.
Qed.

Lemma stretch_boxsize_more_than_three_fields_raises_witness :
  let line := "   7.00000   7.00000   9.00000   0.00000   0.00000   0.00000   0.00000   0.00000   0.00000"%string in
  (∀ out, stretch_boxsize line (Qc_of_Z 2) ≠ Ok out) ∧
  stretch_boxsize line (Qc_of_Z 2) = Raise IndexError.
Proof.
  intros line.
  destruct (stretch_boxsize_more_than_three_fields_raises line (Qc_of_Z 2))
    as [H1 H2].
  - vm_compute. lia.
  - split; [exact H1 |]. apply H2. compute_done.
Defined.

(** C6, as stated, fails: a numeric box line of nine fields (a triclinic
    box) is not scaled at all, and the third field of a three-field line
    is not left as it is but rounded to five decimals like the others. *)
Lemma stretch_boxsize_not_every_numeric_line :
  let nine := "   7.00000   7.00000   9.00000   0.00000   0.00000   0.00000   0.00000   0.00000   0.00000"%string in
  (Forall (λ x, is_Some (Float.of_string x)) (Str.split_ws nine) ∧
   ¬ ∃ out, stretch_boxsize nine (Qc_of_Z 2) = Ok out) ∧
  stretch_boxsize "1.0 1.0 1.1234567" 1%Qc
    = Ok "       1.0       1.0   1.12346
"%string.
Proof.
  intros nine. split_and!.
  - compute_done.
  - intros [out H]. vm_compute in H. discriminate H.
  - vm_compute. reflexivity.
Qed.

(** *** [stretch_boxsize] for any floating-point arithmetic

    The digits of the returned line depend on the arithmetic of the
    floats: a product that falls on a tie in exact arithmetic need not in
    binary arithmetic.  What the function does with the fields does not.
    It is stated here for any arithmetic that has the operations the
    function uses and three laws that IEEE doubles with Python's [round]
    and [str] have as well as the exact arithmetic of this development:
    multiplying by one changes nothing, [str] gives a non-empty text
    without blanks, and [float] reads back what [str] printed of a rounded
    value. *)

Record float_arith : Type := {
  fl : Type;
  (** [float(s)] *)
  fl_of_string : string → option fl;
  (** [x * y] *)
  fl_mul : fl → fl → fl;
  (** the integer [1] of the scale list, as the operand of a product *)
  fl_one : fl;
  (** [round(x, 5)] *)
  fl_round5 : fl → fl;
  (** [str(x)] *)
  fl_str : fl → string;
  fl_mul_one : ∀ v, fl_mul v fl_one = v;
  fl_str_word : ∀ x, FloatFacts.word (fl_str x);
  fl_read_back :
    ∀ x, fl_of_string (fl_str (fl_round5 x)) = Some (fl_round5 x)
}.

(** [round(float(x) * scale[n], 5)] *)
Definition scaled_field_in (F : float_arith) (scale : list (fl F))
    (nx : nat * string) : result (fl F) :=
  v ← of_option (ValueError "could not convert string to float")
                (fl_of_string F nx.2);
  sc ← of_option IndexError (scale !! nx.1);
  Ok (fl_round5 F (fl_mul F v sc)).

(** [stretch_boxsize(boxsize_line, scale_factor)] in the arithmetic [F] *)
Definition stretch_boxsize_in (F : float_arith) (boxsize_line : string)
    (scale_factor : fl F) : result string :=
  let scale := [scale_factor; scale_factor; fl_one F] in
  dimenions ← mapR (scaled_field_in F scale)
                   (enumerate (Str.split_ws boxsize_line));
  Ok (String.concat EmptyString
        (map (λ x, Str.rjust 10 (fl_str F x)) dimenions) +:+ "
").

(** The exact arithmetic: a float is a rational, a rounded value is read
    through its number of 1e-05 units. *)
Definition exact_arith : float_arith :=
  {| fl := Qc;
     fl_of_string := Float.of_string;
     fl_mul := Qcmult;
     fl_one := 1%Qc;
     fl_round5 := λ x, Float.value5 (Float.round5 x);
     fl_str := λ x, Float.str5 (Float.round5 x);
     fl_mul_one := Qcmult_1_r;
     fl_str_word := λ x,
       conj (FloatFacts.str5_nonempty (Float.round5 x))
            (FloatFacts.str5_no_space (Float.round5 x));
     fl_read_back := λ x,
       eq_trans
         (f_equal (λ k, Float.of_string (Float.str5 k))
                  (FloatFacts.round5_value5 (Float.round5 x)))
         (FloatFacts.of_string_str5 (Float.round5 x)) |}.

Lemma scaled_field_exact (scale : list Qc) (nx : nat * string) :
  scaled_field_in exact_arith scale nx
  = match scaled_field scale nx with
    | Ok k => Ok (Float.value5 k)
    | Raise e => Raise e
    end.
Proof.
  unfold scaled_field_in, scaled_field.
  cbn [fl exact_arith fl_of_string fl_mul fl_round5].
  destruct (Float.of_string nx.2) as [v|]; [| done].
  cbn [of_option mbind result_bind].
  by destruct (scale !! nx.1).
Qed.

(** [stretch_boxsize], as the controller uses it, is [stretch_boxsize_in]
    in the exact arithmetic. *)
Lemma mapR_related {A B C} (f : A → result B) (g : A → result C)
    (h : B → C) (l : list A) :
  (∀ x, g x = match f x with Ok y => Ok (h y) | Raise e => Raise e end) →
  mapR g l = match mapR f l with
             | Ok ys => Ok (map h ys)
             | Raise e => Raise e
             end.
Proof.
  intros Hfg. induction l as [|x l IH]; [done |]. cbn [mapR].
  rewrite IH, Hfg. destruct (f x); [| done]. by destruct (mapR f l).
Qed.

Lemma stretch_boxsize_exact (boxsize_line : string) (scale_factor : Qc) :
  stretch_boxsize boxsize_line scale_factor
  = stretch_boxsize_in exact_arith boxsize_line scale_factor.
Proof.
  unfold stretch_boxsize, stretch_boxsize_in.
  rewrite (mapR_related
             (scaled_field [scale_factor; scale_factor; 1%Qc])
             (scaled_field_in exact_arith
                [scale_factor; scale_factor; fl_one exact_arith])
             Float.value5)
    by apply scaled_field_exact.
  destruct (mapR _ _) as [ks|e]; [| done].
  cbn [mbind result_bind]. do 3 f_equal. rewrite map_map.
  apply map_ext. intros k. cbn [fl_str exact_arith].
  by rewrite FloatFacts.round5_value5.
Qed.

(** C6, amended.  Whatever the arithmetic of the floats, for a line of at
    most three numeric fields [stretch_boxsize] returns one field for each
    input field, in order: the products of the first two fields with the
    factor and of the third with one, each rounded to five decimals,
    printed and right-justified in width 10 (a longer rendering is kept
    whole), with a final line feed.  The third field is not scaled, but it
    is rounded and printed like the others, so that it stays the same text
    only when rounding and printing give its text back.  When every
    rendering after the first is shorter than 10 characters, splitting the
    output gives back the renderings, and reading them gives back the
    rounded products. *)
Theorem stretch_boxsize_at_most_three_fields
    (F : float_arith) (boxsize_line : string) (scale_factor : fl F)
    (vs : list (fl F)) :
  (length (Str.split_ws boxsize_line) ≤ 3)%nat →
  Forall2 (λ x v, fl_of_string F x = Some v) (Str.split_ws boxsize_line) vs →
  let rounded :=
    zip_with (λ v sc, fl_round5 F (fl_mul F v sc)) vs
             [scale_factor; scale_factor; fl_one F] in
  let fields := map (fl_str F) rounded in
  stretch_boxsize_in F boxsize_line scale_factor
    = Ok (FloatFacts.render fields) ∧
  length fields = length (Str.split_ws boxsize_line) ∧
  (∀ v, vs !! 2%nat = Some v → rounded !! 2%nat = Some (fl_round5 F v)) ∧
  (Forall (λ f, (String.length f < 10)%nat) (tail fields) →
   Str.split_ws (FloatFacts.render fields) = fields ∧
   Forall2 (λ f r, fl_of_string F f = Some r) fields rounded).
Proof.
  intros Hlen Hnum rounded fields.
  assert (length vs = length (Str.split_ws boxsize_line)) as Hlv
    by (symmetry; by eapply Forall2_length).
  split_and!.
  - unfold stretch_boxsize_in, fields, rounded, FloatFacts.render.
    destruct (Str.split_ws boxsize_line) as [|x0 [|x1 [|x2 [|x3 xs]]]];
      cbn [length] in Hlen; try lia;
      repeat match goal with
             | H : Forall2 _ (_ :: _) _ |- _ =>
                 apply Forall2_cons_inv_l in H as (? & ? & ? & H & ->)
             | H : Forall2 _ [] _ |- _ => apply Forall2_nil_inv_l in H as ->
             end;
      unfold enumerate; cbn [length seq zip zip_with mapR];
      unfold scaled_field_in; cbn [fst snd];
      repeat match goal with
             | H : fl_of_string _ _ = Some _ |- _ => rewrite H; clear H
             end;
      reflexivity.
  - unfold fields, rounded. rewrite length_map, length_zip_with. cbn [length].
    lia.
  - intros v Hv. unfold rounded.
    destruct vs as [|v0 [|v1 [|v2 vs]]]; try done.
    cbn in Hv. injection Hv as ->. cbn [zip_with lookup list_lookup].
    by rewrite fl_mul_one.
  - intros Hnarrow. split.
    + apply FloatFacts.split_ws_render; [| done].
      unfold fields. apply Forall_map, Forall_forall. intros r _.
      apply fl_str_word.
    + unfold fields, rounded. apply Forall2_fmap_l, Forall_Forall2_diag.
      apply Forall_forall. intros r Hr.
      apply list_elem_of_lookup in Hr as [i Hi].
      apply lookup_zip_with_Some in Hi as (v & sc & -> & _ & _).
      apply fl_read_back.
Qed.

Lemma stretch_boxsize_at_most_three_fields_witness :
  stretch_boxsize "   7.00000   7.12346   9.00000
" (Qc_of_Z 2) = Ok "      14.0  14.24692       9.0
"%string ∧
  Str.split_ws "      14.0  14.24692       9.0
" = ["14.0"; "14.24692"; "9.0"]%string.
Proof.
  pose (vs := [Qc_of_Z 7; Float.value5 712346; Qc_of_Z 9]).
  rewrite stretch_boxsize_exact.
  destruct (stretch_boxsize_at_most_three_fields exact_arith
              "   7.00000   7.12346   9.00000
" (Qc_of_Z 2) vs) as (H1 & _ & _ & H4).
  - vm_compute. lia.
  - compute_done.
  - split; [exact H1 |]. apply H4. compute_done.
Defined.

(** ** The geometric scaler *)

Section Scaler.

Local Open Scope Qc_scope.

(** The in-plane scaling of a position about [c] by the factor [t]. *)
Definition scaled (c : vec3) (t : Qc) (p : vec3) : vec3 :=
  Vec3 (vx c + t * (vx p - vx c)) (vy c + t * (vy p - vy c)) (vz p).

Definition in_range (u : Universe) (ix : list nat) : Prop :=
  Forall (λ i, (i < length (atoms u))%nat) ix.

Lemma set_position_same (a : Atom) : set_position (position a) a = a.
Proof. by destruct a. Qed.

Lemma scaled_one (c p : vec3) : scaled c 1 p = p.
Proof. destruct p as [x y z]. unfold scaled. cbn. f_equal; ring. Qed.

Lemma scaled_scaled (c : vec3) (s t : Qc) (p : vec3) :
  scaled c t (scaled c s p) = scaled c (s * t) p.
Proof. unfold scaled. cbn. f_equal; ring. Qed.

Lemma stretch_atom_eq (c : vec3) (s : Qc) (u : Universe) (i : nat) (a : Atom) :
  atoms u !! i = Some a →
  stretch_atom (Some c) s u i =
    Ok {| atoms := <[i := set_position (scaled c s (position a)) a]> (atoms u);
          dimensions := dimensions u |}.
Proof. intros H. unfold stretch_atom. cbn. rewrite H. done. Qed.

(** After the loop, an atom visited [n] times has been scaled [n] times;
    nothing else changes. *)
Lemma stretch_loop_spec (c : vec3) (s : Qc) (ix : list nat) (u : Universe) :
  in_range u ix →
  ∃ u',
    stretch_loop (Some c) s ix u = Ok u' ∧
    length (atoms u') = length (atoms u) ∧
    dimensions u' = dimensions u ∧
    ∀ i a, atoms u !! i = Some a →
      atoms u' !! i =
        Some (set_position
                (scaled c (s ^ count_occ Nat.eq_dec ix i) (position a)) a).
Proof.
  revert u. induction ix as [|j ix IH]; intros u Hr.
  - exists u. split_and!; try done.
    intros i a Hi. cbn. by rewrite scaled_one, set_position_same.
  - apply Forall_cons in Hr as [Hj Hr].
    destruct (lookup_lt_is_Some_2 _ _ Hj) as [aj Haj].
    cbn [stretch_loop]. rewrite (stretch_atom_eq c s u j aj Haj).
    cbn [mbind result_bind].
    set (u1 := {| atoms := _; dimensions := _ |}).
    destruct (IH u1) as (u' & Hl & Hlen & Hdim & Hat).
    { unfold in_range, u1. cbn [atoms]. by rewrite length_insert. }
    exists u'. split_and!; [done | | done |].
    { rewrite Hlen. unfold u1. cbn [atoms]. by rewrite length_insert. }
    intros i a Hi. cbn [count_occ].
    destruct (Nat.eq_dec j i) as [->|Hne].
    + rewrite (Hat i (set_position (scaled c s (position a)) a)).
      2:{ unfold u1. cbn [atoms]. rewrite list_lookup_insert_eq by done.
          congruence. }
      cbn [set_position position resname]. rewrite scaled_scaled.
      done.
    + rewrite (Hat i a); [done |].
      unfold u1. cbn [atoms]. by rewrite list_lookup_insert_ne.
Qed.

Lemma group_positions_length (u : Universe) (ix : list nat) :
  in_range u ix → length (group_positions u ix) = length ix.
Proof.
  unfold group_positions. induction 1 as [|i ix Hi _ IH]; [done |].
  destruct (lookup_lt_is_Some_2 _ _ Hi) as [a Ha].
  cbn [omap list_omap]. rewrite Ha. cbn. by rewrite <- IH.
Qed.

Definition sum_of (f : vec3 → Qc) (ps : list vec3) : Qc :=
  foldr (λ p acc, f p + acc) 0 ps.

Lemma vsum_components (ps : list vec3) :
  vx (vsum ps) = sum_of vx ps ∧ vy (vsum ps) = sum_of vy ps ∧
  vz (vsum ps) = sum_of vz ps.
Proof.
  induction ps as [|p ps (Hx & Hy & Hz)]; [done |].
  unfold vsum, sum_of in *. cbn [foldr vx vy vz]. by rewrite Hx, Hy, Hz.
Qed.

Lemma Qc_of_nat_nonzero (n : nat) : n ≠ 0%nat → Qc_of_nat n ≠ 0.
Proof.
  intros Hn H. unfold Qc_of_nat, Qc_of_Z in H.
  change 0 with (Q2Qc 0%Q) in H. apply Q2Qc_eq_iff in H.
  unfold Qeq in H. cbn in H. lia.
Qed.

(** The centre of a non-empty group is the unweighted mean of its
    positions. *)
Lemma center_mean (u : Universe) (ix : list nat) :
  in_range u ix → ix ≠ [] →
  ∃ c, center u ix = Some c ∧
    Qc_of_nat (length ix) * vx c = sum_of vx (group_positions u ix) ∧
    Qc_of_nat (length ix) * vy c = sum_of vy (group_positions u ix) ∧
    Qc_of_nat (length ix) * vz c = sum_of vz (group_positions u ix).
Proof.
  intros Hr Hne. unfold center.
  pose proof (group_positions_length u ix Hr) as Hlen.
  destruct (vsum_components (group_positions u ix)) as (Hx & Hy & Hz).
  destruct (group_positions u ix) as [|p ps] eqn:E.
  { destruct ix; [done | discriminate Hlen]. }
  eexists. split; [reflexivity |]. cbn [vx vy vz].
  rewrite Hlen, Hx, Hy, Hz.
  assert (Qc_of_nat (length ix) ≠ 0) as Hn.
  { apply Qc_of_nat_nonzero. by destruct ix. }
  split_and!; field; done.
Qed.

End Scaler.

Section ScalerTheorems.

Local Open Scope Qc_scope.

Lemma count_occ_NoDup (ix : list nat) (i : nat) :
  NoDup ix → i ∈ ix → count_occ Nat.eq_dec ix i = 1%nat.
Proof.
  intros Hnd Hi. apply NoDup_ListNoDup in Hnd.
  apply (proj1 (List.NoDup_count_occ' Nat.eq_dec ix) Hnd).
  by apply list_elem_of_In.
Qed.

Lemma count_occ_not_elem (ix : list nat) (i : nat) :
  i ∉ ix → count_occ Nat.eq_dec ix i = 0%nat.
Proof.
  intros Hi. apply List.count_occ_not_In. by rewrite <- list_elem_of_In.
Qed.

Lemma pow_inverse (s : Qc) (n : nat) : s ≠ 0 → s ^ n * (1 / s) ^ n = 1.
Proof.
  intros Hs. induction n as [|n IH]; [done |].
  cbn [Qcpower].
  replace (s * s ^ n * (1 / s * (1 / s) ^ n))
    with ((s * (1 / s)) * (s ^ n * (1 / s) ^ n)) by ring.
  rewrite IH. by field.
Qed.

(** C5.  [stretch_relative] on a moving group without repeated atoms and a
    non-empty anchor group: the centre is the unweighted mean of the
    anchor's positions; every atom of the moving group ends at
    [center + s * (old - center)] on the first two axes; the third
    coordinate of every atom is its old value; atoms outside the moving
    group, the number of atoms and the box do not change.  The function is
    a function of the universe alone: it touches no file. *)
Theorem stretch_relative_scales_in_plane
    (u : Universe) (to_strech : list nat)
    (anchor_u : Universe) (anchor : list nat) (scale_factor : Qc) :
  NoDup to_strech → in_range u to_strech →
  in_range anchor_u anchor → anchor ≠ [] →
  ∃ c u',
    center anchor_u anchor = Some c ∧
    Qc_of_nat (length anchor) * vx c
      = sum_of vx (group_positions anchor_u anchor) ∧
    Qc_of_nat (length anchor) * vy c
      = sum_of vy (group_positions anchor_u anchor) ∧
    stretch_relative u to_strech anchor_u anchor scale_factor = Ok u' ∧
    length (atoms u') = length (atoms u) ∧
    dimensions u' = dimensions u ∧
    (∀ i a, i ∈ to_strech → atoms u !! i = Some a →
       ∃ a', atoms u' !! i = Some a' ∧
         vx (position a') = vx c + scale_factor * (vx (position a) - vx c) ∧
         vy (position a') = vy c + scale_factor * (vy (position a) - vy c) ∧
         vz (position a') = vz (position a)) ∧
    (∀ i a, atoms u !! i = Some a →
       ∃ a', atoms u' !! i = Some a' ∧ vz (position a') = vz (position a)) ∧
    (∀ i a, i ∉ to_strech → atoms u !! i = Some a → atoms u' !! i = Some a).
Proof.
  intros Hnd Hr Hra Hne.
  destruct (center_mean anchor_u anchor Hra Hne) as (c & Hc & Hx & Hy & _).
  destruct (stretch_loop_spec c scale_factor to_strech u Hr)
    as (u' & Hl & Hlen & Hdim & Hat).
  exists c, u'. unfold stretch_relative. rewrite Hc.
  split_and!; try done.
  - intros i a Hi Ha. eexists. split; [by apply Hat |].
    rewrite count_occ_NoDup by done. cbn. split_and!; [f_equal; ring.. | done].
  - intros i a Ha. eexists. split; [by apply Hat |]. done.
  - intros i a Hi Ha. rewrite (Hat i a Ha), count_occ_not_elem by done.
    cbn. by rewrite scaled_one, set_position_same.
Qed.

Lemma stretch_relative_scales_in_plane_witness :
  let a x y z := mkAtom "POPC" (Vec3 (Qc_of_Z x) (Qc_of_Z y) (Qc_of_Z z)) in
  let u := mkUniverse [a 0 0 0; a 2 4 0; a 5 1 7; a (-3) 9 1]%Z None in
  ∃ c u',
    center u [0; 1]%nat = Some c ∧
    stretch_relative u [2; 3]%nat u [0; 1]%nat (Qc_of_Z 2) = Ok u' ∧
    (∀ i a, i ∈ [2; 3]%nat → atoms u !! i = Some a →
       ∃ a', atoms u' !! i = Some a' ∧
         vx (position a') = vx c + Qc_of_Z 2 * (vx (position a) - vx c) ∧
         vy (position a') = vy c + Qc_of_Z 2 * (vy (position a) - vy c) ∧
         vz (position a') = vz (position a)).
Proof.
  intros a u.
  destruct (stretch_relative_scales_in_plane u [2; 3]%nat u [0; 1]%nat
              (Qc_of_Z 2))
    as (c & u' & Hc & _ & _ & Hs & _ & _ & Hin & _).
  - compute_done.
  - repeat constructor.
  - repeat constructor.
  - done.
  - exists c, u'. done.
Defined.

(** C7.  With the factor 1 the universe is returned as it was.  A call
    with [s] followed by a call with [1 / s], the anchor atoms standing
    where they stood, gives the first universe back (exactly, as the
    arithmetic is exact here).  Whatever the factor, no atom changes its
    third coordinate. *)
Theorem stretch_relative_unit_inverse_and_z
    (u : Universe) (to_strech : list nat)
    (anchor_u : Universe) (anchor : list nat) :
  in_range u to_strech → in_range anchor_u anchor → anchor ≠ [] →
  stretch_relative u to_strech anchor_u anchor 1 = Ok u ∧
  (∀ s u1 anchor_u1,
     s ≠ 0 →
     stretch_relative u to_strech anchor_u anchor s = Ok u1 →
     group_positions anchor_u1 anchor = group_positions anchor_u anchor →
     stretch_relative u1 to_strech anchor_u1 anchor (1 / s) = Ok u) ∧
  (∀ s, ∃ u',
     stretch_relative u to_strech anchor_u anchor s = Ok u' ∧
     ∀ i a, atoms u !! i = Some a →
       ∃ a', atoms u' !! i = Some a' ∧ vz (position a') = vz (position a)).
Proof.
  intros Hr Hra Hne.
  destruct (center_mean anchor_u anchor Hra Hne) as (c & Hc & _).
  assert (Huniv : ∀ v v' : Universe,
            length (atoms v') = length (atoms v) →
            dimensions v' = dimensions v →
            (∀ i a, atoms v !! i = Some a → atoms v' !! i = Some a) →
            v' = v).
  { intros [l d] [l' d'] Hlen Hd Hat. cbn in *. subst d'. f_equal.
    apply list_eq. intros i. destruct (l !! i) as [a|] eqn:E.
    - by apply Hat.
    - apply lookup_ge_None in E. apply lookup_ge_None. lia. }
  split_and!.
  - destruct (stretch_loop_spec c 1 to_strech u Hr)
      as (u' & Hl & Hlen & Hdim & Hat).
    unfold stretch_relative. rewrite Hc, Hl. f_equal.
    apply Huniv; [done.. |]. intros i a Ha. rewrite (Hat i a Ha).
    rewrite Qcpower_1, scaled_one, set_position_same. done.
  - intros s u1 anchor_u1 Hs H1 Hsame.
    destruct (stretch_loop_spec c s to_strech u Hr)
      as (u1' & Hl & Hlen & Hdim & Hat).
    unfold stretch_relative in H1 |- *. rewrite Hc, Hl in H1.
    injection H1 as <-.
    assert (center anchor_u1 anchor = Some c) as ->
      by (unfold center in *; by rewrite Hsame).
    destruct (stretch_loop_spec c (1 / s) to_strech u1')
      as (u2 & Hl2 & Hlen2 & Hdim2 & Hat2).
    { unfold in_range. by rewrite Hlen. }
    rewrite Hl2. f_equal. apply Huniv; [congruence.. |].
    intros i a Ha. rewrite (Hat2 i _ (Hat i a Ha)).
    cbn [set_position position resname]. rewrite scaled_scaled.
    rewrite pow_inverse, scaled_one by done.
    destruct a as [r p]. done.
  - intros s. destruct (stretch_loop_spec c s to_strech u Hr)
      as (u' & Hl & Hlen & Hdim & Hat).
    exists u'. unfold stretch_relative. rewrite Hc. split; [done |].
    intros i a Ha. eexists. split; [by apply Hat |]. done.
Qed.

Lemma stretch_relative_unit_inverse_and_z_witness :
  let a x y z := mkAtom "POPC" (Vec3 (Qc_of_Z x) (Qc_of_Z y) (Qc_of_Z z)) in
  let u := mkUniverse [a 0 0 0; a 2 4 0; a 5 1 7; a (-3) 9 1]%Z None in
  stretch_relative u [2; 3]%nat u [0; 1]%nat 1 = Ok u ∧
  ∀ u1, stretch_relative u [2; 3]%nat u [0; 1]%nat (Qc_of_Z 2) = Ok u1 →
        group_positions u1 [0; 1]%nat = group_positions u [0; 1]%nat →
        stretch_relative u1 [2; 3]%nat u1 [0; 1]%nat (1 / Qc_of_Z 2) = Ok u.
Proof.
  intros a u.
  destruct (stretch_relative_unit_inverse_and_z u [2; 3]%nat u [0; 1]%nat)
    as (H1 & H2 & _).
  - repeat constructor.
  - repeat constructor.
  - done.
  - split; [exact H1 |]. intros u1 Hu1 Hsame.
    apply (H2 (Qc_of_Z 2) u1 u1); [| done..].
    apply Qc_of_nat_nonzero with (n := 2%nat). done.
Defined.

(** The anchor stands where it stood when it shares no atom with the
    moving group, as the protein and the lipids in the controller. *)
Lemma anchor_untouched (u u1 : Universe) (to_strech anchor : list nat)
    (scale_factor : Qc) (anchor_u : Universe) (anchor' : list nat) :
  in_range u to_strech → in_range anchor_u anchor' → anchor' ≠ [] →
  stretch_relative u to_strech anchor_u anchor' scale_factor = Ok u1 →
  (∀ i, i ∈ anchor → i ∉ to_strech) →
  group_positions u1 anchor = group_positions u anchor.
Proof.
  intros Hr Hra Hne H1 Hdis.
  destruct (center_mean anchor_u anchor' Hra Hne) as (c & Hc & _).
  destruct (stretch_loop_spec c scale_factor to_strech u Hr)
    as (u' & Hl & Hlen & Hdim & Hat).
  unfold stretch_relative in H1. rewrite Hc, Hl in H1. injection H1 as <-.
  unfold group_positions. induction anchor as [|i anchor IH]; [done |].
  cbn [omap list_omap]. rewrite IH by (intros j Hj; apply Hdis; set_solver).
  assert (atoms u' !! i = atoms u !! i) as ->; [| done].
  destruct (atoms u !! i) as [a|] eqn:E.
  - rewrite (Hat i a E), count_occ_not_elem by (apply Hdis; set_solver).
    cbn. by rewrite scaled_one, set_position_same.
  - apply lookup_ge_None in E. apply lookup_ge_None. lia.
Qed.

End ScalerTheorems.

(** ** The compression schedule *)

Section ScheduleTheorems.

Local Open Scope R_scope.



(** *** From the rationals of the controller to the reals *)












End ScheduleTheorems.

(** ** Index groups and position restraints *)

Module IntFacts.

Import Str Float StrFacts FloatFacts.

#[local] Arguments digit_char : simpl never.
#[local] Arguments is_digit : simpl never.
#[local] Arguments digit_val : simpl never.

Lemma digit_not_sign (c : ascii) :
  is_digit c = true →
  Ascii.eqb c "-" = false ∧ Ascii.eqb c "+" = false.
Proof.
  destruct c as [[] [] [] [] [] [] [] []]; intros H;
    first [discriminate H | done].
Qed.

Lemma digits_go_of_digits (ds : list Z) (acc : Z) (seen : bool) :
  Forall is_dec_digit ds → ds ≠ [] ∨ seen = true →
  digits_go acc seen (of_digits ds)
  = Some (fold_left (λ a d, a * 10 + d) ds acc).
Proof.
  intros Hds. revert acc seen.
  induction Hds as [|d ds Hd _ IH]; intros acc seen Hne.
  - destruct Hne as [Hne | Hne]; [done | by subst seen].
  - cbn [of_digits digits_go fold_left].
    rewrite digit_char_is_digit, digit_val_char by done.
    apply IH. by right.
Qed.

(** [int(str(n)) == n] for a natural number. *)
Lemma to_Z_of_Z (n : Z) : 0 ≤ n → to_Z (of_Z n) = Some n.
Proof.
  intros Hn. unfold of_Z, to_Z.
  destruct (n <? 0) eqn:E; [apply Z.ltb_lt in E; lia |].
  change (of_nonneg n) with (of_digits (nonneg_digits n)).
  pose proof (nonneg_digits_range n Hn) as Hr.
  pose proof (nonneg_digits_nonempty n) as Hne.
  pose proof (nonneg_digits_value n Hn) as Hv.
  rewrite strip_no_space
    by (apply (digits_no_mark is_space); [apply plain_not_space | done]).
  destruct (nonneg_digits n) as [|d ds] eqn:Ed; [done |].
  cbn [of_digits].
  destruct (digit_not_sign (digit_char d)) as [-> ->].
  { apply digit_char_is_digit. by inversion Hr. }
  change (String (digit_char d) (of_digits ds)) with (of_digits (d :: ds)).
  rewrite digits_go_of_digits by (done || by left). by rewrite <- Hv.
Qed.

End IntFacts.

Module PathFacts2.

Import StrFacts PathFacts.

(** Two names that are not absolute and differ give different paths in
    the same folder. *)
Lemma join_inj (a b b' : string) :
  Path.starts_with_sep b = false → Path.starts_with_sep b' = false →
  Path.join a b = Path.join a b' → b = b'.
Proof.
  intros Hb Hb'. unfold Path.join. rewrite Hb, Hb'.
  destruct a as [|x a]; [done |].
  destruct (Path.ends_with_sep (String x a)).
  - apply append_inj_l.
  - intros H%append_inj_l. by injection H.
Qed.

End PathFacts2.

(** Unfolds the monad and the primitive operations on the world. *)
Ltac unfold_world :=
  repeat progress
    (unfold mbind, M_bind, bindM, log_event, load_universe, get_file,
       put_file, ret, raise, lift;
     cbn [fst snd files engine trace]).

Section IndexTheorems.

Variable default_groups : Universe → list string.

Lemma list_index_lookup (x : string) (l : list string) (i : nat) :
  list_index x l = Some i → l !! i = Some x.
Proof.
  revert i. induction l as [|y l IH]; intros i H; [done |].
  cbn [list_index] in H. destruct (String.eqb y x) eqn:E.
  - apply String.eqb_eq in E. by simplify_eq.
  - destruct (list_index x l) as [j|]; [| done].
    cbn in H. simplify_eq. cbn. by apply IH.
Qed.

Lemma make_ndx_eq (f o : string) (input : list string) (w : world)
    (u : Universe) :
  files w !! f = Some (Structure u) →
  make_ndx default_groups f o input w =
    (Returns (),
     {| files := <[o := Index (default_groups u ++ script_groups input)]>
                   (files w);
        engine := engine w;
        trace := trace w ++ [MakeNdx f o input] |}).
Proof.
  intros H. unfold make_ndx. unfold_world. by rewrite H.
Qed.

Lemma get_ndx_groups_eq (path : string) (w : world) (groups : list string) :
  files w !! path = Some (Index groups) →
  get_ndx_groups path w = (Returns groups, w).
Proof.
  intros H. unfold get_ndx_groups. unfold_world. by rewrite H.
Qed.

Lemma remove_eq (path : string) (w : world) (f : file) :
  files w !! path = Some f →
  remove path w =
    (Returns (),
     {| files := delete path (files w); engine := engine w;
        trace := trace w ++ [Removed path] |}).
Proof. intros H. unfold remove. by rewrite H. Qed.

Lemma genrestr_eq (f o : string) (n : option string) (h : nat) (w : world)
    (groups : list string) (g : string) :
  match n with
  | Some ndx => files w !! ndx = Some (Index groups)
  | None => ∃ u, files w !! f = Some (Structure u) ∧ groups = default_groups u
  end →
  groups !! h = Some g →
  genrestr default_groups f o n [Str.of_Z (Z.of_nat h)] w =
    (Returns (),
     {| files := <[o := Restraints g]> (files w); engine := engine w;
        trace := trace w ++ [Genrestr f o n [Str.of_Z (Z.of_nat h)]] |}).
Proof.
  intros Hn Hg. unfold genrestr.
  assert (Hh : [Str.of_Z (Z.of_nat h)] !! 0%nat ≫= Str.to_Z
               = Some (Z.of_nat h)).
  { cbn [lookup list_lookup mbind option_bind].
    apply IntFacts.to_Z_of_Z. lia. }
  rewrite Hh.
  destruct (0 <=? Z.of_nat h) eqn:E; [| apply Z.leb_gt in E; lia].
  rewrite Nat2Z.id.
  destruct n as [ndx|].
  - unfold get_ndx_groups. unfold_world. rewrite Hn, Hg. done.
  - destruct Hn as (u & Hu & ->). unfold_world. rewrite Hu, Hg. done.
Qed.

Lemma parse_indexkey_to_list_eq (file_to_process : string) (w : world)
    (u : Universe) :
  let tmp := Path.join (Path.dirname file_to_process) "temp.ndx" in
  files w !! file_to_process = Some (Structure u) →
  parse_indexkey_to_list default_groups file_to_process w =
    (Returns (default_groups u),
     {| files := delete tmp (files w); engine := engine w;
        trace := trace w ++ [MakeNdx file_to_process tmp [EmptyString; "q"%string];
                             Removed tmp] |}).
Proof.
  intros tmp H. unfold parse_indexkey_to_list. fold tmp.
  unfold mbind at 1, M_bind, bindM.
  rewrite (make_ndx_eq _ _ _ _ u H).
  unfold mbind at 1, M_bind, bindM.
  erewrite get_ndx_groups_eq by (cbn [files]; apply lookup_insert_eq).
  unfold mbind at 1, M_bind, bindM.
  erewrite remove_eq by (cbn [files]; apply lookup_insert_eq).
  cbn. rewrite delete_insert_eq, app_nil_r, <- app_assoc. done.
Qed.

(** C8.  With a non-empty [exclude_res], [generate_posre] sends the
    index tool the residue selectors joined by [" | "] and then the
    difference of the named group and that new group; the restraint tool
    gets the handle [len(current_index_list) + 1], which in the index just
    written is the refined group (the second of the two groups added);
    the transient index file is removed afterwards.  With an empty
    [exclude_res] the restraint tool gets the handle of the named group
    and no second index is made. *)
Theorem generate_posre_commands
    (file_to_process folder_path group : string) (exclude_res : list Z)
    (w : world) (u : Universe) (group_index : nat) :
  let tmp0 := Path.join (Path.dirname file_to_process) "temp.ndx" in
  let tmp := Path.join folder_path "temp.ndx" in
  let posre := Path.join folder_path "posre.itp" in
  let n := length (default_groups u) in
  let exclude_string :=
    Str.join " | " (map (λ res, "r " +:+ Str.of_Z res) exclude_res) in
  let refined :=
    "!" +:+ Str.of_Z (Z.of_nat n) +:+ " & " +:+
      Str.of_Z (Z.of_nat group_index) in
  files w !! file_to_process = Some (Structure u) →
  list_index group (default_groups u) = Some group_index →
  tmp0 ≠ file_to_process → tmp ≠ file_to_process →
  (exclude_res ≠ [] →
   ∃ w',
     generate_posre default_groups file_to_process folder_path group
                    exclude_res w = (Returns (), w') ∧
     trace w' = trace w ++
       [MakeNdx file_to_process tmp0 [EmptyString; "q"%string];
        Removed tmp0;
        MakeNdx file_to_process tmp [exclude_string; refined; "q"%string];
        Genrestr file_to_process posre (Some tmp)
                 [Str.of_Z (Z.of_nat n + 1)];
        Removed tmp] ∧
     (default_groups u ++ script_groups [exclude_string; refined; "q"%string])
       !! (n + 1)%nat = Some refined ∧
     files w' !! posre = Some (Restraints refined) ∧
     files w' !! tmp = None) ∧
  (exclude_res = [] →
   ∃ w',
     generate_posre default_groups file_to_process folder_path group
                    exclude_res w = (Returns (), w') ∧
     trace w' = trace w ++
       [MakeNdx file_to_process tmp0 [EmptyString; "q"%string];
        Removed tmp0;
        Genrestr file_to_process posre None
                 [Str.of_Z (Z.of_nat group_index)]] ∧
     files w' !! posre = Some (Restraints group)).
Proof.
  intros tmp0 tmp posre n exclude_string refined Hfile Hgroup Htmp0 Htmp.
  assert (posre ≠ tmp) as Hpt.
  { intros H%PathFacts2.join_inj; done. }
  pose (w1 := {| files := delete tmp0 (files w); engine := engine w;
                 trace := trace w ++
                   [MakeNdx file_to_process tmp0 [EmptyString; "q"%string];
                    Removed tmp0] |}).
  assert (files w1 !! file_to_process = Some (Structure u)) as Hf1
    by (unfold w1; cbn [files]; by rewrite lookup_delete_ne).
  assert (Hparse := parse_indexkey_to_list_eq file_to_process w u Hfile).
  fold tmp0 w1 in Hparse. cbv zeta in Hparse.
  unfold generate_posre.
  split.
  - intros Hne.
    unfold mbind at 1, M_bind, bindM. rewrite Hparse.
    unfold mbind at 1, M_bind, bindM. rewrite Hgroup.
    unfold of_option, lift, ret.
    assert ((0 <? length exclude_res)%nat = true) as ->
      by (destruct exclude_res; [done | reflexivity]).
    fold n tmp posre exclude_string refined.
    assert (script_groups [exclude_string; refined; "q"%string]
            = [exclude_string; refined]) as Hsg.
    { unfold exclude_string. destruct exclude_res as [|r0 rs]; [done |].
      cbn [map Str.join]. by destruct (map _ rs). }
    assert ((default_groups u ++ [exclude_string; refined]) !! (n + 1)%nat
            = Some refined) as Hlook.
    { rewrite lookup_app_r by (unfold n; lia).
      by replace (n + 1 - length (default_groups u))%nat with 1%nat
        by (unfold n; lia). }
    unfold mbind at 1, M_bind, bindM.
    rewrite (make_ndx_eq _ _ _ _ u Hf1), Hsg.
    set (w2 := {| files := <[tmp := _]> (files w1) |}).
    unfold mbind at 1, M_bind, bindM.
    replace (Z.of_nat n + 1) with (Z.of_nat (n + 1)) by lia.
    rewrite (genrestr_eq _ _ (Some tmp) (n + 1) w2
               (default_groups u ++ [exclude_string; refined]) refined);
      [| unfold w2; cbn [files]; apply lookup_insert_eq | exact Hlook].
    set (w3 := {| files := <[posre := _]> (files w2) |}).
    erewrite (remove_eq tmp w3).
    2:{ unfold w3, w2. cbn [files].
        rewrite lookup_insert_ne by done. apply lookup_insert_eq. }
    eexists. split; [reflexivity |].
    unfold w3, w2, w1. cbn [files trace]. split_and!.
    + by rewrite <- !app_assoc.
    + exact Hlook.
    + rewrite lookup_delete_ne by done. apply lookup_insert_eq.
    + apply lookup_delete_eq.
  - intros ->.
    unfold mbind at 1, M_bind, bindM. rewrite Hparse.
    unfold mbind at 1, M_bind, bindM. rewrite Hgroup.
    unfold of_option, lift, ret.
    cbn [length Nat.ltb Nat.leb].
    fold posre.
    rewrite (genrestr_eq _ _ None group_index w1 (default_groups u) group);
      [| by exists u | by apply list_index_lookup].
    eexists. split; [reflexivity |].
    unfold w1. cbn [files trace]. split.
    + by rewrite <- !app_assoc.
    + apply lookup_insert_eq.
Qed.

End IndexTheorems.

Lemma generate_posre_commands_witness :
  let dg := λ _ : Universe, ["System"; "Protein"; "SOL"]%string in
  let u := mkUniverse [mkAtom "ALA" (Vec3 0 0 0)]%Qc None in
  let w := {| files := {[ "work/conf.gro"%string := Structure u ]};
              engine := []; trace := [] |} in
  ∃ w',
    generate_posre dg "work/conf.gro" "work" "Protein" [3; 7] w
      = (Returns (), w') ∧
    trace w' =
      [MakeNdx "work/conf.gro" "work/temp.ndx" [EmptyString; "q"%string];
       Removed "work/temp.ndx";
       MakeNdx "work/conf.gro" "work/temp.ndx"
               ["r 3 | r 7"; "!3 & 1"; "q"]%string;
       Genrestr "work/conf.gro" "work/posre.itp" (Some "work/temp.ndx"%string)
                ["4"%string];
       Removed "work/temp.ndx"] ∧
    files w' !! "work/posre.itp"%string = Some (Restraints "!3 & 1") ∧
    files w' !! "work/temp.ndx"%string = None.
Proof.
  intros dg u w.
  destruct (generate_posre_commands dg "work/conf.gro" "work" "Protein"
              [3; 7] w u 1%nat) as [H _].
  - reflexivity.
  - reflexivity.
  - vm_compute. discriminate.
  - vm_compute. discriminate.
  - destruct (H ltac:(discriminate)) as (w' & H1 & H2 & _ & H4 & H5).
    exists w'. split_and!; [exact H1 | exact H2 | exact H4 | exact H5].
Defined.

(** ** The embedding controller: the retry scenario

    Two protein atoms and four lipid atoms; one compression step; the
    engine reports an overlap on atom 5 at its first run and succeeds at
    its second, handing back the structure it was given. *)

Module Scenario.

Definition atom (r : string) (x y z : Z) : Atom :=
  mkAtom r (Vec3 (Qc_of_Z x) (Qc_of_Z y) (Qc_of_Z z)).

Definition protein : Universe :=
  mkUniverse [atom "ALA" 0 0 0; atom "ALA" 2 2 0] None.

Definition lipid : Universe :=
  mkUniverse [atom "POPC" 5 1 0; atom "POPC" (-3) 1 1;
              atom "POPC" 1 7 2; atom "POPC" 1 (-5) 3] None.

Definition overlap_run : engine_run := λ _ _,
  ("Steepest Descents:
Maximum force     =            inf on atom 5
"%string, None).

Definition success_run : engine_run := λ c fs,
  ("Steepest Descents converged to Fmax < 1000 in 12 steps
"%string,
   match fs !! c with
   | Some (Structure u) => Some u
   | _ => None
   end).

Definition start (folder_path : string) : world :=
  {| files := <["protein.gro"%string := Structure protein]>
                (<["lipid.gro"%string := Structure lipid]>
                   {[ Path.join folder_path "template.top" := Text "topology" ]});
     engine := [overlap_run; success_run];
     trace := [] |}.

Definition fatal_run : engine_run := λ _ _,
  ("Program gmx grompp
ERROR 1 [file topol.top, line 12]: atom names do not match
"%string, None).

(** The same start, with an engine whose only run fails fatally. *)
Definition fatal_start (folder_path : string) : world :=
  {| files := files (start folder_path);
     engine := [fatal_run];
     trace := [] |}.

(** With one step the exponent [1 / steps] is 1 and [np.power] returns
    its base. *)
Definition power_one (x y : Qc) : Qc := x.

Definition embed (folder_path : string) : run () * world :=
  embed_in_lipids power_one "protein.gro" "lipid.gro" folder_path
    "resname POPC" "   7.00000   7.00000   9.00000"
    (Qc_of_Z 2) (Qc_of_Z 1) 1 (start folder_path).

(** The position of the atom at index [i] of the structure at [path]. *)
Definition position_at (w : world) (path : string) (i : nat) : option vec3 :=
  match files w !! path with
  | Some (Structure u) => position <$> atoms u !! i
  | _ => None
  end.

Definition is_minimized (e : event) : bool :=
  match e with Minimized _ _ _ => true | _ => false end.

Definition is_perturbed (e : event) : bool :=
  match e with Perturbed _ => true | _ => false end.

Definition pos (x y z : Z) : vec3 := Vec3 (Qc_of_Z x) (Qc_of_Z y) (Qc_of_Z z).

End Scenario.

(** C1, where the folder path ends with a separator: one perturbation of
    atom 5 (index 4), by (1, 0, 0), written to the raw artifact of the
    step, and two minimizations of that artifact. *)
Lemma embed_retry_with_trailing_separator :
  let w := (Scenario.embed "work/").2 in
  (Scenario.embed "work/").1 = Returns () ∧
  filter Scenario.is_minimized (trace w) =
    [Minimized "work/embed_raw1.gro" "embed_1" (AtomOverlap 5);
     Minimized "work/embed_raw1.gro" "embed_1" Success] ∧
  filter Scenario.is_perturbed (trace w) = [Perturbed 5] ∧
  Scenario.position_at w "work/embed_0.gro" 4 = Some (Scenario.pos 1 13 2) ∧
  Scenario.position_at w "work/embed_raw1.gro" 4 = Some (Scenario.pos 2 7 2) ∧
  Scenario.position_at w "protein.gro" 4 = Some (Scenario.pos 2 7 2).
Proof. cbv zeta. compute_done. Qed.

(** C1, where the folder path has no trailing separator (as every other
    path of the function, built with [join], expects): the perturbed
    snapshot is written beside the folder, to [folder_path + name]; the raw
    artifact keeps the unperturbed atom, [change_boxsize] reloads and
    rewrites that unperturbed artifact, and the second minimization runs on
    it. *)
Theorem embed_retry_writes_beside_the_raw_artifact :
  let w := (Scenario.embed "work").2 in
  (Scenario.embed "work").1 = Returns () ∧
  filter Scenario.is_minimized (trace w) =
    [Minimized "work/embed_raw1.gro" "embed_1" (AtomOverlap 5);
     Minimized "work/embed_raw1.gro" "embed_1" Success] ∧
  filter Scenario.is_perturbed (trace w) = [Perturbed 5] ∧
  Scenario.position_at w "workembed_raw1.gro" 4 = Some (Scenario.pos 2 7 2) ∧
  Scenario.position_at w "work/embed_raw1.gro" 4 = Some (Scenario.pos 1 7 2) ∧
  Scenario.position_at w "protein.gro" 4 = Some (Scenario.pos 1 7 2).
Proof. cbv zeta. compute_done. Qed.

(** The path written in the retry loop is the raw artifact's path only
    when [folder_path] is empty or ends with a separator. *)
Lemma retry_write_path_differs (folder_path : string) (n : Z) :
  folder_path ≠ EmptyString → Path.ends_with_sep folder_path = false →
  folder_path +:+ raw_name n ≠ Path.join folder_path (raw_name n).
Proof.
  intros Hne Hsep. unfold Path.join, raw_name.
  change (Path.starts_with_sep _) with false. cbv iota.
  destruct folder_path as [|c f]; [done |]. rewrite Hsep.
  intros H%PathFacts.append_inj_l. discriminate H.
Qed.

(** ** The embedding controller: when the protein file is written *)

(** The working files of the controller in [folder_path]: the topology
    copy and every path that starts like an embedding artifact. *)
Definition artifact (folder_path p : string) : bool :=
  String.prefix (Path.join folder_path "embed_") p ||
  String.prefix (folder_path +:+ "embed_raw") p ||
  String.eqb p (Path.join folder_path "topol.top").

(** A [minimize] that raised. *)
Definition fatal (ev : event) : Prop :=
  match ev with
  | Minimized _ _ (Raise _) => True
  | _ => False
  end.

(** An exception recorded for a [minimize] is the result of the whole
    computation, and nothing is recorded after it. *)
Definition fatal_last {A} (r : run A) (evs : list event) : Prop :=
  ∀ c name e,
    Minimized c name (Raise e) ∈ evs →
    r = Raises e ∧ last evs = Some (Minimized c name (Raise e)).

Section Commit.

(** The path whose content is followed: the protein file. *)
Variable P : string.

(** [spec m Q]: from any world, [m] leaves the file at [P] as it is, and
    its result and the events it records satisfy [Q]. *)
Definition spec {A} (m : M A) (Q : run A → list event → Prop) : Prop :=
  ∀ w, ∃ evs,
    trace (m w).2 = trace w ++ evs ∧
    files (m w).2 !! P = files w !! P ∧
    Q (m w).1 evs.

Definition calm {A} : run A → list event → Prop :=
  λ _ evs, Forall (λ ev, ¬ fatal ev) evs.

(** A postcondition that still holds when events that are not fatal come
    first, and that holds of a failure after such events. *)
Definition absorbing {A} (Q : run A → list event → Prop) : Prop :=
  (∀ r evs1 evs2,
     Forall (λ ev, ¬ fatal ev) evs1 → Q r evs2 → Q r (evs1 ++ evs2)) ∧
  (∀ e evs, Forall (λ ev, ¬ fatal ev) evs → Q (Raises e) evs) ∧
  (∀ evs, Forall (λ ev, ¬ fatal ev) evs → Q Starved evs).

Lemma spec_mono {A} (m : M A) (Q Q' : run A → list event → Prop) :
  spec m Q → (∀ r evs, Q r evs → Q' r evs) → spec m Q'.
Proof.
  intros Hm HQ w. destruct (Hm w) as (evs & Ht & Hf & Hq). eauto.
Qed.

Lemma spec_bind {A B} (m : M A) (k : A → M B)
    (Q1 : run A → list event → Prop) (Q : run B → list event → Prop) :
  spec m Q1 →
  (∀ e evs, Q1 (Raises e) evs → Q (Raises e) evs) →
  (∀ evs, Q1 Starved evs → Q Starved evs) →
  (∀ a evs1, Q1 (Returns a) evs1 →
             spec (k a) (λ r evs2, Q r (evs1 ++ evs2))) →
  spec (m ≫= k) Q.
Proof.
  intros Hm Hr Hs Hk w. destruct (Hm w) as (evs1 & Ht & Hf & Hq).
  unfold mbind, M_bind, bindM.
  destruct (m w) as [[a|e|] w1]; cbn [fst snd] in *.
  - destruct (Hk a evs1 Hq w1) as (evs2 & Ht2 & Hf2 & Hq2).
    exists (evs1 ++ evs2). rewrite Ht2, Ht, Hf2, Hf, app_assoc. done.
  - exists evs1. eauto.
  - exists evs1. eauto.
Qed.

Lemma calm_bind {A B} (m : M A) (k : A → M B) :
  spec m calm → (∀ a, spec (k a) calm) → spec (m ≫= k) calm.
Proof.
  intros Hm Hk. apply (spec_bind m k calm); [done.. |].
  intros a evs1 H1. apply (spec_mono _ calm); [apply Hk |].
  intros r evs2 H2. by apply Forall_app.
Qed.

Lemma spec_calm_then {A B} (m : M A) (k : A → M B)
    (Q : run B → list event → Prop) :
  absorbing Q → spec m calm → (∀ a, spec (k a) Q) → spec (m ≫= k) Q.
Proof.
  intros (Ha & Hr & Hs) Hm Hk. apply (spec_bind m k calm); [done | | |].
  - intros e evs. apply Hr.
  - intros evs. apply Hs.
  - intros a evs1 H1. apply (spec_mono _ Q); [apply Hk |].
    intros r evs2. by apply Ha.
Qed.

Lemma absorbing_calm {A} : absorbing (@calm A).
Proof.
  split_and!; unfold calm; [| done..].
  intros r evs1 evs2 H1 H2. by apply Forall_app.
Qed.

(** *** The primitive operations *)

Ltac spec_now evs :=
  intros w; exists evs; unfold_world;
  repeat case_match; cbn [fst snd files engine trace];
  rewrite ?app_nil_r, ?lookup_insert_ne by done;
  split_and!; try done; unfold calm; repeat constructor; try done.

Lemma spec_ret {A} (a : A) : spec (ret a) calm.
Proof. spec_now (@nil event). Qed.

Lemma spec_raise {A} (e : exn) : spec (@raise A e) calm.
Proof. spec_now (@nil event). Qed.

Lemma spec_lift {A} (r : result A) : spec (lift r) calm.
Proof. destruct r; [apply spec_ret | apply spec_raise]. Qed.

Lemma spec_log_event (ev : event) : ¬ fatal ev → spec (log_event ev) calm.
Proof. intros H. spec_now [ev]. Qed.

Lemma spec_put_file (path : string) (f : file) :
  path ≠ P → spec (put_file path f) calm.
Proof. intros H. spec_now (@nil event). Qed.

Lemma spec_get_file (path : string) : spec (get_file path) calm.
Proof. spec_now (@nil event). Qed.

Lemma spec_load_universe (path : string) : spec (load_universe path) calm.
Proof.
  unfold load_universe. apply calm_bind; [apply spec_get_file |].
  intros [u| | |]; first [apply spec_ret | apply spec_raise].
Qed.

Lemma spec_write_universe (u : Universe) (path : string) :
  path ≠ P → spec (write_universe u path) calm.
Proof.
  intros H. unfold write_universe.
  apply calm_bind; [by apply spec_put_file |].
  intros _. apply spec_log_event. by intros [].
Qed.

Lemma spec_copyfile (src dst : string) :
  dst ≠ P → spec (copyfile src dst) calm.
Proof.
  intros H. unfold copyfile. case_decide; [apply spec_raise |].
  apply calm_bind; [apply spec_get_file |]. intros f.
  apply calm_bind; [by apply spec_put_file |].
  intros _. apply spec_log_event. by intros [].
Qed.

Lemma spec_change_boxsize (path boxsize_line : string) :
  path ≠ P → spec (change_boxsize path boxsize_line) calm.
Proof.
  intros H. unfold change_boxsize.
  apply calm_bind; [apply spec_lift |]. intros dims.
  apply calm_bind; [apply spec_load_universe |]. intros u.
  apply calm_bind; [apply spec_lift |]. intros u'.
  by apply spec_write_universe.
Qed.

End Commit.

Module ArtifactFacts.

Import StrFacts PathFacts.

Lemma join_suffix_nonempty (a b c : string) :
  b ≠ EmptyString → Path.join a (b +:+ c) = Path.join a b +:+ c.
Proof.
  intros Hb. destruct b as [|x b]; [done |]. unfold Path.join.
  change (String x b +:+ c) with (String x (b +:+ c)).
  cbn [Path.starts_with_sep].
  destruct (Path.is_sep x); [done |].
  destruct a as [|y a]; [done |].
  destruct (Path.ends_with_sep (String y a)); by rewrite !append_assoc.
Qed.

Lemma artifact_step (folder_path x ext : string) :
  artifact folder_path (Path.join folder_path ("embed_" +:+ x) +:+ ext) = true.
Proof.
  unfold artifact. rewrite join_suffix_nonempty by done.
  by rewrite append_assoc, prefix_app.
Qed.

Lemma artifact_step_plain (folder_path x : string) :
  artifact folder_path (Path.join folder_path ("embed_" +:+ x)) = true.
Proof.
  rewrite <- (append_nil_r (Path.join _ _)). apply artifact_step.
Qed.

Lemma artifact_beside (folder_path x : string) :
  artifact folder_path (folder_path +:+ "embed_raw" +:+ x) = true.
Proof.
  unfold artifact. rewrite <- append_assoc, prefix_app.
  apply orb_true_iff. left. apply orb_true_r.
Qed.

Lemma artifact_topol (folder_path : string) :
  artifact folder_path (Path.join folder_path "topol.top") = true.
Proof. unfold artifact. rewrite String.eqb_refl. apply orb_true_r. Qed.

Lemma artifact_ne (folder_path p q : string) :
  artifact folder_path p = false → artifact folder_path q = true → q ≠ p.
Proof. intros Hp Hq ->. congruence. Qed.

End ArtifactFacts.

Section CommitController.

Variables (P folder_path : string).
Hypothesis HP : artifact folder_path P = false.

Local Abbreviation spec := (spec P).

Lemma raw_ne (n : Z) : Path.join folder_path (raw_name n) ≠ P.
Proof.
  apply (ArtifactFacts.artifact_ne folder_path); [done |].
  apply (ArtifactFacts.artifact_step_plain _ ("raw" +:+ Str.of_Z n +:+ ".gro")).
Qed.

Lemma beside_ne (n : Z) : folder_path +:+ raw_name n ≠ P.
Proof.
  apply (ArtifactFacts.artifact_ne folder_path); [done |].
  apply (ArtifactFacts.artifact_beside _ (Str.of_Z n +:+ ".gro")).
Qed.

Lemma step_ne (n : Z) (ext : string) :
  Path.join folder_path (step_name n) +:+ ext ≠ P.
Proof.
  apply (ArtifactFacts.artifact_ne folder_path); [done |].
  apply ArtifactFacts.artifact_step.
Qed.

Lemma step_ext_ne (n : Z) (ext : string) :
  Path.join folder_path (step_name n +:+ ext) ≠ P.
Proof.
  apply (ArtifactFacts.artifact_ne folder_path); [done |].
  apply (ArtifactFacts.artifact_step_plain _ (Str.of_Z n +:+ ext)).
Qed.

Lemma topol_ne : Path.join folder_path "topol.top" ≠ P.
Proof.
  apply (ArtifactFacts.artifact_ne folder_path); [done |].
  apply ArtifactFacts.artifact_topol.
Qed.

(** One [minimize]: no run left, or one recorded outcome that is the
    result. *)
Definition minimize_post (c name : string)
    (r : run (option Z)) (evs : list event) : Prop :=
  (r = Starved ∧ evs = []) ∨
  ∃ res, evs = [Minimized c name res] ∧ r = to_run res.

Lemma spec_minimize (c : string) (n : Z) :
  spec (minimize c folder_path (step_name n)) (minimize_post c (step_name n)).
Proof.
  intros w. destruct (engine w) as [|r rs] eqn:E.
  - exists []. unfold minimize, mbind, M_bind, bindM, next_run. rewrite E.
    cbn. rewrite app_nil_r. split_and!; [done.. |]. by left.
  - rewrite (minimize_eq _ _ _ _ _ _ E).
    eexists. cbn [fst snd trace files]. split; [reflexivity |].
    split; [| right; eauto].
    destruct (r c (files w)).2;
      by rewrite !lookup_insert_ne by (apply step_ne || apply step_ext_ne).
Qed.

(** The retry loop of step [n]: an exception of [minimize] ends it, and it
    returns right after a [minimize] that succeeded. *)
Definition loop_post (c name : string) (r : run ()) (evs : list event) : Prop :=
  fatal_last r evs ∧
  (r = Returns () → last evs = Some (Minimized c name (Ok None))).

Lemma fatal_last_calm {A} (r : run A) (evs1 evs2 : list event) :
  Forall (λ ev, ¬ fatal ev) evs1 → fatal_last r evs2 →
  fatal_last r (evs1 ++ evs2).
Proof.
  intros H1 H2 c name e [Hin|Hin]%elem_of_app.
  - exfalso. by apply (proj1 (Forall_forall _ _) H1 _ Hin).
  - destruct (H2 c name e Hin) as [-> Hl]. split; [done |].
    rewrite last_app, Hl. done.
Qed.

Lemma fatal_last_none {A} (r : run A) (evs : list event) :
  Forall (λ ev, ¬ fatal ev) evs → fatal_last r evs.
Proof.
  intros H c name e Hin. exfalso.
  by apply (proj1 (Forall_forall _ _) H _ Hin).
Qed.

Lemma absorbing_loop_post (c name : string) : absorbing (loop_post c name).
Proof.
  split_and!.
  - intros r evs1 evs2 H1 [H2 H3]. split; [by apply fatal_last_calm |].
    intros Hr. rewrite last_app, (H3 Hr). done.
  - intros e evs H. split; [by apply fatal_last_none | done].
  - intros evs H. split; [by apply fatal_last_none | done].
Qed.

Lemma spec_minimize_loop (fuel : nat) (n : Z) (boxsize : string)
    (combined_universe : Universe) :
  spec (minimize_loop fuel folder_path n boxsize combined_universe)
       (loop_post (Path.join folder_path (raw_name n)) (step_name n)).
Proof.
  revert combined_universe.
  induction fuel as [|fuel IH]; intros combined_universe.
  - intros w. exists []. cbn. rewrite app_nil_r.
    split_and!; [done.. |]. split; [by apply fatal_last_none | done].
  - cbn [minimize_loop].
    apply spec_calm_then; [apply absorbing_loop_post | |].
    { apply spec_copyfile, topol_ne. }
    intros _.
    apply (spec_bind P _ _
             (minimize_post (Path.join folder_path (raw_name n))
                            (step_name n)));
      [apply spec_minimize | | |].
    + intros e evs [[? _]|(res & -> & Hr)]; [done |].
      destruct res as [a|e']; [done |]. cbn in Hr. injection Hr as ->.
      split; [| done].
      intros c name e0 Hin%list_elem_of_singleton.
      injection Hin as -> -> ->. done.
    + intros evs [[_ ->]|(res & -> & Hr)]; [| by destruct res].
      split; [by apply fatal_last_none | done].
    + intros a evs [[? _]|(res & -> & Hr)]; [done |].
      destruct res as [a'|]; [| done]. cbn in Hr. injection Hr as ->.
      assert (Forall (λ ev, ¬ fatal ev)
                [Minimized (Path.join folder_path (raw_name n)) (step_name n)
                           (Ok a')]) as Hcalm
        by (repeat constructor; by intros []).
      destruct a' as [k|].
      * apply (spec_mono P _
                 (loop_post (Path.join folder_path (raw_name n))
                            (step_name n)));
          [| intros r evs2; by apply absorbing_loop_post].
        apply spec_calm_then; [apply absorbing_loop_post | apply spec_lift |].
        intros sel.
        apply spec_calm_then; [apply absorbing_loop_post | apply spec_lift |].
        intros cu.
        apply spec_calm_then; [apply absorbing_loop_post | |].
        { apply spec_log_event. by intros []. }
        intros _.
        apply spec_calm_then; [apply absorbing_loop_post | |].
        { apply spec_write_universe, beside_ne. }
        intros _.
        apply spec_calm_then; [apply absorbing_loop_post | |].
        { apply spec_change_boxsize, raw_ne. }
        intros _. apply IH.
      * intros w. exists []. cbn. rewrite !app_nil_r.
        split_and!; [done.. |]. split; [by apply fatal_last_none | done].
Qed.

Lemma spec_minimize_until_success (n : Z) (boxsize : string)
    (combined_universe : Universe) :
  spec (minimize_until_success folder_path n boxsize combined_universe)
       (loop_post (Path.join folder_path (raw_name n)) (step_name n)).
Proof.
  intros w. unfold minimize_until_success.
  apply (spec_minimize_loop (S (length (engine w)))).
Qed.

Lemma fatal_last_returns {A} (a : A) (evs : list event) :
  fatal_last (Returns a) evs → Forall (λ ev, ¬ fatal ev) evs.
Proof.
  intros H. apply Forall_forall. intros ev Hin Hf.
  destruct ev as [| | |c name [|e]| | |]; try done.
  by destruct (H c name e Hin).
Qed.

(** The steps [ns]: an exception of [minimize] ends them, and they return
    right after the successful [minimize] of the last of them. *)
Definition steps_post (ns : list Z) (r : run ()) (evs : list event) : Prop :=
  fatal_last r evs ∧
  (r = Returns () → ∀ n, last ns = Some n →
     last evs = Some (Minimized (Path.join folder_path (raw_name n))
                                (step_name n) (Ok None))).

Lemma absorbing_steps_post (ns : list Z) : absorbing (steps_post ns).
Proof.
  split_and!.
  - intros r evs1 evs2 H1 [H2 H3]. split; [by apply fatal_last_calm |].
    intros Hr n Hn. rewrite last_app, (H3 Hr n Hn). done.
  - intros e evs H. split; [by apply fatal_last_none | done].
  - intros evs H. split; [by apply fatal_last_none | done].
Qed.

Lemma spec_compress (ns : list Z) (lipid_selection : string)
    (stepwise_compression : Qc) (boxsize : string) :
  spec (compress ns folder_path lipid_selection stepwise_compression boxsize)
       (λ r evs, (ns = [] → evs = []) ∧ steps_post ns r evs).
Proof.
  revert boxsize. induction ns as [|n ns IH]; intros boxsize.
  - intros w. exists []. cbn. rewrite app_nil_r.
    split_and!; [done.. |]. split; [by apply fatal_last_none | done].
  - cbn [compress].
    apply (spec_mono P _ (steps_post (n :: ns))); [| done].
    apply spec_calm_then;
      [apply absorbing_steps_post | apply spec_load_universe |].
    intros cu.
    apply spec_calm_then; [apply absorbing_steps_post | apply spec_lift |].
    intros protein.
    apply spec_calm_then; [apply absorbing_steps_post | apply spec_lift |].
    intros lipid.
    apply spec_calm_then; [apply absorbing_steps_post | apply spec_lift |].
    intros cu'.
    apply spec_calm_then; [apply absorbing_steps_post | apply spec_lift |].
    intros boxsize'.
    apply spec_calm_then; [apply absorbing_steps_post | |].
    { apply spec_write_universe, raw_ne. }
    intros _.
    apply spec_calm_then; [apply absorbing_steps_post | |].
    { apply spec_change_boxsize, raw_ne. }
    intros _.
    apply (spec_bind P _ _
             (loop_post (Path.join folder_path (raw_name n)) (step_name n)));
      [apply spec_minimize_until_success | | |].
    + intros e evs [Hf _]. split; [done | done].
    + intros evs [Hf _]. split; [done | done].
    + intros [] evs1 [Hf Hl]. specialize (Hl eq_refl).
      apply (spec_mono P _ _ _ (IH boxsize')).
      intros r evs2 [Hnil [Hf2 Hl2]]. split.
      * apply fatal_last_calm; [by eapply fatal_last_returns | done].
      * intros Hr m Hm. rewrite last_app. rewrite last_cons in Hm.
        destruct (last ns) as [m'|] eqn:E.
        -- injection Hm as ->. by rewrite (Hl2 Hr m eq_refl).
        -- injection Hm as ->.
           assert (ns = []) as Hns by (by destruct ns using rev_ind;
             [| rewrite last_snoc in E]).
           by rewrite (Hnil Hns).
Qed.

Lemma last_seqZ (steps : Z) : 1 ≤ steps → last (seqZ 1 steps) = Some steps.
Proof.
  intros H. replace steps with ((steps - 1) + 1) at 1 by lia.
  rewrite seqZ_app by lia.
  replace (1 + (steps - 1)) with steps by lia.
  apply last_snoc.
Qed.

Lemma spec_embed_steps (np_power : Qc → Qc → Qc)
    (lipid_path lipid_selection boxsize_line : string)
    (starting_scale end_scale : Qc) (steps : Z) :
  spec (embed_steps np_power P lipid_path folder_path lipid_selection
                    boxsize_line starting_scale end_scale steps)
       (steps_post (seqZ 1 steps)).
Proof.
  unfold embed_steps.
  apply spec_calm_then;
    [apply absorbing_steps_post | apply spec_load_universe |].
  intros pu.
  apply spec_calm_then;
    [apply absorbing_steps_post | apply spec_load_universe |].
  intros lu.
  apply spec_calm_then; [apply absorbing_steps_post | apply spec_lift |].
  intros lu'.
  apply spec_calm_then; [apply absorbing_steps_post | apply spec_lift |].
  intros boxsize.
  apply spec_calm_then; [apply absorbing_steps_post | apply spec_lift |].
  intros cu.
  assert (Path.join folder_path "embed_0.gro" ≠ P) as H0.
  { apply (ArtifactFacts.artifact_ne folder_path); [done |].
    apply (ArtifactFacts.artifact_step_plain _ "0.gro"). }
  apply spec_calm_then; [apply absorbing_steps_post | |].
  { by apply spec_write_universe. }
  intros _.
  apply spec_calm_then; [apply absorbing_steps_post | |].
  { by apply spec_change_boxsize. }
  intros _.
  apply spec_calm_then; [apply absorbing_steps_post | apply spec_lift |].
  intros ratio.
  apply (spec_mono P _ _ _ (spec_compress _ _ _ _)). by intros r evs [_ H].
Qed.

End CommitController.

(** C2.  Let the protein file be none of the working files of the
    controller and [steps] be at least 1.  Up to its last statement
    [embed_in_lipids] leaves the protein file as it found it; an exception
    raised by a [minimize], at any step or retry, is the last thing that
    happens and is the result of the whole call; when the steps return,
    the last thing that happened is the successful [minimize] of the last
    step, and only then is the minimized structure copied over the protein
    file.  Whenever the call does not return, the protein file is
    unchanged. *)
Theorem embed_in_lipids_commits_after_last_success
    (np_power : Qc → Qc → Qc)
    (protein_path lipid_path folder_path lipid_selection boxsize_line : string)
    (starting_scale end_scale : Qc) (steps : Z) (w : world) :
  artifact folder_path protein_path = false → 1 ≤ steps →
  let src := Path.join folder_path (step_name steps +:+ ".gro") in
  let before :=
    embed_steps np_power protein_path lipid_path folder_path lipid_selection
                boxsize_line starting_scale end_scale steps w in
  let after :=
    embed_in_lipids np_power protein_path lipid_path folder_path
                    lipid_selection boxsize_line starting_scale end_scale
                    steps w in
  ∃ evs,
    trace before.2 = trace w ++ evs ∧
    files before.2 !! protein_path = files w !! protein_path ∧
    fatal_last before.1 evs ∧
    match before.1 with
    | Returns _ =>
        last evs = Some (Minimized (Path.join folder_path (raw_name steps))
                                   (step_name steps) Success) ∧
        after = copyfile src protein_path before.2 ∧
        match after.1 with
        | Returns _ =>
            files after.2 !! protein_path = files before.2 !! src ∧
            trace after.2 = trace before.2 ++ [Copied src protein_path]
        | _ => after.2 = before.2
        end
    | _ => after = before
    end ∧
    (after.1 ≠ Returns () →
     files after.2 !! protein_path = files w !! protein_path).
Proof.
  intros HP Hsteps src before after.
  destruct (spec_embed_steps protein_path folder_path HP np_power lipid_path
              lipid_selection boxsize_line starting_scale end_scale steps w)
    as (evs & Ht & Hf & Hfl & Hl).
  fold before in Ht, Hf, Hfl, Hl.
  assert (src ≠ protein_path) as Hsrc by (by apply step_ext_ne).
  assert (after = match before.1 with
                  | Returns _ => copyfile src protein_path before.2
                  | _ => before
                  end) as Hafter.
  { unfold after, embed_in_lipids, mbind, M_bind, bindM. fold before.
    by destruct before as [[[]| |] w1]. }
  assert (Hcopy : ∀ w1,
            match (copyfile src protein_path w1).1 with
            | Returns _ =>
                files (copyfile src protein_path w1).2 !! protein_path
                  = files w1 !! src ∧
                trace (copyfile src protein_path w1).2
                  = trace w1 ++ [Copied src protein_path]
            | _ => (copyfile src protein_path w1).2 = w1
            end).
  { intros w1. unfold copyfile. case_decide; [done |]. unfold_world.
    destruct (files w1 !! src) as [f|] eqn:E; cbn [fst snd files trace];
      [| done].
    by rewrite lookup_insert_eq. }
  exists evs. split_and!; [done.. | |].
  - destruct before as [[[]| |] w1] eqn:E; cbn [fst snd] in *; [| done..].
    split_and!; [by apply Hl, last_seqZ | done |].
    rewrite Hafter. apply Hcopy.
  - intros Hnr. rewrite Hafter in Hnr |- *.
    destruct before as [[[]| |] w1] eqn:E; cbn [fst snd] in *; [| done..].
    specialize (Hcopy w1).
    destruct (copyfile src protein_path w1) as [[[]| |] w2];
      cbn [fst snd] in *; [done | by subst w2..].
Qed.

Lemma embed_in_lipids_commits_after_last_success_witness :
  let w := Scenario.fatal_start "work" in
  let after :=
    embed_in_lipids Scenario.power_one "protein.gro" "lipid.gro" "work"
      "resname POPC" "   7.00000   7.00000   9.00000"
      (Qc_of_Z 2) (Qc_of_Z 1) 1 w in
  artifact "work" "protein.gro" = false ∧
  after.1 = Raises (ValueError fatal_message) ∧
  files after.2 !! "protein.gro"%string = files w !! "protein.gro"%string.
Proof.
  intros w after.
  destruct (embed_in_lipids_commits_after_last_success Scenario.power_one
              "protein.gro" "lipid.gro" "work" "resname POPC"
              "   7.00000   7.00000   9.00000" (Qc_of_Z 2) (Qc_of_Z 1) 1 w)
    as (evs & _ & _ & _ & _ & H); [reflexivity | lia |].
  split_and!; [reflexivity | compute_done |].
  apply H. change (after.1 ≠ Returns ()).
  assert (after.1 = Raises (ValueError fatal_message)) as -> by compute_done.
  discriminate.
Defined.

(** * Further properties of the code *)

(** ** [change_boxsize] *)

Lemma mapR_Ok_Forall2 {A B} (f : A → result B) (l : list A) (ys : list B) :
  mapR f l = Ok ys ↔ Forall2 (λ x y, f x = Ok y) l ys.
Proof.
  revert ys. induction l as [|x l IH]; intros ys; cbn [mapR].
  - split; [intros [= <-]; constructor | intros ->%Forall2_nil_inv_l; done].
  - split.
    + destruct (f x) as [y|e] eqn:Hx; [|done].
      destruct (mapR f l) as [ys'|e] eqn:Hl; [|done].
      intros [= <-]. constructor; [done | by apply IH].
    + intros (y' & ys'' & Hy & Hys & ->)%Forall2_cons_inv_l.
      apply IH in Hys. by rewrite Hy, Hys.
Qed.

(** X1.  For a structure file and a line whose fields are all numbers,
    [change_boxsize] is all or nothing.  With exactly three fields it
    returns: the file then holds the same atoms with the box
    [10 x, 10 y, 10 z, 90, 90, 90], and no other file changes.  With any
    other number of fields it raises a [ValueError] and the world is as
    it was: the line is parsed and the box is checked before the file is
    written. *)
Theorem change_boxsize_all_or_nothing
    (file_to_process boxsize_line : string) (w : world) (u : Universe)
    (vs : list Qc) :
  files w !! file_to_process = Some (Structure u) →
  Forall2 (λ f v, Float.of_string f = Some v)
          (Str.split_ws boxsize_line) vs →
  let r := change_boxsize file_to_process boxsize_line w in
  (length vs = 3%nat →
   r.1 = Returns () ∧
   files r.2 =
     <[file_to_process :=
         Structure
           {| atoms := atoms u;
              dimensions :=
                Some (map (λ v, v * Qc_of_Z 10)%Qc vs ++
                      [Qc_of_Z 90; Qc_of_Z 90; Qc_of_Z 90]) |}]>
       (files w) ∧
   trace r.2 = trace w ++ [Wrote file_to_process]) ∧
  (length vs ≠ 3%nat → (∃ msg, r.1 = Raises (ValueError msg)) ∧ r.2 = w).
Proof.
  intros Hf Hp r. unfold r, change_boxsize.
  set (conv := λ x : string, _ : result Qc).
  assert (mapR conv (Str.split_ws boxsize_line)
          = Ok (map (λ v, v * Qc_of_Z 10)%Qc vs)) as ->.
  { apply mapR_Ok_Forall2, Forall2_fmap_r.
    eapply Forall2_impl; [exact Hp |].
    intros f v Hv. unfold conv. by rewrite Hv. }
  unfold_world. rewrite Hf. unfold set_dimensions.
  rewrite length_app, length_map. cbn [length].
  split; intros Hlen.
  - case_decide; [| lia]. unfold write_universe. unfold_world. done.
  - case_decide; [lia |]. cbn [fst snd]. split; [eauto | by destruct w].
Qed.

Lemma change_boxsize_all_or_nothing_witness :
  let u := mkUniverse [mkAtom "ALA" (Vec3 0 0 0)]%Qc None in
  let w := {| files := {[ "work/embed_0.gro"%string := Structure u ]};
              engine := []; trace := [] |} in
  (change_boxsize "work/embed_0.gro" "   7.00000   7.00000   9.00000" w).1
    = Returns () ∧
  (change_boxsize "work/embed_0.gro" "   7.00000   7.00000" w).2 = w.
Proof.
  intros u w. split.
  - destruct (change_boxsize_all_or_nothing "work/embed_0.gro"
                "   7.00000   7.00000   9.00000" w u
                [Qc_of_Z 7; Qc_of_Z 7; Qc_of_Z 9]) as [H _];
      [reflexivity | compute_done |].
    by destruct (H eq_refl) as (H1 & _).
  - destruct (change_boxsize_all_or_nothing "work/embed_0.gro"
                "   7.00000   7.00000" w u [Qc_of_Z 7; Qc_of_Z 7]) as [_ H];
      [reflexivity | compute_done |].
    destruct H as [_ H2]; [discriminate | exact H2].
Defined.

(** ** [minimize] *)

(** X3.  [minimize] does not look for the minimized structure: when the
    run leaves none and its log carries no marker, the call still returns
    [None], and [name.gro] in [folder_path] is whatever it was before the
    call, an older structure or no file at all. *)
Theorem minimize_success_without_structure
    (c folder_path name : string) (w : world)
    (r : engine_run) (rs : list engine_run) :
  engine w = r :: rs →
  (r c (files w)).2 = None →
  Forall quiet (Str.readlines (r c (files w)).1) →
  let after := minimize c folder_path name w in
  after.1 = Returns None ∧
  files after.2 !! Path.join folder_path (name +:+ ".gro")
    = files w !! Path.join folder_path (name +:+ ".gro").
Proof.
  intros He Hnone Hquiet after. unfold after.
  rewrite (minimize_eq _ _ _ _ _ _ He). cbv zeta. cbn [fst snd files].
  rewrite Hnone. split.
  - rewrite <- (app_nil_r (Str.readlines _)).
    by rewrite (scan_log_quiet _ [] Hquiet).
  - rewrite (PathFacts.join_suffix folder_path name ".gro") by done.
    rewrite lookup_insert_ne.
    2:{ intros H%PathFacts.append_inj_l. discriminate. }
    rewrite lookup_insert_ne; [done |].
    rewrite (PathFacts.join_suffix folder_path name ".tpr") by done.
    intros H%PathFacts.append_inj_l. discriminate.
Qed.

Lemma minimize_success_without_structure_witness :
  let w := {| files := {[ "work/em.gro" := Text "stale" ]};
              engine := [λ _ _, ("Steepest Descents converged", None)];
              trace := [] |} in
  (minimize "in.gro" "work" "em" w).1 = Returns None ∧
  files (minimize "in.gro" "work" "em" w).2 !! "work/em.gro"
    = Some (Text "stale").
Proof.
  intros w.
  destruct (minimize_success_without_structure "in.gro" "work" "em" w
              (λ _ _, ("Steepest Descents converged", None)) [])
    as [H1 H2]; [done | done | | ].
  - cbn. repeat constructor; compute_done.
  - split; [exact H1 | exact H2].
Defined.

(** ** [stretch_relative] *)

Section ScalerMore.

Local Open Scope Qc_scope.

Lemma universe_ext (v v' : Universe) :
  length (atoms v') = length (atoms v) →
  dimensions v' = dimensions v →
  (∀ i a, atoms v !! i = Some a → atoms v' !! i = Some a) →
  v' = v.
Proof.
  destruct v as [l d], v' as [l' d']. cbn. intros Hlen -> Hat. f_equal.
  apply list_eq. intros i. destruct (l !! i) as [a|] eqn:E.
  - by apply Hat.
  - apply lookup_ge_None in E. apply lookup_ge_None. lia.
Qed.

Lemma pow_mul (s t : Qc) (n : nat) : s ^ n * t ^ n = (s * t) ^ n.
Proof.
  induction n as [|n IH]; [done |]. cbn [Qcpower]. rewrite <- IH. ring.
Qed.

Lemma center_same_positions (u u' : Universe) (ix : list nat) :
  group_positions u' ix = group_positions u ix → center u' ix = center u ix.
Proof. unfold center. by intros ->. Qed.

(** X4.  Two calls of [stretch_relative] on the same groups, with the
    factors [s] and then [t] and the anchor atoms standing where they
    stood, give the universe of one call with the factor [s * t]. *)
Theorem stretch_relative_composes
    (u u1 : Universe) (to_strech : list nat)
    (anchor_u anchor_u1 : Universe) (anchor : list nat) (s t : Qc) :
  in_range u to_strech → in_range anchor_u anchor → anchor ≠ [] →
  stretch_relative u to_strech anchor_u anchor s = Ok u1 →
  group_positions anchor_u1 anchor = group_positions anchor_u anchor →
  stretch_relative u1 to_strech anchor_u1 anchor t
  = stretch_relative u to_strech anchor_u anchor (s * t).
Proof.
  intros Hr Hra Hne H1 Hsame.
  destruct (center_mean anchor_u anchor Hra Hne) as (c & Hc & _).
  destruct (stretch_loop_spec c s to_strech u Hr)
    as (u1' & Hl & Hlen & Hdim & Hat).
  unfold stretch_relative in H1 |- *.
  rewrite (center_same_positions _ _ _ Hsame), Hc in *.
  rewrite Hl in H1. injection H1 as <-.
  destruct (stretch_loop_spec c t to_strech u1')
    as (u2 & Hl2 & Hlen2 & Hdim2 & Hat2).
  { unfold in_range. by rewrite Hlen. }
  destruct (stretch_loop_spec c (s * t) to_strech u Hr)
    as (u3 & Hl3 & Hlen3 & Hdim3 & Hat3).
  rewrite Hl2, Hl3. f_equal.
  assert (∀ i, atoms u2 !! i = atoms u3 !! i) as Hsame_atoms.
  { intros i. destruct (atoms u !! i) as [a|] eqn:E.
    - rewrite (Hat2 i _ (Hat i a E)), (Hat3 i a E).
      cbn [set_position position resname].
      by rewrite scaled_scaled, pow_mul.
    - apply lookup_ge_None in E.
      rewrite (proj2 (lookup_ge_None (atoms u2) i)) by lia.
      by rewrite (proj2 (lookup_ge_None (atoms u3) i)) by lia. }
  destruct u2 as [l2 d2], u3 as [l3 d3]. cbn in *. f_equal.
  - by apply list_eq.
  - congruence.
Qed.

Lemma stretch_relative_composes_witness :
  let a x y z := mkAtom "POPC" (Vec3 (Qc_of_Z x) (Qc_of_Z y) (Qc_of_Z z)) in
  let u := mkUniverse [a 0 0 0; a 2 4 0; a 5 1 7; a (-3) 9 1]%Z None in
  ∃ u1, stretch_relative u [2; 3]%nat u [0; 1]%nat (Qc_of_Z 2) = Ok u1 ∧
        stretch_relative u1 [2; 3]%nat u1 [0; 1]%nat (Qc_of_Z 3)
        = stretch_relative u [2; 3]%nat u [0; 1]%nat (Qc_of_Z 2 * Qc_of_Z 3).
Proof.
  intros a u.
  destruct (stretch_relative u [2; 3]%nat u [0; 1]%nat (Qc_of_Z 2))
    as [u1|e] eqn:H1; [| vm_compute in H1; discriminate H1].
  exists u1. split; [done |].
  apply (stretch_relative_composes u u1 [2; 3]%nat u u1 [0; 1]%nat);
    [repeat constructor | repeat constructor | done | exact H1 |].
  apply (anchor_untouched u u1 [2; 3]%nat [0; 1]%nat (Qc_of_Z 2) u
           [0; 1]%nat);
    [repeat constructor | repeat constructor | done | exact H1 |].
  intros i Hi. set_unfold. lia.
Defined.

(** X5.  For groups of atoms of their universes, [stretch_relative] raises
    exactly when there is an atom to move and the anchor group is empty,
    and what it raises is [IndexError]: an empty moving group is accepted
    with any anchor, and the universe comes back as it was. *)
Theorem stretch_relative_raises_iff_empty_anchor
    (u : Universe) (to_strech : list nat)
    (anchor_u : Universe) (anchor : list nat) (scale_factor : Qc) :
  in_range u to_strech → in_range anchor_u anchor →
  (to_strech = [] →
     stretch_relative u to_strech anchor_u anchor scale_factor = Ok u) ∧
  (to_strech ≠ [] → anchor = [] →
     stretch_relative u to_strech anchor_u anchor scale_factor
     = Raise IndexError) ∧
  (∀ e, stretch_relative u to_strech anchor_u anchor scale_factor = Raise e →
        to_strech ≠ [] ∧ anchor = [] ∧ e = IndexError).
Proof.
  intros Hr Hra. split_and!.
  - by intros ->.
  - intros Hne ->. destruct to_strech; done.
  - intros e He. destruct anchor as [|j anchor].
    + destruct to_strech; [done |]. cbn in He. by simplify_eq.
    + destruct (center_mean anchor_u (j :: anchor) Hra) as (c & Hc & _);
        [done |].
      destruct (stretch_loop_spec c scale_factor to_strech u Hr)
        as (u' & Hl & _).
      unfold stretch_relative in He. rewrite Hc, Hl in He. done.
Qed.

Lemma stretch_relative_raises_iff_empty_anchor_witness :
  let a x y z := mkAtom "POPC" (Vec3 (Qc_of_Z x) (Qc_of_Z y) (Qc_of_Z z)) in
  let u := mkUniverse [a 0 0 0; a 2 4 0; a 5 1 7]%Z None in
  stretch_relative u [1; 2]%nat u [] (Qc_of_Z 2) = Raise IndexError.
Proof.
  intros a u.
  destruct (stretch_relative_raises_iff_empty_anchor u [1; 2]%nat u []
              (Qc_of_Z 2)) as (_ & H & _);
    [repeat constructor | constructor | by apply H].
Defined.

Lemma Qc_of_nat_S (n : nat) : Qc_of_nat (S n) = 1 + Qc_of_nat n.
Proof.
  unfold Qc_of_nat, Qc_of_Z. apply Qc_is_canon. cbn [this Qcplus Q2Qc].
  rewrite !Qred_correct. change (this 1) with 1%Q.
  rewrite Nat2Z.inj_succ. unfold Z.succ, Qeq, inject_Z, Qplus. cbn. lia.
Qed.

Lemma sum_scaled (c : vec3) (s : Qc) (ps : list vec3) :
  sum_of vx (scaled c s <$> ps)
  = Qc_of_nat (length ps) * vx c
    + s * (sum_of vx ps - Qc_of_nat (length ps) * vx c) ∧
  sum_of vy (scaled c s <$> ps)
  = Qc_of_nat (length ps) * vy c
    + s * (sum_of vy ps - Qc_of_nat (length ps) * vy c) ∧
  sum_of vz (scaled c s <$> ps) = sum_of vz ps.
Proof.
  induction ps as [|p ps (Hx & Hy & Hz)].
  - unfold sum_of. cbn. split_and!; [| | done].
    + change (Qc_of_nat 0) with 0. ring.
    + change (Qc_of_nat 0) with 0. ring.
  - unfold sum_of in *. cbn [fmap list_fmap foldr length].
    rewrite Hx, Hy, Hz, Qc_of_nat_S. unfold scaled. cbn [vx vy vz].
    split_and!; ring.
Qed.

(** The positions of a group after the loop, when no atom is visited
    twice. *)
Lemma group_positions_stretched (c : vec3) (s : Qc) (ix : list nat)
    (u u' : Universe) :
  NoDup ix → in_range u ix →
  stretch_loop (Some c) s ix u = Ok u' →
  group_positions u' ix = scaled c s <$> group_positions u ix.
Proof.
  intros Hnd Hr Hl.
  destruct (stretch_loop_spec c s ix u Hr) as (u'' & Hl' & _ & _ & Hat).
  rewrite Hl in Hl'. injection Hl' as <-.
  assert (∀ l, (∀ i, i ∈ l → i ∈ ix) →
            group_positions u' l = scaled c s <$> group_positions u l) as H.
  { unfold group_positions. induction l as [|i l IH]; intros Hsub; [done |].
    cbn [omap list_omap].
    rewrite IH by (intros j Hj; apply Hsub; set_solver).
    assert (i ∈ ix) as Hi by (apply Hsub; set_solver).
    destruct (atoms u !! i) as [a|] eqn:E.
    - rewrite (Hat i a E), count_occ_NoDup by done. cbn.
      by rewrite Qcmult_1_r.
    - apply lookup_ge_None in E.
      assert (i < length (atoms u))%nat
        by (by apply (proj1 (Forall_forall _ _) Hr)).
      lia. }
  by apply H.
Qed.

(** X6.  Scaling a non-empty group without repeated atoms about its own
    centre moves its atoms but not its centre. *)
Theorem stretch_relative_keeps_own_center
    (u u1 : Universe) (group : list nat) (scale_factor : Qc) :
  NoDup group → in_range u group → group ≠ [] →
  stretch_relative u group u group scale_factor = Ok u1 →
  center u1 group = center u group.
Proof.
  intros Hnd Hr Hne H1.
  destruct (center_mean u group Hr Hne) as (c & Hc & Hx & Hy & Hz).
  unfold stretch_relative in H1. rewrite Hc in H1.
  pose proof (group_positions_stretched c scale_factor group u u1 Hnd Hr H1)
    as Hps.
  destruct (stretch_loop_spec c scale_factor group u Hr)
    as (u' & Hl & Hlen & _).
  rewrite H1 in Hl. injection Hl as <-.
  destruct (center_mean u1 group) as (c1 & Hc1 & Hx1 & Hy1 & Hz1);
    [unfold in_range; by rewrite Hlen | done |].
  rewrite Hc, Hc1. f_equal.
  destruct (sum_scaled c scale_factor (group_positions u group))
    as (Hsx & Hsy & Hsz).
  rewrite (group_positions_length u group Hr) in Hsx, Hsy.
  rewrite Hps in Hx1, Hy1, Hz1.
  rewrite Hsx, <- Hx in Hx1. rewrite Hsy, <- Hy in Hy1.
  rewrite Hsz, <- Hz in Hz1.
  assert (Qc_of_nat (length group) ≠ 0) as Hn
    by (apply Qc_of_nat_nonzero; by destruct group).
  assert (∀ x y, Qc_of_nat (length group) * x = Qc_of_nat (length group) * y
                 → x = y) as Hcancel.
  { intros x y Hxy.
    replace x with (Qc_of_nat (length group) * x / Qc_of_nat (length group))
      by (field; done).
    rewrite Hxy. field. done. }
  destruct c as [cx cy cz], c1 as [x1 y1 z1]. cbn [vx vy vz] in *.
  f_equal; apply Hcancel.
  - rewrite Hx1. ring.
  - rewrite Hy1. ring.
  - done.
Qed.

Lemma stretch_relative_keeps_own_center_witness :
  let a x y z := mkAtom "POPC" (Vec3 (Qc_of_Z x) (Qc_of_Z y) (Qc_of_Z z)) in
  let u := mkUniverse [a 0 0 0; a 2 4 0; a 5 1 7; a (-3) 9 1]%Z None in
  ∃ u1, stretch_relative u [1; 2; 3]%nat u [1; 2; 3]%nat (Qc_of_Z 2) = Ok u1 ∧
        center u1 [1; 2; 3]%nat = center u [1; 2; 3]%nat.
Proof.
  intros a u.
  destruct (stretch_relative u [1; 2; 3]%nat u [1; 2; 3]%nat (Qc_of_Z 2))
    as [u1|e] eqn:H1; [| vm_compute in H1; discriminate H1].
  exists u1. split; [done |].
  apply (stretch_relative_keeps_own_center u u1 [1; 2; 3]%nat (Qc_of_Z 2));
    [compute_done | repeat constructor | done | exact H1].
Defined.

End ScalerMore.

(** ** [stretch_boxsize] *)

(** X7.  What [stretch_boxsize] raises is the [ValueError] of [float] or
    the [IndexError] of the subscript into the scale list.  A [ValueError]
    comes from one of the first four fields, which is not a number; an
    [IndexError] comes only with more than three fields. *)
Theorem stretch_boxsize_exceptions
    (boxsize_line : string) (scale_factor : Qc) (e : exn) :
  stretch_boxsize boxsize_line scale_factor = Raise e →
  ((∃ msg, e = ValueError msg) ∧
   Exists (λ x, Float.of_string x = None)
          (take 4 (Str.split_ws boxsize_line))) ∨
  (e = IndexError ∧ (3 < length (Str.split_ws boxsize_line))%nat).
Proof.
  unfold stretch_boxsize, enumerate.
  destruct (Str.split_ws boxsize_line) as [|x0 xs];
    cbn [length seq zip zip_with mapR take]; unfold scaled_field;
    cbn [fst snd]; [done |].
  destruct (Float.of_string x0) as [v0|] eqn:E0; cbn;
    [| intros [= <-]; left; split; [eauto | by left]].
  destruct xs as [|x1 xs]; cbn [length seq zip zip_with mapR take];
    cbn [fst snd]; [done |].
  destruct (Float.of_string x1) as [v1|] eqn:E1; cbn;
    [| intros [= <-]; left; split; [eauto | right; by left]].
  destruct xs as [|x2 xs]; cbn [length seq zip zip_with mapR take];
    cbn [fst snd]; [done |].
  destruct (Float.of_string x2) as [v2|] eqn:E2; cbn;
    [| intros [= <-]; left; split; [eauto | do 2 right; by left]].
  destruct xs as [|x3 xs]; cbn [length seq zip zip_with mapR take];
    cbn [fst snd]; [done |].
  destruct (Float.of_string x3) as [v3|] eqn:E3; cbn.
  - intros [= <-]. right. split; [done | lia].
  - intros [= <-]. left. split; [eauto | do 3 right; by left].
Qed.

Lemma stretch_boxsize_exceptions_witness :
  ((∃ msg, ValueError "could not convert string to float" = ValueError msg) ∧
   Exists (λ x, Float.of_string x = None)
          (take 4 (Str.split_ws "   7.00000   box   9.00000"))) ∨
  (ValueError "could not convert string to float" = IndexError ∧
   (3 < length (Str.split_ws "   7.00000   box   9.00000"))%nat).
Proof.
  apply (stretch_boxsize_exceptions "   7.00000   box   9.00000"
           (Qc_of_Z 2)).
  reflexivity.
Defined.

(** The line that comes back for at most three numeric fields. *)
Lemma stretch_boxsize_render (boxsize_line : string) (scale_factor : Qc)
    (vs : list Qc) :
  (length (Str.split_ws boxsize_line) ≤ 3)%nat →
  Forall2 (λ x v, Float.of_string x = Some v) (Str.split_ws boxsize_line) vs →
  stretch_boxsize boxsize_line scale_factor
  = Ok (FloatFacts.render
          (map Float.str5
             (zip_with (λ v sc, Float.round5 (v * sc)) vs
                       [scale_factor; scale_factor; 1%Qc]))).
Proof.
  intros Hlen Hnum. unfold stretch_boxsize, FloatFacts.render.
  destruct (Str.split_ws boxsize_line) as [|x0 [|x1 [|x2 [|x3 xs]]]];
    cbn [length] in Hlen; try lia;
    repeat match goal with
           | H : Forall2 _ (_ :: _) _ |- _ =>
               apply Forall2_cons_inv_l in H as (? & ? & ? & H & ->)
           | H : Forall2 _ [] _ |- _ => apply Forall2_nil_inv_l in H as ->
           end;
    unfold enumerate; cbn [length seq zip zip_with mapR];
    unfold scaled_field; cbn [fst snd];
    repeat match goal with
           | H : Float.of_string _ = Some _ |- _ => rewrite H; clear H
           end;
    reflexivity.
Qed.

(** X8.  A line that [stretch_boxsize] has returned is a fixed point of
    scaling by 1: when every rendering after the first is shorter than 10
    characters, so that the fields stay apart, [stretch_boxsize] with the
    factor 1 reads the line back and returns it unchanged.  Rounding to
    five decimals and printing lose nothing the second time. *)
Theorem stretch_boxsize_unit_factor_fixes_output
    (boxsize_line : string) (scale_factor : Qc) (vs : list Qc) :
  (length (Str.split_ws boxsize_line) ≤ 3)%nat →
  Forall2 (λ x v, Float.of_string x = Some v) (Str.split_ws boxsize_line) vs →
  Forall (λ f, (String.length f < 10)%nat)
         (tail (map Float.str5
                  (zip_with (λ v sc, Float.round5 (v * sc)) vs
                            [scale_factor; scale_factor; 1%Qc]))) →
  ∃ out,
    stretch_boxsize boxsize_line scale_factor = Ok out ∧
    stretch_boxsize out 1%Qc = Ok out.
Proof.
  intros Hlen Hnum Hnarrow.
  set (rounded := zip_with _ vs _) in *.
  set (fields := map Float.str5 rounded) in *.
  exists (FloatFacts.render fields). split.
  { by apply stretch_boxsize_render. }
  assert (Str.split_ws (FloatFacts.render fields) = fields) as Hsplit.
  { apply FloatFacts.split_ws_render; [| done].
    unfold fields. apply Forall_map, Forall_forall. intros k _.
    split; [apply FloatFacts.str5_nonempty | apply FloatFacts.str5_no_space]. }
  assert (length rounded ≤ 3)%nat as Hlr.
  { unfold rounded. rewrite length_zip_with. cbn [length]. lia. }
  rewrite (stretch_boxsize_render _ _ (map Float.value5 rounded)).
  - do 3 f_equal. clearbody rounded. clear -Hlr.
    destruct rounded as [|k0 [|k1 [|k2 [|k3 ks]]]];
      cbn [length] in Hlr; try lia; cbn [map zip_with];
      by rewrite ?Qcmult_1_r, ?FloatFacts.round5_value5.
  - rewrite Hsplit. unfold fields. rewrite length_map. done.
  - rewrite Hsplit. unfold fields.
    apply Forall2_fmap, Forall_Forall2_diag, Forall_forall.
    intros k _. apply FloatFacts.of_string_str5.
Qed.

Lemma stretch_boxsize_unit_factor_fixes_output_witness :
  ∃ out,
    stretch_boxsize "   7.00000   7.12346   9.00000
" (Qc_of_Z 2) = Ok out ∧
    stretch_boxsize out 1%Qc = Ok out.
Proof.
  apply (stretch_boxsize_unit_factor_fixes_output _ _
           [Qc_of_Z 7; Float.value5 712346; Qc_of_Z 9]).
  - vm_compute. lia.
  - compute_done.
  - compute_done.
Defined.

(** ** [edit_last_line] *)

Lemma readlines_nil (s : string) : Str.readlines s = [] ↔ s = EmptyString.
Proof.
  split; [| by intros ->]. unfold Str.readlines. intros H.
  apply StrFacts.universal_newlines_nil.
  destruct (Str.universal_newlines s) as [|c t]; [done |].
  cbn [Str.lines] in H. destruct (Ascii.eqb c "010"); [done |].
  destruct (Str.lines t); done.
Qed.


(** X10.  Writing back the last line that a file without carriage return
    already has changes nothing: [edit_last_line] returns the file system
    it was given. *)
Theorem edit_last_line_same_line_is_identity
    (file_to_process content last : string) (pre : list string)
    (fs : gmap string string) :
  fs !! file_to_process = Some content →
  Str.no_cr content = true →
  Str.readlines content = pre ++ [last] →
  edit_last_line file_to_process last fs = Ok fs.
Proof.
  intros Hf Hcr Hr.
  assert (content ≠ EmptyString) as Hne.
  { intros ->. by destruct pre. }
  destruct (StrFacts.readlines_snoc content Hne)
    as (pre' & last' & Hr' & Hs & _).
  rewrite Hr in Hr'. apply app_inj_tail in Hr' as [<- <-].
  rewrite StrFacts.universal_newlines_id in Hs by done.
  unfold edit_last_line. rewrite Hf, Hr.
  destruct (pre ++ [last]) eqn:E; [by destruct pre |].
  rewrite <- E, removelast_last, StrFacts.writelines_app, <- Hs.
  by rewrite insert_id.
Qed.

Lemma edit_last_line_same_line_is_identity_witness :
  edit_last_line "f.gro" "   7.0   7.0   9.0
" {[ "f.gro"%string := "title
   7.0   7.0   9.0
"%string ]}
  = Ok {[ "f.gro"%string := "title
   7.0   7.0   9.0
"%string ]}.
Proof.
  apply (edit_last_line_same_line_is_identity "f.gro" "title
   7.0   7.0   9.0
" _ ["title
"%string]); reflexivity.
Defined.

(** X11.  Of two calls on the same file the last one wins, provided the
    first replacement is a single line: the result of replacing the last
    line by [first] and then by [second] is the result of replacing it by
    [second] at once.  (A replacement of several lines, or an empty one,
    changes the number of lines, and the second call then replaces
    another line.) *)
Theorem edit_last_line_last_call_wins
    (file_to_process first second : string)
    (fs fs1 : gmap string string) :
  Str.readlines first = [first] →
  edit_last_line file_to_process first fs = Ok fs1 →
  edit_last_line file_to_process second fs1
  = edit_last_line file_to_process second fs.
Proof.
  intros Hone H1. unfold edit_last_line in *.
  destruct (fs !! file_to_process) as [content|] eqn:Hf; [| done].
  destruct (decide (content = EmptyString)) as [->|Hne]; [done |].
  destruct (StrFacts.readlines_snoc content Hne)
    as (pre & last & Hr & Hs & Ht).
  rewrite Hr in H1 |- *.
  destruct (pre ++ [last]) eqn:E; [by destruct pre |].
  rewrite <- E in *. clear E.
  rewrite removelast_last, StrFacts.writelines_app in H1 |- *.
  injection H1 as <-.
  rewrite lookup_insert_eq, Ht, Hone.
  destruct (pre ++ [first]) eqn:E; [by destruct pre |].
  rewrite <- E, removelast_last, StrFacts.writelines_app.
  by rewrite insert_insert_eq.
Qed.

Lemma edit_last_line_last_call_wins_witness :
  let fs : gmap string string := {[ "f.gro"%string := "title
   7.0   7.0   9.0
"%string ]} in
  ∃ fs1,
    edit_last_line "f.gro" "   8.0   8.0   9.0
" fs = Ok fs1 ∧
    edit_last_line "f.gro" "   6.0   6.0   9.0
" fs1
    = edit_last_line "f.gro" "   6.0   6.0   9.0
" fs.
Proof.
  intros fs. eexists. split; [reflexivity |].
  apply (edit_last_line_last_call_wins "f.gro" "   8.0   8.0   9.0
"); reflexivity.
Defined.

(** ** Index groups: clean-up and unknown groups *)

Section IndexMore.

Variable default_groups : Universe → list string.

(** [generate_membrane_index(file_to_process, folder_path)] *)
Definition generate_membrane_index (file_to_process folder_path : string)
    : M unit :=
  index_list ← parse_indexkey_to_list default_groups file_to_process;
  water_ions_index ← lift (of_option (ValueError "is not in list")
                             (list_index "Water_and_ions" index_list));
  make_ndx default_groups file_to_process (Path.join folder_path "index.ndx")
    ["!" +:+ Str.of_Z (Z.of_nat water_ions_index);
     "name " +:+ Str.of_Z (Z.of_nat water_ions_index + 1) +:+ " Membrane";
     "q"%string].

Lemma list_index_None (x : string) (l : list string) :
  list_index x l = None ↔ x ∉ l.
Proof.
  induction l as [|y l IH]; cbn [list_index].
  - split; [intros _; apply not_elem_of_nil | done].
  - destruct (String.eqb y x) eqn:E.
    + apply String.eqb_eq in E as ->. split; [done |].
      intros H. exfalso. apply H. left.
    + apply String.eqb_neq in E.
      destruct (list_index x l) as [i|]; cbn.
      * split; [done |]. intros H. exfalso.
        apply not_elem_of_cons in H as [_ H]. by apply IH in H.
      * split; [| done]. intros _. apply not_elem_of_cons.
        split; [done | by apply IH].
Qed.

(** The position [l.index(x)] gives is the first one that holds [x]. *)
Lemma list_index_first (x : string) (l : list string) (i : nat) :
  list_index x l = Some i → ∀ j, (j < i)%nat → l !! j ≠ Some x.
Proof.
  revert i. induction l as [|y l IH]; intros i H j Hj; [done |].
  cbn [list_index] in H. destruct (String.eqb y x) eqn:E.
  - simplify_eq. lia.
  - apply String.eqb_neq in E.
    destruct (list_index x l) as [i'|] eqn:Hi; [| done].
    cbn in H. simplify_eq. destruct j as [|j]; cbn.
    + congruence.
    + apply (IH i'); [done | lia].
Qed.


(** X13.  [generate_posre] for a group the structure does not have raises
    the [ValueError] of [list.index], whatever [exclude_res] is, before
    the restraint tool is called: the only tool run is the one that lists
    the groups, and no file is written that outlives the call. *)
Theorem generate_posre_unknown_group
    (file_to_process folder_path group : string) (exclude_res : list Z)
    (w : world) (u : Universe) :
  files w !! file_to_process = Some (Structure u) →
  group ∉ default_groups u →
  let tmp0 := Path.join (Path.dirname file_to_process) "temp.ndx" in
  let after :=
    generate_posre default_groups file_to_process folder_path group
                   exclude_res w in
  after.1 = Raises (ValueError "is not in list") ∧
  trace after.2 = trace w ++
    [MakeNdx file_to_process tmp0 [EmptyString; "q"%string]; Removed tmp0] ∧
  files after.2 = delete tmp0 (files w).
Proof.
  intros Hf Hg tmp0 after.
  apply list_index_None in Hg.
  assert (after =
            (Raises (ValueError "is not in list"),
             {| files := delete tmp0 (files w); engine := engine w;
                trace := trace w ++
                  [MakeNdx file_to_process tmp0 [EmptyString; "q"%string];
                   Removed tmp0] |})) as ->; [| done].
  unfold after, generate_posre.
  unfold mbind at 1, M_bind, bindM.
  rewrite (parse_indexkey_to_list_eq default_groups file_to_process w u Hf).
  cbv zeta. unfold mbind at 1, M_bind, bindM. by rewrite Hg.
Qed.

(** X14.  [generate_membrane_index] for a structure without the group
    [Water_and_ions] raises the [ValueError] of [list.index] and writes no
    [index.ndx].  Otherwise it runs the index tool once more, on the same
    structure, with the output [index.ndx] in [folder_path] and the
    commands [!w], [name w+1 Membrane] and [q], where [w] is the first
    position of [Water_and_ions] among the generated groups; unlike the
    temporary index, [index.ndx] stays. *)
Theorem generate_membrane_index_commands
    (file_to_process folder_path : string) (w : world) (u : Universe) :
  files w !! file_to_process = Some (Structure u) →
  let tmp0 := Path.join (Path.dirname file_to_process) "temp.ndx" in
  let index := Path.join folder_path "index.ndx" in
  let after := generate_membrane_index file_to_process folder_path w in
  tmp0 ≠ file_to_process →
  ("Water_and_ions"%string ∉ default_groups u →
   after.1 = Raises (ValueError "is not in list") ∧
   trace after.2 = trace w ++
     [MakeNdx file_to_process tmp0 [EmptyString; "q"%string]; Removed tmp0] ∧
   files after.2 = delete tmp0 (files w)) ∧
  (∀ i,
     default_groups u !! i = Some "Water_and_ions"%string →
     (∀ j, (j < i)%nat →
           default_groups u !! j ≠ Some "Water_and_ions"%string) →
     after.1 = Returns () ∧
     trace after.2 = trace w ++
       [MakeNdx file_to_process tmp0 [EmptyString; "q"%string];
        Removed tmp0;
        MakeNdx file_to_process index
          ["!" +:+ Str.of_Z (Z.of_nat i);
           "name " +:+ Str.of_Z (Z.of_nat i + 1) +:+ " Membrane";
           "q"%string]] ∧
     is_Some (files after.2 !! index) ∧
     (∀ p, p ≠ index → p ≠ tmp0 → files after.2 !! p = files w !! p)).
Proof.
  intros Hf tmp0 index after Htmp0.
  assert (Hparse := parse_indexkey_to_list_eq default_groups
                      file_to_process w u Hf).
  cbv zeta in Hparse. fold tmp0 in Hparse.
  split.
  - intros Hg. apply list_index_None in Hg.
    assert (after =
              (Raises (ValueError "is not in list"),
               {| files := delete tmp0 (files w); engine := engine w;
                  trace := trace w ++
                    [MakeNdx file_to_process tmp0 [EmptyString; "q"%string];
                     Removed tmp0] |})) as ->; [| done].
    unfold after, generate_membrane_index.
    unfold mbind at 1, M_bind, bindM. rewrite Hparse.
    unfold mbind at 1, M_bind, bindM. by rewrite Hg.
  - intros i Hi Hfirst.
    assert (list_index "Water_and_ions" (default_groups u) = Some i) as Hw.
    { destruct (list_index "Water_and_ions" (default_groups u)) as [i'|] eqn:E.
      - pose proof (list_index_lookup _ _ _ E) as Hi'.
        pose proof (list_index_first _ _ _ E) as Hfirst'.
        f_equal. destruct (Nat.lt_total i i') as [Hlt | [-> | Hlt]]; [| done |].
        + by destruct (Hfirst' i Hlt).
        + by destruct (Hfirst i' Hlt).
      - apply list_index_None in E. destruct E.
        by apply list_elem_of_lookup_2 in Hi. }
    assert (after =
              (Returns (),
               {| files :=
                    <[index :=
                        Index (default_groups u ++
                               script_groups
                                 ["!" +:+ Str.of_Z (Z.of_nat i);
                                  "name " +:+ Str.of_Z (Z.of_nat i + 1)
                                    +:+ " Membrane";
                                  "q"%string])]>
                      (delete tmp0 (files w));
                  engine := engine w;
                  trace := (trace w ++
                    [MakeNdx file_to_process tmp0 [EmptyString; "q"%string];
                     Removed tmp0]) ++
                    [MakeNdx file_to_process index
                       ["!" +:+ Str.of_Z (Z.of_nat i);
                        "name " +:+ Str.of_Z (Z.of_nat i + 1) +:+ " Membrane";
                        "q"%string]] |})) as ->.
    { unfold after, generate_membrane_index.
      unfold mbind at 1, M_bind, bindM. rewrite Hparse.
      unfold mbind at 1, M_bind, bindM. rewrite Hw.
      unfold of_option, lift, ret. fold index.
      erewrite make_ndx_eq
        by (cbn [files]; rewrite lookup_delete_ne by done; exact Hf).
      done. }
    cbn [fst snd files trace]. split_and!.
    + done.
    + by rewrite <- app_assoc.
    + rewrite lookup_insert_eq. eauto.
    + intros p Hp Hp0. by rewrite lookup_insert_ne, lookup_delete_ne.
Qed.

End IndexMore.


Lemma generate_posre_unknown_group_witness :
  let dg := λ _ : Universe, ["System"; "Protein"; "SOL"]%string in
  let u := mkUniverse [mkAtom "ALA" (Vec3 0 0 0)]%Qc None in
  let w := {| files := {[ "work/conf.gro"%string := Structure u ]};
              engine := []; trace := [] |} in
  (generate_posre dg "work/conf.gro" "work" "Lipid" [3; 7] w).1
    = Raises (ValueError "is not in list") ∧
  files (generate_posre dg "work/conf.gro" "work" "Lipid" [3; 7] w).2
    !! "work/posre.itp"%string = None.
Proof.
  intros dg u w.
  destruct (generate_posre_unknown_group dg "work/conf.gro" "work" "Lipid"
              [3; 7] w u) as (H1 & _ & H3); [reflexivity | compute_done |].
  split; [exact H1 |]. rewrite H3. reflexivity.
Defined.

Lemma generate_membrane_index_commands_witness :
  let dg := λ _ : Universe, ["System"; "Water_and_ions"; "SOL"]%string in
  let u := mkUniverse [mkAtom "POPC" (Vec3 0 0 0)]%Qc None in
  let w := {| files := {[ "work/conf.gro"%string := Structure u ]};
              engine := []; trace := [] |} in
  (generate_membrane_index dg "work/conf.gro" "work" w).1 = Returns () ∧
  trace (generate_membrane_index dg "work/conf.gro" "work" w).2 =
    [MakeNdx "work/conf.gro" "work/temp.ndx" [EmptyString; "q"%string];
     Removed "work/temp.ndx";
     MakeNdx "work/conf.gro" "work/index.ndx"
             ["!1"; "name 2 Membrane"; "q"]%string].
Proof.
  intros dg u w.
  destruct (generate_membrane_index_commands dg "work/conf.gro" "work" w u)
    as [_ H]; [reflexivity | vm_compute; discriminate |].
  destruct (H 1%nat) as (H1 & H2 & _); [reflexivity | |].
  - intros [|j] Hj; [discriminate | lia].
  - split; [exact H1 | exact H2].
Defined.

(** ** The controller and the engine *)

Section EngineUse.

(** A computation that asks the engine for no run: the script is as it
    was, and the result is not the request for a run that is not there. *)
Definition idle {A} (m : M A) : Prop :=
  ∀ w, engine (m w).2 = engine w ∧ (m w).1 ≠ Starved.

(** A computation that cannot return from a world whose engine script
    satisfies [I]. *)
Definition stuck (I : list engine_run → Prop) {A} (m : M A) : Prop :=
  ∀ w, I (engine w) → ∀ x, (m w).1 ≠ Returns x.

Lemma idle_bind {A B} (m : M A) (k : A → M B) :
  idle m → (∀ a, idle (k a)) → idle (m ≫= k).
Proof.
  intros Hm Hk w. unfold mbind, M_bind, bindM. destruct (Hm w) as [He Hs].
  destruct (m w) as [[a|e|] w']; cbn [fst snd] in *; [| done..].
  destruct (Hk a w') as [He' Hs']. by rewrite He'.
Qed.

Lemma idle_ret {A} (a : A) : idle (ret a).
Proof. done. Qed.

Lemma idle_raise {A} (e : exn) : idle (@raise A e).
Proof. done. Qed.

Lemma idle_lift {A} (r : result A) : idle (lift r).
Proof. by destruct r. Qed.

Lemma idle_log_event (ev : event) : idle (log_event ev).
Proof. done. Qed.

Lemma idle_put_file (path : string) (f : file) : idle (put_file path f).
Proof. done. Qed.

Lemma idle_get_file (path : string) : idle (get_file path).
Proof. intros w. unfold get_file. by destruct (files w !! path). Qed.

Lemma idle_load_universe (path : string) : idle (load_universe path).
Proof.
  unfold load_universe. apply idle_bind; [apply idle_get_file |].
  by intros [].
Qed.

Lemma idle_write_universe (u : Universe) (path : string) :
  idle (write_universe u path).
Proof.
  unfold write_universe. apply idle_bind; [apply idle_put_file |].
  intros _. apply idle_log_event.
Qed.

Lemma idle_copyfile (src dst : string) : idle (copyfile src dst).
Proof.
  unfold copyfile. case_decide; [apply idle_raise |].
  apply idle_bind; [apply idle_get_file |]. intros f.
  apply idle_bind; [apply idle_put_file |]. intros _. apply idle_log_event.
Qed.

Lemma idle_change_boxsize (path boxsize_line : string) :
  idle (change_boxsize path boxsize_line).
Proof.
  unfold change_boxsize.
  apply idle_bind; [apply idle_lift |]. intros dims.
  apply idle_bind; [apply idle_load_universe |]. intros u.
  apply idle_bind; [apply idle_lift |]. intros u'.
  apply idle_write_universe.
Qed.

Lemma idle_raise_bind {A B} (e : exn) (k : A → M B) :
  idle (lift (Raise e) ≫= k).
Proof. done. Qed.

Lemma stuck_bind_idle (I : list engine_run → Prop) {A B}
    (m : M A) (k : A → M B) :
  idle m → (∀ a, stuck I (k a)) → stuck I (m ≫= k).
Proof.
  intros Hm Hk w HI x. unfold mbind, M_bind, bindM.
  destruct (Hm w) as [He _].
  destruct (m w) as [[a|e|] w']; cbn [fst snd] in *; [| done..].
  apply Hk. by rewrite He.
Qed.

Lemma stuck_bind_l (I : list engine_run → Prop) {A B}
    (m : M A) (k : A → M B) :
  stuck I m → stuck I (m ≫= k).
Proof.
  intros Hm w HI x. unfold mbind, M_bind, bindM. specialize (Hm w HI).
  destruct (m w) as [[a|e|] w']; cbn [fst snd] in *; [| done..].
  by destruct (Hm a).
Qed.

Lemma stuck_raise_bind (I : list engine_run → Prop) {A B}
    (e : exn) (k : A → M B) :
  stuck I (lift (Raise e) ≫= k).
Proof. done. Qed.

(** A run of the engine whose log reports an atom overlap, whatever it is
    given. *)
Definition overlapping (r : engine_run) : Prop :=
  ∀ c fs, ∃ k, scan_log (Str.readlines (r c fs).1) = Ok (Some k).

(** X15.  The retry loop has no bound of its own: it ends when a
    minimization reports no overlap or when something raises.  Against an
    engine whose every run reports an overlap it never returns, however
    many runs there are: each run is followed by a perturbation and one
    more run. *)
Theorem minimize_loop_retries_without_bound
    (fuel : nat) (folder_path : string) (n : Z) (boxsize : string)
    (combined_universe : Universe) (w : world) :
  Forall overlapping (engine w) →
  ∀ x, (minimize_loop fuel folder_path n boxsize combined_universe w).1
       ≠ Returns x.
Proof.
  revert combined_universe w.
  change (∀ combined_universe,
            stuck (Forall overlapping)
                  (minimize_loop fuel folder_path n boxsize
                                 combined_universe)).
  induction fuel as [|fuel IH]; intros cu; [by intros w _ x |].
  cbn [minimize_loop].
  apply stuck_bind_idle; [apply idle_copyfile |]. intros [].
  intros w HI x. unfold mbind at 1, M_bind, bindM.
  destruct (engine w) as [|r rs] eqn:He.
  - unfold minimize, mbind, M_bind, bindM, next_run. by rewrite He.
  - apply Forall_cons in HI as [Hr Hrs].
    rewrite (minimize_eq _ _ _ _ _ _ He). cbv zeta.
    destruct (Hr (Path.join folder_path (raw_name n)) (files w)) as [k Hk].
    rewrite Hk. cbn [to_run].
    revert x. apply stuck_bind_idle with (I := Forall overlapping);
      [apply idle_lift | | done].
    intros sel. apply stuck_bind_idle; [apply idle_lift |]. intros cu'.
    apply stuck_bind_idle; [apply idle_log_event |]. intros [].
    apply stuck_bind_idle; [apply idle_write_universe |]. intros [].
    apply stuck_bind_idle; [apply idle_change_boxsize |]. intros [].
    apply IH.
Qed.

Lemma minimize_loop_retries_without_bound_witness :
  let a x := mkAtom "POPC" (Vec3 (Qc_of_Z x) 0 0)%Qc in
  let u := mkUniverse [a 0; a 1]%Z None in
  let run : engine_run := λ _ _, ("step 0: inf on atom 2"%string, None) in
  let w := {| files := {[ "work/template.top"%string := Text "top";
                          "work/embed_raw1.gro"%string := Structure u ]};
              engine := [run; run; run]; trace := [] |} in
  (minimize_loop 10 "work/" 1 "   7.0   7.0   9.0" u w).1 ≠ Returns () ∧
  (minimize_loop 10 "work/" 1 "   7.0   7.0   9.0" u w).1 = Starved.
Proof.
  intros a u run w. split.
  - apply (minimize_loop_retries_without_bound 10 "work/" 1
             "   7.0   7.0   9.0" u w).
    repeat constructor; intros c fs; by exists 2.
  - vm_compute. reflexivity.
Defined.

Lemma load_universe_eq (path : string) (w : world) (u : Universe) :
  files w !! path = Some (Structure u) → load_universe path w = (Returns u, w).
Proof. intros H. unfold_world. by rewrite H. Qed.

(** Whether it returns or raises, [change_boxsize] leaves a structure file
    with the atoms it had. *)
Lemma change_boxsize_keeps_atoms (path boxsize_line : string) (w : world)
    (u : Universe) :
  files w !! path = Some (Structure u) →
  ∃ u', files (change_boxsize path boxsize_line w).2 !! path
        = Some (Structure u') ∧ atoms u' = atoms u.
Proof.
  intros H. unfold change_boxsize.
  destruct (mapR _ _) as [dims|e]; unfold_world; [| eauto].
  rewrite H. unfold set_dimensions. case_decide; cbn [fst snd files]; [| eauto].
  unfold write_universe. unfold_world. rewrite lookup_insert_eq. eauto.
Qed.

Section ControllerEdge.

Variable np_power : Qc → Qc → Qc.

Lemma embed_steps_zero_division
    (protein_path lipid_path folder_path lipid_selection boxsize_line : string)
    (starting_scale end_scale : Qc) (steps : Z) :
  starting_scale = 0%Qc ∨ steps = 0 →
  idle (embed_steps np_power protein_path lipid_path folder_path
                    lipid_selection boxsize_line starting_scale end_scale
                    steps) ∧
  stuck (λ _, True)
        (embed_steps np_power protein_path lipid_path folder_path
                     lipid_selection boxsize_line starting_scale end_scale
                     steps).
Proof.
  intros Hzero.
  assert (stepwise_ratio np_power starting_scale end_scale steps
          = Raise ZeroDivisionError) as Hratio.
  { unfold stepwise_ratio. repeat case_decide; try done.
    by destruct Hzero. }
  unfold embed_steps. rewrite Hratio. split.
  - apply idle_bind; [apply idle_load_universe |]. intros pu.
    apply idle_bind; [apply idle_load_universe |]. intros lu.
    apply idle_bind; [apply idle_lift |]. intros lu'.
    apply idle_bind; [apply idle_lift |]. intros boxsize.
    apply idle_bind; [apply idle_lift |]. intros cu.
    apply idle_bind; [apply idle_write_universe |]. intros _.
    apply idle_bind; [apply idle_change_boxsize |]. intros _.
    apply idle_raise_bind.
  - apply stuck_bind_idle; [apply idle_load_universe |]. intros pu.
    apply stuck_bind_idle; [apply idle_load_universe |]. intros lu.
    apply stuck_bind_idle; [apply idle_lift |]. intros lu'.
    apply stuck_bind_idle; [apply idle_lift |]. intros boxsize.
    apply stuck_bind_idle; [apply idle_lift |]. intros cu.
    apply stuck_bind_idle; [apply idle_write_universe |]. intros _.
    apply stuck_bind_idle; [apply idle_change_boxsize |]. intros _.
    apply stuck_raise_bind.
Qed.

(** X16.  With [steps = 0], or with [starting_scale = 0], the call of
    [embed_in_lipids] always ends in an exception (at the latest the
    division by zero in the computation of the stepwise ratio, which comes
    after the initial embed has been written).  No minimization is run,
    and a protein file that is none of the working files of the controller
    is left as it was. *)
Theorem embed_in_lipids_zero_division
    (protein_path lipid_path folder_path lipid_selection boxsize_line : string)
    (starting_scale end_scale : Qc) (steps : Z) (w : world) :
  starting_scale = 0%Qc ∨ steps = 0 →
  let after :=
    embed_in_lipids np_power protein_path lipid_path folder_path
                    lipid_selection boxsize_line starting_scale end_scale
                    steps w in
  (∃ e, after.1 = Raises e) ∧
  engine after.2 = engine w ∧
  (artifact folder_path protein_path = false →
   files after.2 !! protein_path = files w !! protein_path) ∧
  (∀ u1 u2 u2' line cu,
     files w !! protein_path = Some (Structure u1) →
     files w !! lipid_path = Some (Structure u2) →
     stretch_relative u2 (all_atoms u2) u1 (all_atoms u1) starting_scale
       = Ok u2' →
     stretch_boxsize boxsize_line starting_scale = Ok line →
     Merge u1 u2' = Ok cu →
     ∃ u0, files after.2 !! Path.join folder_path "embed_0.gro"
           = Some (Structure u0) ∧ atoms u0 = atoms u1 ++ atoms u2').
Proof.
  intros Hzero after.
  destruct (embed_steps_zero_division protein_path lipid_path folder_path
              lipid_selection boxsize_line starting_scale end_scale steps
              Hzero) as [Hidle Hstuck].
  set (before :=
         embed_steps np_power protein_path lipid_path folder_path
                     lipid_selection boxsize_line starting_scale end_scale
                     steps w).
  assert (after = before) as Heq.
  { unfold after, embed_in_lipids, mbind, M_bind, bindM. fold before.
    pose proof (Hstuck w I) as Hs. fold before in Hs.
    destruct before as [[x|e|] w']; [by destruct (Hs x) | done..]. }
  rewrite Heq. destruct (Hidle w) as [He Hs]. fold before in He, Hs.
  pose proof (Hstuck w I) as Hr. fold before in Hr.
  split_and!.
  - destruct before.1 as [x|e|] eqn:E; [by destruct (Hr x) | eauto | done].
  - done.
  - intros HP.
    destruct (spec_embed_steps protein_path folder_path HP np_power
                lipid_path lipid_selection boxsize_line starting_scale
                end_scale steps w) as (evs & _ & Hf & _).
    exact Hf.
  - intros u1 u2 u2' line cu Hp Hl Hsr Hsb Hm.
    assert (stepwise_ratio np_power starting_scale end_scale steps
            = Raise ZeroDivisionError) as Hratio.
    { unfold stepwise_ratio. repeat case_decide; try done.
      by destruct Hzero. }
    assert (atoms cu = atoms u1 ++ atoms u2') as Hcu.
    { unfold Merge in Hm. destruct (atoms u1), (atoms u2'); by simplify_eq. }
    set (p0 := Path.join folder_path "embed_0.gro").
    set (w1 := {| files := <[p0 := Structure cu]> (files w);
                  engine := engine w; trace := trace w ++ [Wrote p0] |}).
    destruct (change_boxsize_keeps_atoms p0 line w1 cu) as (u0 & Hu0 & Ha0).
    { apply lookup_insert_eq. }
    exists u0. split; [| congruence]. rewrite <- Hu0.
    unfold before, embed_steps. fold p0.
    unfold mbind at 1, M_bind, bindM.
    rewrite (load_universe_eq _ _ _ Hp).
    unfold mbind at 1, M_bind, bindM.
    rewrite (load_universe_eq _ _ _ Hl).
    unfold mbind at 1, M_bind, bindM. rewrite Hsr. cbn [lift ret].
    unfold mbind at 1, M_bind, bindM. rewrite Hsb. cbn [lift ret].
    unfold mbind at 1, M_bind, bindM. rewrite Hm. cbn [lift ret].
    unfold mbind at 1, M_bind, bindM.
    change (write_universe cu p0 w) with (Returns (), w1).
    unfold mbind at 1, M_bind, bindM.
    rewrite Hratio.
    by destruct (change_boxsize p0 line w1) as [[[]|e|] w2].
Qed.

End ControllerEdge.

End EngineUse.

Lemma embed_in_lipids_zero_division_witness :
  let after :=
    embed_in_lipids Scenario.power_one "protein.gro" "lipid.gro" "work"
      "resname POPC" "   7.00000   7.00000   9.00000"
      (Qc_of_Z 2) (Qc_of_Z 1) 0 (Scenario.start "work") in
  (∃ e, after.1 = Raises e) ∧
  engine after.2 = [Scenario.overlap_run; Scenario.success_run] ∧
  files after.2 !! "protein.gro"%string = Some (Structure Scenario.protein).
Proof.
  intros after.
  destruct (embed_in_lipids_zero_division Scenario.power_one "protein.gro"
              "lipid.gro" "work" "resname POPC"
              "   7.00000   7.00000   9.00000" (Qc_of_Z 2) (Qc_of_Z 1) 0
              (Scenario.start "work")) as (H1 & H2 & H3 & _); [by right |].
  split_and!; [exact H1 | exact H2 |].
  unfold after. rewrite H3; reflexivity.
Defined.

(** ** [crop_top_to_itp]

    Files are seen as text, as for [edit_last_line]. *)

(** [l[-2]] *)
Definition second_last {A} (l : list A) : result A :=
  of_option IndexError
    (if decide (2 ≤ length l)%nat then l !! (length l - 2)%nat else None).

(** [l[i:j]] for [0 <= i] and any integer [j]: a negative [j] counts from
    the end, and both ends are clipped to the list. *)
Definition slice {A} (l : list A) (i : nat) (j : Z) : list A :=
  let n := Z.of_nat (length l) in
  let stop := if j <? 0 then Z.max 0 (n + j) else Z.min j n in
  let start := Z.min (Z.of_nat i) n in
  take (Z.to_nat (stop - start)) (drop (Z.to_nat start) l).

Definition moleculetype_line : string := "[ moleculetype ]
".
Definition include_posre_line : string := "; Include Position restraint file
".

(** [crop_top_to_itp(file)] *)
Definition crop_top_to_itp (file : string) (fs : gmap string string)
    : result (gmap string string) :=
  root ← second_last (Str.split ".top" file);
  let new_file := root +:+ ".itp" in
  content ← of_option (FileNotFoundError file) (fs !! file);
  let data := Str.readlines content in
  first ← of_option (ValueError "is not in list")
                    (list_index moleculetype_line data);
  stop ← of_option (ValueError "is not in list")
                   (list_index include_posre_line data);
  let itp := slice data first (Z.of_nat stop - 1) in
  let fs := <[new_file := Str.writelines itp]> fs in
  match fs !! file with
  | Some _ => Ok (delete file fs)
  | None => Raise (FileNotFoundError file)
  end.

Module CropFacts.

Import Str StrFacts.

Lemma prefix_within (x s t : string) :
  String.prefix x (s +:+ t) = true →
  (String.length x ≤ String.length s)%nat →
  String.prefix x s = true.
Proof.
  revert s. induction x as [|c x IH]; intros s Hp Hl.
  - by destruct s.
  - destruct s as [|d s]; simpl in *; [lia |].
    destruct (ascii_dec c d); [| done]. apply IH; [done | lia].
Qed.

(** The text before the first occurrence of the separator is the first
    piece. *)
Lemma split_first (c0 : ascii) (sep' a rest : string) :
  char_in c0 sep' = false →
  contains (String c0 sep') a = false →
  split (String c0 sep') (a +:+ String c0 sep' +:+ rest)
  = a :: split (String c0 sep') rest.
Proof.
  intros Hc0. unfold split. set (sep := String c0 sep').
  induction a as [|x a IH]; intros Ha.
  - change (EmptyString +:+ sep +:+ rest) with (String c0 (sep' +:+ rest)).
    cbn [split_go].
    change (String c0 (sep' +:+ rest)) with (sep +:+ rest).
    rewrite prefix_app.
    replace (String.length sep - 1)%nat with (String.length sep')
      by (simpl; lia).
    by rewrite split_go_skip.
  - cbn [contains] in Ha. apply orb_false_elim in Ha as [Hp Ha].
    change (String x a +:+ sep +:+ rest) with (String x (a +:+ sep +:+ rest)).
    cbn [split_go].
    destruct (String.prefix sep (String x (a +:+ sep +:+ rest))) eqn:Hp'.
    + exfalso.
      destruct (decide (String.length sep' ≤ String.length a)%nat) as [Hl|Hl].
      * change (String x (a +:+ sep +:+ rest))
          with (String x a +:+ sep +:+ rest) in Hp'.
        apply prefix_within in Hp'; [congruence | simpl; lia].
      * unfold sep in Hp'. simpl in Hp'.
        destruct (ascii_dec c0 x); [| done].
        apply prefix_hits_char in Hp'; [congruence | lia].
    + by rewrite (IH Ha).
Qed.

Lemma split_top (base : string) :
  contains ".top" base = false → split ".top" (base +:+ ".top") = [base; ""].
Proof.
  intros H.
  rewrite <- (append_nil_r (base +:+ ".top")), append_assoc.
  by rewrite (split_first "." "top" base "" eq_refl H).
Qed.

Lemma list_index_app (x : string) (pre rest : list string) :
  x ∉ pre → list_index x (pre ++ x :: rest) = Some (length pre).
Proof.
  induction pre as [|y pre IH]; intros Hx; cbn [app list_index length].
  - by rewrite String.eqb_refl.
  - apply not_elem_of_cons in Hx as [Hxy Hx].
    destruct (String.eqb y x) eqn:E; [apply String.eqb_eq in E; congruence |].
    by rewrite (IH Hx).
Qed.

End CropFacts.

(** The call on a file [base.top] that has both markers. *)
Lemma crop_top_to_itp_eq (base content : string) (first stop : nat)
    (fs : gmap string string) :
  Str.contains ".top" base = false →
  fs !! (base +:+ ".top") = Some content →
  list_index moleculetype_line (Str.readlines content) = Some first →
  list_index include_posre_line (Str.readlines content) = Some stop →
  crop_top_to_itp (base +:+ ".top") fs
  = Ok (delete (base +:+ ".top")
          (<[base +:+ ".itp" :=
               Str.writelines
                 (slice (Str.readlines content) first (Z.of_nat stop - 1))]>
             fs)).
Proof.
  intros Hbase Hf Hi Hj.
  assert (base +:+ ".itp" ≠ base +:+ ".top") as Hne.
  { intros H%PathFacts.append_inj_l. discriminate. }
  unfold crop_top_to_itp, second_last.
  rewrite (CropFacts.split_top base Hbase).
  cbn [length]. case_decide; [| lia].
  cbn [Nat.sub lookup list_lookup of_option mbind result_bind].
  rewrite Hf. cbn [of_option mbind result_bind].
  rewrite Hi, Hj. cbn [of_option mbind result_bind].
  by rewrite lookup_insert_ne, Hf.
Qed.

(** X17.  [crop_top_to_itp] takes the name of the new file from the
    pieces of the old name around [.top] before it opens anything: for a
    name in which [.top] does not occur there is no second-last piece, and
    the call raises [IndexError] whether or not the file exists. *)
Theorem crop_top_to_itp_name_without_top
    (file : string) (fs : gmap string string) :
  Str.contains ".top" file = false →
  crop_top_to_itp file fs = Raise IndexError.
Proof.
  intros H. unfold crop_top_to_itp.
  by rewrite (StrFacts.split_no_occurrence _ _ H).
Qed.

Lemma crop_top_to_itp_name_without_top_witness :
  crop_top_to_itp "topol.itp" {[ "topol.itp"%string := "[ moleculetype ]
"%string ]} = Raise IndexError.
Proof. apply crop_top_to_itp_name_without_top. reflexivity. Defined.

(** X18.  For a file [base.top] whose lines are: lines without the two
    markers, the [moleculetype] line, a body without the include marker,
    one more line, the include marker, and anything after it,
    [crop_top_to_itp] writes to [base.itp] the [moleculetype] line and
    the body, leaving out the line just before the include marker as well
    as the marker and what follows, and removes [base.top].  No other
    file changes. *)
Theorem crop_top_to_itp_keeps_moleculetype_section
    (base content : string) (pre body post : list string) (before : string)
    (fs : gmap string string) :
  Str.contains ".top" base = false →
  fs !! (base +:+ ".top") = Some content →
  Str.readlines content
  = pre ++ moleculetype_line :: body ++ before :: include_posre_line :: post →
  moleculetype_line ∉ pre → include_posre_line ∉ pre →
  include_posre_line ∉ body → before ≠ include_posre_line →
  ∃ fs',
    crop_top_to_itp (base +:+ ".top") fs = Ok fs' ∧
    fs' !! (base +:+ ".itp")
      = Some (Str.writelines (moleculetype_line :: body)) ∧
    fs' !! (base +:+ ".top") = None ∧
    ∀ p, p ≠ base +:+ ".itp" → p ≠ base +:+ ".top" → fs' !! p = fs !! p.
Proof.
  intros Hbase Hf Hr Hm1 Hi1 Hi2 Hb.
  assert (base +:+ ".itp" ≠ base +:+ ".top") as Hne.
  { intros H%PathFacts.append_inj_l. discriminate. }
  rewrite (crop_top_to_itp_eq base content (length pre)
             (length (pre ++ moleculetype_line :: body ++ [before])) fs
             Hbase Hf).
  2:{ rewrite Hr. by apply CropFacts.list_index_app. }
  2:{ rewrite Hr.
      replace (pre ++ moleculetype_line :: body ++
                 before :: include_posre_line :: post)
        with ((pre ++ moleculetype_line :: body ++ [before]) ++
                include_posre_line :: post)
        by (rewrite <- !app_assoc; cbn; by rewrite <- app_assoc).
      apply CropFacts.list_index_app.
      rewrite !not_elem_of_app, not_elem_of_cons, not_elem_of_app.
      split_and!; [done | done | done |].
      rewrite not_elem_of_cons. split; [done | apply not_elem_of_nil]. }
  rewrite Hr.
  eexists. split; [reflexivity |]. split_and!.
  - rewrite lookup_delete_ne, lookup_insert_eq by done. do 2 f_equal.
    unfold slice. rewrite !length_app. cbn [length].
    rewrite !length_app. cbn [length].
    set (n := length pre). set (m := length body). set (k := length post).
    assert ((Z.of_nat (n + S (m + 1)) - 1 <? 0) = false) as ->
      by (apply Z.ltb_ge; lia).
    match goal with
    | |- take ?a (drop ?b _) = _ =>
        replace a with (length (moleculetype_line :: body))
          by (cbn [length]; lia);
        replace b with n by lia
    end.
    unfold n. rewrite drop_app_length.
    rewrite app_comm_cons. by rewrite take_app_length.
  - apply lookup_delete_eq.
  - intros p Hp1 Hp2. by rewrite lookup_delete_ne, lookup_insert_ne.
Qed.

Lemma crop_top_to_itp_keeps_moleculetype_section_witness :
  ∃ fs',
    crop_top_to_itp "lipid.top" {[ "lipid.top"%string := "#include ff
[ moleculetype ]
POPC 3
[ atoms ]

; Include Position restraint file
#include posre
"%string ]} = Ok fs' ∧
    fs' !! "lipid.itp"%string = Some "[ moleculetype ]
POPC 3
[ atoms ]
"%string ∧
    fs' !! "lipid.top"%string = None.
Proof.
  destruct (crop_top_to_itp_keeps_moleculetype_section "lipid" "#include ff
[ moleculetype ]
POPC 3
[ atoms ]

; Include Position restraint file
#include posre
" ["#include ff
"%string] ["POPC 3
"%string; "[ atoms ]
"%string] ["#include posre
"%string] "
" {[ "lipid.top"%string := "#include ff
[ moleculetype ]
POPC 3
[ atoms ]

; Include Position restraint file
#include posre
"%string ]}) as (fs' & H1 & H2 & H3 & _);
    [reflexivity | reflexivity | reflexivity | compute_done.. | ].
  exists fs'. split_and!; [exact H1 | exact H2 | exact H3].
Defined.

(** X19.  When the include marker comes before the [moleculetype] line,
    [crop_top_to_itp] still writes [base.itp] and removes [base.top], but
    the section is lost: the new file is empty.  The one exception is an
    include marker on the very first line: the end of the slice is then
    [-1], which counts from the end, and the new file holds the lines from
    the [moleculetype] line to the second-last line of the file. *)
Theorem crop_top_to_itp_include_before_moleculetype
    (base content : string) (pre mid body : list string) (final : string)
    (fs : gmap string string) :
  Str.contains ".top" base = false →
  fs !! (base +:+ ".top") = Some content →
  Str.readlines content
  = pre ++ include_posre_line :: mid ++ moleculetype_line :: body ++ [final] →
  include_posre_line ∉ pre → moleculetype_line ∉ pre →
  moleculetype_line ∉ mid →
  ∃ fs',
    crop_top_to_itp (base +:+ ".top") fs = Ok fs' ∧
    fs' !! (base +:+ ".top") = None ∧
    fs' !! (base +:+ ".itp")
      = Some (match pre with
              | [] => Str.writelines (moleculetype_line :: body)
              | _ => EmptyString
              end).
Proof.
  intros Hbase Hf Hr Hi Hm1 Hm2.
  assert (base +:+ ".itp" ≠ base +:+ ".top") as Hne.
  { intros H%PathFacts.append_inj_l. discriminate. }
  rewrite (crop_top_to_itp_eq base content
             (length (pre ++ include_posre_line :: mid)) (length pre) fs
             Hbase Hf).
  2:{ rewrite Hr.
      replace (pre ++ include_posre_line :: mid ++
                 moleculetype_line :: body ++ [final])
        with ((pre ++ include_posre_line :: mid) ++
                moleculetype_line :: body ++ [final])
        by (by rewrite <- app_assoc).
      apply CropFacts.list_index_app.
      rewrite not_elem_of_app, not_elem_of_cons. split_and!; done. }
  2:{ rewrite Hr. by apply CropFacts.list_index_app. }
  rewrite Hr. eexists. split; [reflexivity |]. split.
  { apply lookup_delete_eq. }
  rewrite lookup_delete_ne, lookup_insert_eq by done. f_equal.
  unfold slice. rewrite !length_app. cbn [length].
  rewrite !length_app. cbn [length]. rewrite length_app. cbn [length].
  set (m := length mid). set (k := length body).
  destruct pre as [|l pre].
  - cbn [length app]. f_equal.
    change (Z.of_nat 0 - 1 <? 0) with true. cbv iota.
    match goal with
    | |- take ?a (drop ?b _) = _ =>
        replace a with (length (moleculetype_line :: body))
          by (cbn [length]; lia);
        replace b with (length (include_posre_line :: mid))
          by (cbn [length]; lia)
    end.
    rewrite app_comm_cons, drop_app_length.
    rewrite app_comm_cons. by rewrite take_app_length.
  - cbn [length].
    assert ((Z.of_nat (S (length pre)) - 1 <? 0) = false) as ->
      by (apply Z.ltb_ge; lia).
    match goal with
    | |- Str.writelines (take ?a _) = _ => replace a with 0%nat by lia
    end.
    done.
Qed.

Lemma crop_top_to_itp_include_before_moleculetype_witness :
  ∃ fs',
    crop_top_to_itp "lipid.top" {[ "lipid.top"%string :=
"; Include Position restraint file
#include posre
[ moleculetype ]
POPC 3
[ system ]
"%string ]} = Ok fs' ∧
    fs' !! "lipid.top"%string = None ∧
    fs' !! "lipid.itp"%string = Some "[ moleculetype ]
POPC 3
"%string.
Proof.
  apply (crop_top_to_itp_include_before_moleculetype "lipid"
"; Include Position restraint file
#include posre
[ moleculetype ]
POPC 3
[ system ]
" [] ["#include posre
"%string] ["POPC 3
"%string] "[ system ]
"); [reflexivity | reflexivity | reflexivity | compute_done..].
Defined.

(** X20.  For a name [base.top], [crop_top_to_itp] raises
    [FileNotFoundError] when the file is missing and the [ValueError] of
    [list.index] when one of the two marker lines is missing; in both
    cases before it writes or removes anything. *)
Theorem crop_top_to_itp_missing_file_or_marker
    (base : string) (fs : gmap string string) :
  Str.contains ".top" base = false →
  (fs !! (base +:+ ".top") = None →
   crop_top_to_itp (base +:+ ".top") fs
   = Raise (FileNotFoundError (base +:+ ".top"))) ∧
  (∀ content,
     fs !! (base +:+ ".top") = Some content →
     moleculetype_line ∉ Str.readlines content ∨
     include_posre_line ∉ Str.readlines content →
     crop_top_to_itp (base +:+ ".top") fs
     = Raise (ValueError "is not in list")).
Proof.
  intros Hbase. unfold crop_top_to_itp, second_last.
  rewrite (CropFacts.split_top base Hbase).
  cbn [length]. case_decide; [| lia].
  cbn [Nat.sub lookup list_lookup of_option mbind result_bind].
  split.
  - by intros ->.
  - intros content -> Hmiss. cbn [of_option mbind result_bind].
    destruct (list_index moleculetype_line (Str.readlines content))
      as [i|] eqn:Ei; [| done].
    cbn [of_option mbind result_bind].
    destruct (list_index include_posre_line (Str.readlines content))
      as [j|] eqn:Ej; [| done].
    exfalso. destruct Hmiss as [Hm | Hm]; apply Hm.
    + apply list_index_lookup in Ei. by eapply list_elem_of_lookup_2.
    + apply list_index_lookup in Ej. by eapply list_elem_of_lookup_2.
Qed.

Lemma crop_top_to_itp_missing_file_or_marker_witness :
  crop_top_to_itp "lipid.top" {[ "lipid.top"%string := "[ moleculetype ]
POPC 3
"%string ]} = Raise (ValueError "is not in list").
Proof.
  destruct (crop_top_to_itp_missing_file_or_marker "lipid"
              {[ "lipid.top"%string := "[ moleculetype ]
POPC 3
"%string ]}) as [_ H]; [reflexivity |].
  apply (H "[ moleculetype ]
POPC 3
"%string); [reflexivity | right; compute_done].
Defined.

(** ** [get_cubic_boxsize]

    Files are seen as text.  The structure tool is a parameter: what it
    writes for the content of its input file (if any) and the spacing,
    or nothing. *)


Section BoxSize.

Variable editconf : option string → Qc → option string.




End BoxSize.

